(** * Permission-consistency pipeline: a shallow embedding in Rocq

    The repository consists of three batch scripts:

    - [permission_triple_generator.py] turns an application database into
      (channel, permission category, status) triples and writes them to a
      line-oriented text file;
    - [consistency_visualization.py] re-reads that file and computes the
      consistency metrics (OCC, CCOR, CCCR, ICA, OCC trend);
    - [permission_visual_analysis.py] re-reads the same file and computes the
      supplementary analytics (dangerous ratio, triple consistency, genre
      comparison).

    Modelling conventions.

    - Python [str] is [string]: the UTF-8 encoding of the text, one [ascii]
      for each byte.  The string methods used by the scripts are defined in
      [Module Py] on this encoding; white space ([str.strip]) and decimal
      digits ([int]) are those of Unicode, characters of several bytes
      included (the tables are those of Unicode 14.0, which CPython 3.11
      uses).
    - Python [dict], [defaultdict] and [Counter] objects whose iteration order
      is not observable in the computed values are [gmap string _]; those
      whose insertion order is observed ([app_results] of [save_results],
      which fixes the layout of the written file, [genre_apps] and the
      counters of the analyses) are association lists.
    - Python [set] is [gset string].
    - Counters are [nat], statuses are [Z].
    - Python floats are modelled by exact rationals [Q], so rounding is not
      represented: a ratio of the model is the exact value that the float of
      the code approximates.  The one place where this is more than a
      rounding error is the [int()] of the trend loop of
      [calculate_metrics], which truncates a float product: when the exact
      product is an integer the float may lie just below it, and the code
      then counts one less than the model.  True division is partial
      ([Py.truediv] is [None] on a zero divisor, standing for
      [ZeroDivisionError]) and the code that divides lives in the [option]
      monad.
    - The metric functions are modelled on application records that hold
      all their keys ([TripleReader.app]); the reader itself returns
      dictionaries whose keys may be missing ([TripleReader.app_dict]).
    - A text file is the [string] of its contents. *)

From Stdlib Require Import ZArith QArith Qround String Ascii List Lia.
From stdpp Require Import gmap strings list fin_maps pretty sorting.

Close Scope Q_scope.
Local Open Scope string_scope.
Local Open Scope list_scope.

(** ** Python primitives used by the scripts *)

Module Py.

Definition LF : ascii := "010"%char.
Definition CR : ascii := "013"%char.

(** [c.isspace()] for a character of one byte: TAB..CR, FS..US and SPACE. *)
Definition isspace (c : ascii) : bool :=
  let n := nat_of_ascii c in
  (Nat.leb 9 n && Nat.leb n 13) || (Nat.leb 28 n && Nat.leb n 32).

(** The same for a character of two bytes, U+0085 and U+00A0, *)
Definition isspace2 (a b : ascii) : bool :=
  Nat.eqb (nat_of_ascii a) 194
  && (Nat.eqb (nat_of_ascii b) 133 || Nat.eqb (nat_of_ascii b) 160).

(** and for a character of three bytes: U+1680, U+2000..U+200A, U+2028,
    U+2029, U+202F, U+205F and U+3000. *)
Definition isspace3 (a b c : ascii) : bool :=
  let x := nat_of_ascii a in
  let y := nat_of_ascii b in
  let z := nat_of_ascii c in
  (Nat.eqb x 225 && Nat.eqb y 154 && Nat.eqb z 128)
  || (Nat.eqb x 226 && Nat.eqb y 128
      && ((Nat.leb 128 z && Nat.leb z 138)
          || Nat.eqb z 168 || Nat.eqb z 169 || Nat.eqb z 175))
  || (Nat.eqb x 226 && Nat.eqb y 129 && Nat.eqb z 159)
  || (Nat.eqb x 227 && Nat.eqb y 128 && Nat.eqb z 128).

(** [s.lstrip()] *)
Fixpoint lstrip (s : string) : string :=
  match s with
  | EmptyString => EmptyString
  | String a s1 =>
      if isspace a then lstrip s1
      else match s1 with
           | EmptyString => s
           | String b s2 =>
               if isspace2 a b then lstrip s2
               else match s2 with
                    | EmptyString => s
                    | String c s3 => if isspace3 a b c then lstrip s3 else s
                    end
           end
  end.

(** [s.isspace()], also true of the empty string here: [s] is made of
    white space only. *)
Fixpoint all_space (s : string) : bool :=
  match s with
  | EmptyString => true
  | String a s1 =>
      if isspace a then all_space s1
      else match s1 with
           | EmptyString => false
           | String b s2 =>
               if isspace2 a b then all_space s2
               else match s2 with
                    | EmptyString => false
                    | String c s3 => isspace3 a b c && all_space s3
                    end
           end
  end.

(** [s.rstrip()]: the white space that ends [s] is dropped. *)
Fixpoint rstrip (s : string) : string :=
  match s with
  | EmptyString => EmptyString
  | String a s1 => if all_space s then EmptyString else String a (rstrip s1)
  end.

(** [s.strip()] *)
Definition strip (s : string) : string := rstrip (lstrip s).

(** [c in s] for a one-character [c] *)
Fixpoint contains_char (c : ascii) (s : string) : bool :=
  match s with
  | EmptyString => false
  | String d s' => if Ascii.eqb d c then true else contains_char c s'
  end.

(** [s.startswith(p)] *)
Fixpoint startswith (p s : string) : bool :=
  match p, s with
  | EmptyString, _ => true
  | String a p', String b s' => Ascii.eqb a b && startswith p' s'
  | String _ _, EmptyString => false
  end.

(** [p in s] *)
Fixpoint contains (p s : string) : bool :=
  startswith p s ||
  match s with
  | EmptyString => false
  | String _ s' => contains p s'
  end.

(** [s.split(sep)] for a one-character separator: never empty. *)
Fixpoint split (sep : ascii) (s : string) : list string :=
  match s with
  | EmptyString => [EmptyString]
  | String c s' =>
      if Ascii.eqb c sep then EmptyString :: split sep s'
      else match split sep s' with
           | [] => [String c EmptyString]
           | p :: ps => String c p :: ps
           end
  end.

Definition lower_char (c : ascii) : ascii :=
  let n := nat_of_ascii c in
  if Nat.leb 65 n && Nat.leb n 90 then ascii_of_nat (n + 32) else c.

(** [s.lower()]; only the ASCII letters change, which is all that a search
    for an ASCII word in the result can observe. *)
Fixpoint lower (s : string) : string :=
  match s with
  | EmptyString => EmptyString
  | String c s' => String (lower_char c) (lower s')
  end.

(** [s.replace(p, '')] for a non-empty [p]: the occurrences of [p] are removed
    from left to right without overlap; [skip] counts the characters of an
    occurrence that are still to be dropped. *)
Fixpoint remove_all_from (skip : nat) (p s : string) : string :=
  match s with
  | EmptyString => EmptyString
  | String c s' =>
      match skip with
      | S k => remove_all_from k p s'
      | O => if startswith p s
             then remove_all_from (String.length p - 1) p s'
             else String c (remove_all_from 0 p s')
      end
  end.

Definition remove_all (p s : string) : string := remove_all_from 0 p s.

(** The decimal digits of Unicode come in runs of ten consecutive
    characters, from zero to nine; these are the code points of the zeros
    (Unicode 14.0). *)
Definition DECIMAL_ZEROS : list N :=
  [ 48; 1632; 1776; 1984; 2406; 2534; 2662; 2790; 2918; 3046; 3174; 3302;
    3430; 3558; 3664; 3792; 3872; 4160; 4240; 6112; 6160; 6470; 6608; 6784;
    6800; 6992; 7088; 7232; 7248; 42528; 43216; 43264; 43472; 43504; 43600;
    44016; 65296; 66720; 68912; 69734; 69872; 69942; 70096; 70384; 70736;
    70864; 71248; 71360; 71472; 71904; 72016; 72784; 73040; 73120; 92768;
    92864; 93008; 120782; 120792; 120802; 120812; 120822; 123200; 123632;
    125264; 130032 ]%N.

(** The value of a decimal digit, given by its code point. *)
Definition decimal (code : N) : option N :=
  (fun zero => code - zero)%N
    <$> List.find (fun zero => (zero <=? code)%N && (code <=? zero + 9)%N)
                  DECIMAL_ZEROS.

(** The payload of a continuation byte of UTF-8. *)
Definition continuation (b : ascii) : option N :=
  let n := N_of_ascii b in
  if ((128 <=? n) && (n <=? 191))%N then Some (n - 128)%N else None.

(** The code points of the characters of two, three and four bytes. *)
Definition code2 (a b : ascii) : option N :=
  let n := N_of_ascii a in
  if ((194 <=? n) && (n <=? 223))%N
  then y ← continuation b; Some ((n - 192) * 64 + y)%N
  else None.

Definition code3 (a b c : ascii) : option N :=
  let n := N_of_ascii a in
  if ((224 <=? n) && (n <=? 239))%N
  then y ← continuation b; z ← continuation c;
       Some ((n - 224) * 4096 + y * 64 + z)%N
  else None.

Definition code4 (a b c d : ascii) : option N :=
  let n := N_of_ascii a in
  if ((240 <=? n) && (n <=? 244))%N
  then y ← continuation b; z ← continuation c; w ← continuation d;
       Some ((n - 240) * 262144 + y * 4096 + z * 64 + w)%N
  else None.

Definition digit_char (d : N) : ascii := ascii_of_N (48 + d).

(** What [int(s)] does to [s] before it reads the number: a character of
    ASCII is kept, white space outside ASCII becomes a space, a decimal
    digit becomes the ASCII digit of its value; any other character is an
    error. *)
Fixpoint to_ascii (s : string) : option string :=
  match s with
  | EmptyString => Some EmptyString
  | String a s1 =>
      if (N_of_ascii a <? 128)%N then String a <$> to_ascii s1
      else
        match s1 with
        | EmptyString => None
        | String b s2 =>
            if isspace2 a b then String " "%char <$> to_ascii s2
            else
              match code2 a b ≫= decimal with
              | Some v => String (digit_char v) <$> to_ascii s2
              | None =>
                  match s2 with
                  | EmptyString => None
                  | String c s3 =>
                      if isspace3 a b c then String " "%char <$> to_ascii s3
                      else
                        match code3 a b c ≫= decimal with
                        | Some v => String (digit_char v) <$> to_ascii s3
                        | None =>
                            match s3 with
                            | EmptyString => None
                            | String d s4 =>
                                v ← code4 a b c d ≫= decimal;
                                String (digit_char v) <$> to_ascii s4
                            end
                        end
                  end
              end
        end
  end.

(** The white space that the number parser skips: TAB..CR and SPACE. *)
Definition number_space (c : ascii) : bool :=
  let n := nat_of_ascii c in
  (Nat.leb 9 n && Nat.leb n 13) || Nat.eqb n 32.

Fixpoint skip_spaces (s : string) : string :=
  match s with
  | EmptyString => EmptyString
  | String c s' => if number_space c then skip_spaces s' else s
  end.

Fixpoint only_spaces (s : string) : bool :=
  match s with
  | EmptyString => true
  | String c s' => number_space c && only_spaces s'
  end.

Definition digit_of (c : ascii) : option Z :=
  let n := nat_of_ascii c in
  if Nat.leb 48 n && Nat.leb n 57 then Some (Z.of_nat (n - 48)) else None.

(** [sys.get_int_max_str_digits()], by default. *)
Definition MAX_STR_DIGITS : nat := 4300.

(** The digits of an integer literal: decimal digits, single underscores
    allowed between two digits, white space allowed after the last digit;
    [count] is the number of digits read. *)
Fixpoint parse_digits (acc : Z) (after_digit : bool) (count : nat) (s : string)
    : option Z :=
  match s with
  | EmptyString =>
      if after_digit && Nat.leb count MAX_STR_DIGITS then Some acc else None
  | String c s' =>
      match digit_of c with
      | Some d => parse_digits (10 * acc + d) true (S count) s'
      | None =>
          if Ascii.eqb c "_"%char && after_digit
          then parse_digits acc false count s'
          else if after_digit && only_spaces s && Nat.leb count MAX_STR_DIGITS
               then Some acc else None
      end
  end.

(** [int(s)] for a string [s]; [None] stands for [ValueError]. *)
Definition int (s : string) : option Z :=
  t ← to_ascii s;
  match skip_spaces t with
  | String "-"%char r => Z.opp <$> parse_digits 0 false 0 r
  | String "+"%char r => parse_digits 0 false 0 r
  | r => parse_digits 0 false 0 r
  end.

(** [str(n)] / [f"{n}"] for an integer. *)
Definition str_of_int (n : Z) : string := pretty n.

(** Text-mode reading translates CR LF and a lone CR to LF. *)
Fixpoint universal_newlines (s : string) : string :=
  match s with
  | EmptyString => EmptyString
  | String c s' =>
      if Ascii.eqb c CR then
        match s' with
        | String d s'' =>
            if Ascii.eqb d LF then universal_newlines s'
            else String LF (universal_newlines s')
        | EmptyString => String LF EmptyString
        end
      else String c (universal_newlines s')
  end.

(** The lines of a text, each with its terminating LF (the last line may
    lack it). *)
Fixpoint lines_of (s : string) : list string :=
  match s with
  | EmptyString => []
  | String c s' =>
      if Ascii.eqb c LF then String LF EmptyString :: lines_of s'
      else match lines_of s' with
           | [] => [String c EmptyString]
           | l :: ls => String c l :: ls
           end
  end.

(** [f.readlines()] on a file opened in text mode. *)
Definition readlines (content : string) : list string :=
  lines_of (universal_newlines content).

(** [a / b] on numbers: [None] stands for [ZeroDivisionError]. *)
Definition truediv (a b : Q) : option Q :=
  if Qeq_bool b 0 then None else Some (a / b)%Q.

(** [int(x)] for a float: truncation towards zero. *)
Definition trunc (x : Q) : Z :=
  if Qle_bool 0 x then Qfloor x else Qceiling x.

Definition of_nat (n : nat) : Q := inject_Z (Z.of_nat n).

End Py.

(** ** permission_triple_generator.py *)

Module Generator.

(** [PERMISSION_MAPPING]: category -> raw vocabulary, in source order. *)
Definition PERMISSION_MAPPING : list (string * list string) :=
  [ ("Location",
     ["Location"; "Geolocation"; "GPS"; "Place"; "Address"; "Coordinates"]);
    ("Contacts",
     ["Contacts"; "Address Book"; "People"; "Phonebook"; "Contact List";
      "Contact Details"]);
    ("Phone",
     ["Device or other IDs"; "IMEI"; "SIM Serial"; "Phone Number";
      "Line 1 Number"; "Network Country ISO"; "Network Operator";
      "Subscriber ID"; "Wi-Fi connection information";
      "Bluetooth MAC Address"; "Cellular Network Info"; "Phone Calls";
      "Call Log"; "Call History"; "Personal info"; "App activity";
      "App info and performance"]);
    ("SMS",
     ["Messages"; "SMS"; "MMS"; "Text Messages"; "Call Log"; "Call History";
      "SMS/MMS"]);
    ("Storage",
     ["Photos and videos"; "Files and docs"; "Photos/Media/Files";
      "Document Files"; "Media Files"; "Internal Storage";
      "External Storage"; "SD Card Access"; "Storage"; "Financial info";
      "Audio files"; "Web browsing"]);
    ("Camera",
     ["Photos and videos"; "Camera"; "Take Photos"; "Take Videos";
      "Camera Metadata"; "Image Capture"; "Video Capture"; "Camera Access"]);
    ("Microphone",
     ["Audio"; "Microphone"; "Voice Recording"; "Sound Input";
      "Audio Capture"; "Microphone Access"]);
    ("Calendar",
     ["Calendar"; "Events"; "Reminders"; "Calendar Events";
      "Calendar Access"; "Calendar Data"]);
    ("Sensors",
     ["Sensors"; "Sensor Data"; "Accelerometer"; "Gyroscope"; "Magnetometer";
      "Light Sensor"; "Proximity Sensor"; "Barometer"; "Humidity Sensor";
      "Temperature Sensor"; "Sensor Access"; "Health and fitness"]) ].

(** The module-level loop that fills [REVERSE_MAPPING]:
    [REVERSE_MAPPING[item].append(permission)], creating the list first. *)
Definition reverse_add (permission : string) (rm : gmap string (list string))
    (item : string) : gmap string (list string) :=
  <[item := default [] (rm !! item) ++ [permission]]> rm.

Definition REVERSE_MAPPING : gmap string (list string) :=
  foldl (fun rm '(permission, items) => foldl (reverse_add permission) rm items)
        ∅ PERMISSION_MAPPING.

(** [CHANNELS]: record field -> channel name, in source order. *)
Definition CHANNELS : list (string * string) :=
  [ ("data_collected", "渠道一");
    ("permission", "渠道二");
    ("security_practices", "渠道三") ].

Definition PERMISSION_CATEGORIES : list string := PERMISSION_MAPPING.*1.

(** [_map_single_item(item)] (the [lru_cache] is transparent). *)
Definition _map_single_item (item : string) : gset string :=
  match REVERSE_MAPPING !! item with
  | Some perms => list_to_set perms
  | None =>
      if String.eqb item "App info and performance" then ∅
      else if Py.contains "sensors" (Py.lower item)
              || Py.contains "sensor" (Py.lower item)
           then {[ "Sensors" ]}
           else ∅
  end.

(** [map_to_permissions(data_items)] *)
Definition map_to_permissions (data_items : list string) : gset string :=
  foldl (fun permissions item => permissions ∪ _map_single_item item)
        ∅ data_items.

(** A channel field of an application record: a JSON array of raw vocabulary
    strings, or any other JSON value, of which only [str(value)] is used. *)
Inductive field_value :=
  | FList (items : list string)
  | FScalar (str_value : string).

(** An application record of the database.  [name], [_id] and [genre] are the
    keys read with [.get(key, 'unknown')]; their values are the strings of
    the database, which an f-string prints as they are.  [fields] holds the
    other keys. *)
Record app_data := {
  name : option string;
  _id : option string;
  genre : option string;
  fields : gmap string field_value
}.

(** The dictionary [app_info]; [app_genre] is its key ['genre']. *)
Record app_info := {
  app_name : string;
  app_id : string;
  app_genre : string
}.

#[global] Instance app_info_eq_dec : EqDecision app_info.
Proof. solve_decision. Defined.

(** One element of [results]: [(app_info, channel_name, category, status)]. *)
Definition result : Type := app_info * string * string * Z.

Definition info_of (app : app_data) : app_info :=
  {| app_name := default "unknown" (name app);
     app_id := default "unknown" (_id app);
     app_genre := default "unknown" (genre app) |}.

(** Loop state of the list branch: [permission_status] and [has_conflict]. *)
Record channel_state := {
  permission_status : gmap string Z;
  has_conflict : gmap string bool
}.

Definition init_state : channel_state :=
  {| permission_status := list_to_map ((fun cat => (cat, 0%Z)) <$> PERMISSION_CATEGORIES);
     has_conflict := list_to_map ((fun cat => (cat, false)) <$> PERMISSION_CATEGORIES) |}.

(** Body of [for category in categories]; the categories returned by
    [_map_single_item] are always keys of both dictionaries
    (lemma [map_single_item_categories]), so the subscripts do not fail.
    The dictionary [permission_items] is only appended to and never read;
    it is left out. *)
Definition mark_category (st : channel_state) (category : string) : channel_state :=
  let status := default 0%Z (permission_status st !! category) in
  if (status =? 0)%Z then
    {| permission_status := <[category := 1%Z]> (permission_status st);
       has_conflict := has_conflict st |}
  else if (status =? -1)%Z then
    {| permission_status := permission_status st;
       has_conflict := <[category := true]> (has_conflict st) |}
  else st.

(** Body of [for item in field_value]. *)
Definition mark_item (st : channel_state) (item : string) : channel_state :=
  foldl mark_category st (elements (_map_single_item item)).

Definition final_status (st : channel_state) (cat : string) : Z :=
  if default false (has_conflict st !! cat) then (-1)%Z
  else default 0%Z (permission_status st !! cat).

(** The triples appended to [results] for one channel. *)
Definition channel_results (info : app_info) (app : app_data)
    (channel : string * string) : list result :=
  let '(channel_field, channel_name) := channel in
  match fields app !! channel_field with
  | None =>
      (fun cat => (info, channel_name, cat, 0%Z)) <$> PERMISSION_CATEGORIES
  | Some (FList field_value) =>
      let st := foldl mark_item init_state field_value in
      (fun cat => (info, channel_name, cat, final_status st cat))
        <$> PERMISSION_CATEGORIES
  | Some (FScalar str_value) =>
      let categories := _map_single_item str_value in
      ((fun category => (info, channel_name, category, 1%Z))
         <$> elements categories)
      ++ ((fun cat => (info, channel_name, cat, 0%Z))
            <$> filter (fun cat => cat ∉ categories) PERMISSION_CATEGORIES)
  end.

(** [analyze_permissions(app_data)] *)
Definition analyze_permissions (app : app_data) : list result :=
  let info := info_of app in
  CHANNELS ≫= channel_results info app.

(** [process_app_database], from the parsed database ([load_json_data]
    returns the empty list for a missing or malformed file). *)
Definition process_app_database (apps_data : list app_data) : list result :=
  apps_data ≫= analyze_permissions.

(** A triple as written to the file. *)
Definition triple : Type := string * string * Z.

(** [app_results]: application key -> triples, in first-occurrence order. *)
Fixpoint add_result (key : app_info) (t : triple)
    (app_results : list (app_info * list triple)) : list (app_info * list triple) :=
  match app_results with
  | [] => [(key, [t])]
  | (k, ts) :: rest =>
      if decide (k = key) then (k, ts ++ [t]) :: rest
      else (k, ts) :: add_result key t rest
  end.

Definition group_results (results : list result) : list (app_info * list triple) :=
  foldl (fun app_results '(info, channel, permission, status) =>
           add_result info (channel, permission, status) app_results)
        [] results.

Definition NL : string := String Py.LF EmptyString.

Definition HEADER : string := "应用名称,应用ID,应用类别,渠道,权限,是否存在该权限".

Definition SEPARATOR : string := "--------------------------------------------------".

Definition triple_line (t : triple) : string :=
  let '(channel, permission, status) := t in
  channel +:+ "," +:+ permission +:+ "," +:+ Py.str_of_int status +:+ NL.

(** What the body of [for idx, (app_key, triples) in enumerate(...)] writes;
    [last] is [idx = len(app_results) - 1]. *)
Definition write_block (last : bool) (block : app_info * list triple) : string :=
  let '(key, triples) := block in
  "应用名称: " +:+ app_name key +:+ NL
  +:+ "应用ID: " +:+ app_id key +:+ NL
  +:+ "应用类别: " +:+ app_genre key +:+ NL
  +:+ "权限三元组:" +:+ NL
  +:+ String.concat "" (triple_line <$> triples)
  +:+ (if last then "" else SEPARATOR +:+ NL).

Fixpoint write_blocks (blocks : list (app_info * list triple)) : string :=
  match blocks with
  | [] => ""
  | [b] => write_block true b
  | b :: rest => write_block false b +:+ write_blocks rest
  end.

(** [save_results(results, output_file)]: the contents of the written file. *)
Definition save_results (results : list result) : string :=
  HEADER +:+ NL +:+ write_blocks (group_results results).

End Generator.

(** ** The triple-file reader

    [load_triple_data] is duplicated in [consistency_visualization.py] and
    [permission_visual_analysis.py]; the two loops over the lines are the same
    text, so the loop body is shared here and each script's module defines its
    own [load_triple_data] around it. *)

Module TripleReader.

Record triple := {
  channel : string;
  permission : string;
  status : Z
}.

#[global] Instance triple_eq_dec : EqDecision triple.
Proof. solve_decision. Defined.

(** The dictionary [current_app] (and, once its ['triples'] key is set, an
    element of [apps_data]): each key may be missing.  The fields are the
    keys ['app_name'], ['app_id'], ['genre'] and ['triples']. *)
Record app_dict := {
  d_app_name : option string;
  d_app_id : option string;
  d_genre : option string;
  d_triples : list triple
}.

Definition empty_dict : app_dict :=
  {| d_app_name := None; d_app_id := None; d_genre := None; d_triples := [] |}.

(** Truth value of the dictionary [current_app] inside the loop, where the
    ['triples'] key is not set yet. *)
Definition nonempty_dict (d : app_dict) : bool :=
  bool_decide (is_Some (d_app_name d))
  || bool_decide (is_Some (d_app_id d))
  || bool_decide (is_Some (d_genre d)).

Record reader_state := {
  apps_data : list app_dict;
  current_app : app_dict;
  triples : list triple
}.

Definition reader_init : reader_state :=
  {| apps_data := []; current_app := empty_dict; triples := [] |}.

Definition is_nil {A} (l : list A) : bool :=
  match l with [] => true | _ => false end.

(** [current_app and triples] *)
Definition pending (st : reader_state) : bool :=
  nonempty_dict (current_app st) && negb (is_nil (triples st)).

(** [current_app['triples'] = triples; apps_data.append(current_app)] *)
Definition saved (st : reader_state) : list app_dict :=
  apps_data st ++
  [ {| d_app_name := d_app_name (current_app st);
       d_app_id := d_app_id (current_app st);
       d_genre := d_genre (current_app st);
       d_triples := triples st |} ].

Definition NAME_PREFIX : string := "应用名称:".
Definition ID_PREFIX : string := "应用ID:".
Definition GENRE_PREFIX : string := "应用类别:".
Definition TRIPLES_PREFIX : string := "权限三元组:".

(** The body of [for line in lines]. *)
Definition process_line (st : reader_state) (raw : string) : reader_state :=
  let line := Py.strip raw in
  if String.eqb line "" then st
  else if Py.startswith NAME_PREFIX line then
    let fresh :=
      {| d_app_name := Some (Py.strip (Py.remove_all NAME_PREFIX line));
         d_app_id := Some ""; d_genre := Some ""; d_triples := [] |} in
    if pending st
    then {| apps_data := saved st; current_app := fresh; triples := [] |}
    else {| apps_data := apps_data st; current_app := fresh;
            triples := triples st |}
  else if Py.startswith ID_PREFIX line then
    {| apps_data := apps_data st;
       current_app :=
         {| d_app_name := d_app_name (current_app st);
            d_app_id := Some (Py.strip (Py.remove_all ID_PREFIX line));
            d_genre := d_genre (current_app st); d_triples := [] |};
       triples := triples st |}
  else if Py.startswith GENRE_PREFIX line then
    {| apps_data := apps_data st;
       current_app :=
         {| d_app_name := d_app_name (current_app st);
            d_app_id := d_app_id (current_app st);
            d_genre := Some (Py.strip (Py.remove_all GENRE_PREFIX line));
            d_triples := [] |};
       triples := triples st |}
  else if Py.startswith TRIPLES_PREFIX line then st
  else if Py.startswith "---" line then
    if pending st
    then {| apps_data := saved st; current_app := empty_dict; triples := [] |}
    else st
  else if Py.contains_char ","%char line then
    match Py.split ","%char line with
    | [channel; permission; status] =>
        match Py.int status with
        | Some status =>
            {| apps_data := apps_data st; current_app := current_app st;
               triples := triples st ++
                 [ {| channel := channel; permission := permission;
                      status := status |} ] |}
        | None => st
        end
    | _ => st
    end
  else st.

(** The statements after the loop: the last application is saved. *)
Definition finish (st : reader_state) : list app_dict :=
  if pending st then saved st else apps_data st.

(** The loop and the final save, on the lines that are left once the header
    has been dealt with. *)
Definition parse_lines (lines : list string) : list app_dict :=
  finish (foldl process_line reader_init lines).

(** [if lines and ',' in lines[0]: lines = lines[1:]] *)
Definition skip_header (lines : list string) : list string :=
  match lines with
  | first :: rest => if Py.contains_char ","%char first then rest else lines
  | [] => []
  end.

(** An application record with all its keys, as the metric functions
    subscript them ([app['genre']], [app['app_name']], [app['triples']]). *)
Record app := {
  app_name : string;
  app_id : string;
  genre : string;
  app_triples : list triple
}.

Definition complete (d : app_dict) : option app :=
  n ← d_app_name d; i ← d_app_id d; g ← d_genre d;
  Some {| app_name := n; app_id := i; genre := g; app_triples := d_triples d |}.

End TripleReader.

(** ** consistency_visualization.py *)

Module ConsistencyVisualization.
Import TripleReader.

(** [load_triple_data(file_path)], from the contents of the file.  The
    variable [header] is assigned and never read. *)
Definition load_triple_data (content : string) : list app_dict :=
  parse_lines (skip_header (Py.readlines content)).

Definition CH1 : string := "渠道一".
Definition CH2 : string := "渠道二".
Definition CH3 : string := "渠道三".

(** Values of the three [defaultdict]s of per-genre counters. *)
Record occ_bucket := { occ_count : nat; occ_consistent : nat }.
Record ccor_bucket := { ccor_total : nat; ccor_missing : nat }.
Record cccr_bucket := { cccr_total : nat; cccr_conflict : nat }.

Definition occ_zero : occ_bucket := {| occ_count := 0; occ_consistent := 0 |}.
Definition ccor_zero : ccor_bucket := {| ccor_total := 0; ccor_missing := 0 |}.
Definition cccr_zero : cccr_bucket := {| cccr_total := 0; cccr_conflict := 0 |}.

(** [permission_channels]: category -> channel -> status. *)
Abbreviation grouping := (gmap string (gmap string Z)).

(** The variables of [calculate_metrics] that live across the loop over the
    applications.  [permission_channels] is assigned inside the loop and read
    again after it; it is unbound ([None]) until the first iteration. *)
Record loop_state := {
  all_permissions_count : nat;
  consistent_count : nat;
  apps_occ : list Q;
  genre_occ : gmap string occ_bucket;
  ccor_data : gmap string ccor_bucket;
  cccr_data : gmap string cccr_bucket;
  ica_count : nat;
  ica_by_genre : gmap string nat;
  total_permissions : nat;
  permission_channels : option grouping
}.

Definition loop_init : loop_state :=
  {| all_permissions_count := 0; consistent_count := 0; apps_occ := [];
     genre_occ := ∅; ccor_data := ∅; cccr_data := ∅;
     ica_count := 0; ica_by_genre := ∅; total_permissions := 0;
     permission_channels := None |}.

(** Body of [for triple in app_triples], on the variables it touches:
    [(permission_channels, ica_count, ica_by_genre, total_permissions)]. *)
Definition scan_triple (app_genre : string)
    (acc : grouping * nat * gmap string nat * nat) (t : triple)
    : grouping * nat * gmap string nat * nat :=
  let '(pc, ica, by_genre, total) := acc in
  let channels := default ∅ (pc !! permission t) in
  let '(ica, by_genre) :=
    match channels !! channel t with
    | Some recorded =>
        if decide (recorded ≠ status t)
        then (S ica, <[app_genre := S (default 0 (by_genre !! app_genre))]> by_genre)
        else (ica, by_genre)
    | None => (ica, by_genre)
    end in
  (<[permission t := <[channel t := status t]> channels]> pc, ica, by_genre, S total).

(** [all(s == statuses[0] for s in statuses) and statuses[0] != -1], with
    [statuses = list(channels.values())]. *)
Definition agree (channels : gmap string Z) : bool :=
  match (map_to_list channels).*2 with
  | [] => false
  | (s0 :: _) as statuses =>
      forallb (fun s => bool_decide (s = s0)) statuses
      && negb (bool_decide (s0 = (-1)%Z))
  end.

Definition bump_ccor (app_genre : string) (missing : bool)
    (m : gmap string ccor_bucket) : gmap string ccor_bucket :=
  let b := default ccor_zero (m !! app_genre) in
  <[app_genre := {| ccor_total := S (ccor_total b);
                    ccor_missing := if missing then S (ccor_missing b)
                                    else ccor_missing b |}]> m.

Definition bump_cccr (app_genre : string) (conflict : bool)
    (m : gmap string cccr_bucket) : gmap string cccr_bucket :=
  let b := default cccr_zero (m !! app_genre) in
  <[app_genre := {| cccr_total := S (cccr_total b);
                    cccr_conflict := if conflict then S (cccr_conflict b)
                                     else cccr_conflict b |}]> m.

(** The variables touched by [for permission, channels in
    permission_channels.items()]. *)
Record category_acc := {
  acc_app_consistent : nat;
  acc_consistent_count : nat;
  acc_ccor : gmap string ccor_bucket;
  acc_cccr : gmap string cccr_bucket;
  acc_all_permissions_count : nat
}.

(** Body of that loop.  The CCOR and CCCR updates are nested in
    [if len(channels) == 3], as the indentation of the source has them. *)
Definition scan_category (app_genre : string) (permission : string)
    (channels : gmap string Z) (acc : category_acc) : category_acc :=
  if Nat.eqb (size channels) 3 then
    let ok := agree channels in
    {| acc_app_consistent :=
         if ok then S (acc_app_consistent acc) else acc_app_consistent acc;
       acc_consistent_count :=
         if ok then S (acc_consistent_count acc) else acc_consistent_count acc;
       acc_ccor :=
         match channels !! CH1, channels !! CH2 with
         | Some s1, Some s2 =>
             bump_ccor app_genre
               (bool_decide (s1 = 1%Z) && bool_decide (s2 = 0%Z)) (acc_ccor acc)
         | _, _ => acc_ccor acc
         end;
       acc_cccr :=
         match channels !! CH1, channels !! CH3 with
         | Some s1, Some s3 =>
             bump_cccr app_genre
               ((bool_decide (s1 = 1%Z) && bool_decide (s3 = 0%Z))
                || (bool_decide (s1 = 0%Z) && bool_decide (s3 = 1%Z)))
               (acc_cccr acc)
         | _, _ => acc_cccr acc
         end;
       acc_all_permissions_count := S (acc_all_permissions_count acc) |}
  else
    {| acc_app_consistent := acc_app_consistent acc;
       acc_consistent_count := acc_consistent_count acc;
       acc_ccor := acc_ccor acc;
       acc_cccr := acc_cccr acc;
       acc_all_permissions_count := S (acc_all_permissions_count acc) |}.

(** [x / y * 100] *)
Definition percent (x y : nat) : option Q :=
  q ← Py.truediv (Py.of_nat x) (Py.of_nat y); Some (q * 100)%Q.

(** Body of [for app_idx, app in enumerate(apps_data)]. *)
Definition process_app (st : loop_state) (a : app) : option loop_state :=
  let app_genre := genre a in
  let '(pc, ica, by_genre, total) :=
    foldl (scan_triple app_genre)
          (∅, ica_count st, ica_by_genre st, total_permissions st)
          (app_triples a) in
  let app_total := size pc in
  let acc :=
    map_fold (scan_category app_genre)
      {| acc_app_consistent := 0;
         acc_consistent_count := consistent_count st;
         acc_ccor := ccor_data st;
         acc_cccr := cccr_data st;
         acc_all_permissions_count := all_permissions_count st |} pc in
  let app_consistent := acc_app_consistent acc in
  if Nat.ltb 0 app_total then
    app_occ ← percent app_consistent app_total;
    let b := default occ_zero (genre_occ st !! app_genre) in
    Some {| all_permissions_count := acc_all_permissions_count acc;
            consistent_count := acc_consistent_count acc;
            apps_occ := apps_occ st ++ [app_occ];
            genre_occ :=
              <[app_genre := {| occ_count := occ_count b + app_total;
                                occ_consistent := occ_consistent b + app_consistent |}]>
                (genre_occ st);
            ccor_data := acc_ccor acc;
            cccr_data := acc_cccr acc;
            ica_count := ica;
            ica_by_genre := by_genre;
            total_permissions := total;
            permission_channels := Some pc |}
  else
    Some {| all_permissions_count := acc_all_permissions_count acc;
            consistent_count := acc_consistent_count acc;
            apps_occ := apps_occ st;
            genre_occ := genre_occ st;
            ccor_data := acc_ccor acc;
            cccr_data := acc_cccr acc;
            ica_count := ica;
            ica_by_genre := by_genre;
            total_permissions := total;
            permission_channels := Some pc |}.

(** The loop over the applications. *)
Definition main_loop (apps : list app) : option loop_state :=
  foldl (fun st a => st ≫= fun st => process_app st a) (Some loop_init) apps.

(** The variables of the trend loop:
    [(overall_occ_trend, cumulative_consistent, cumulative_total)].  The
    product that [int()] truncates is computed on exact rationals here (see
    the conventions at the head of the file). *)
Definition trend_step (last_channels : option grouping)
    (acc : option (list Q * Z * nat)) (app_occ : Q) : option (list Q * Z * nat) :=
  '(trend, cumulative_consistent, cumulative_total) ← acc;
  pc ← last_channels;
  x ← Py.truediv app_occ 100;
  let app_consistent := Py.trunc (x * Py.of_nat (size pc))%Q in
  let cumulative_consistent := (cumulative_consistent + app_consistent)%Z in
  let cumulative_total := cumulative_total + size pc in
  overall_occ ←
    (if Nat.ltb 0 cumulative_total
     then q ← Py.truediv (inject_Z cumulative_consistent) (Py.of_nat cumulative_total);
          Some (q * 100)%Q
     else Some 0%Q);
  Some (trend ++ [overall_occ], cumulative_consistent, cumulative_total).

Definition overall_occ_trend_of (st : loop_state) : option (list Q) :=
  '(trend, _, _) ← foldl (trend_step (permission_channels st))
                         (Some ([], 0%Z, 0)) (apps_occ st);
  Some trend.

(** [data['consistent'] / data['count'] * 100 if data['count'] > 0 else 0] *)
Definition genre_occ_ratio (data : occ_bucket) : option Q :=
  if Nat.ltb 0 (occ_count data)
  then percent (occ_consistent data) (occ_count data) else Some 0%Q.

(** [data['missing'] / data['total'] * 100 if data['total'] > 0 else 0] *)
Definition ccor_ratio (data : ccor_bucket) : option Q :=
  if Nat.ltb 0 (ccor_total data)
  then percent (ccor_missing data) (ccor_total data) else Some 0%Q.

(** [data['conflict'] / data['total'] * 100 if data['total'] > 0 else 0] *)
Definition cccr_ratio (data : cccr_bucket) : option Q :=
  if Nat.ltb 0 (cccr_total data)
  then percent (cccr_conflict data) (cccr_total data) else Some 0%Q.

(** [ica_count / total_permissions * 100 if total_permissions > 0 else 0] *)
Definition ica_ratio_of (ica_count total_permissions : nat) : option Q :=
  if Nat.ltb 0 total_permissions
  then percent ica_count total_permissions else Some 0%Q.

(** [for genre, data in d.items(): result[genre] = f(data)] *)
Definition per_genre {A} (f : A → option Q) (d : gmap string A)
    : option (gmap string Q) :=
  list_to_map <$> mapM (fun '(g, data) => pair g <$> f data) (map_to_list d).

Record metrics := {
  overall_occ_trend : list Q;
  m_genre_occ : gmap string Q;
  ccor : gmap string Q;
  cccr : gmap string Q;
  ica_ratio : Q;
  m_ica_by_genre : gmap string nat
}.

(** [calculate_metrics(apps_data)] *)
Definition calculate_metrics (apps : list app) : option metrics :=
  st ← main_loop apps;
  trend ← overall_occ_trend_of st;
  genre_occ_result ← per_genre genre_occ_ratio (genre_occ st);
  ccor_result ← per_genre ccor_ratio (ccor_data st);
  cccr_result ← per_genre cccr_ratio (cccr_data st);
  ratio ← ica_ratio_of (ica_count st) (total_permissions st);
  Some {| overall_occ_trend := trend;
          m_genre_occ := genre_occ_result;
          ccor := ccor_result;
          cccr := cccr_result;
          ica_ratio := ratio;
          m_ica_by_genre := ica_by_genre st |}.

End ConsistencyVisualization.

(** ** permission_visual_analysis.py *)

Module PermissionVisualAnalysis.
Import TripleReader.

(** [load_triple_data(file_path)], from the contents of the file. *)
Definition load_triple_data (content : string) : list app_dict :=
  parse_lines (skip_header (Py.readlines content)).

Definition CH1 : string := "渠道一".

Definition ANDROID_DANGEROUS_PERMISSIONS : gmap string bool :=
  list_to_map
    [ ("Location", true); ("Contacts", true); ("Phone", true); ("SMS", true);
      ("Storage", true); ("Camera", true); ("Microphone", true);
      ("Calendar", true); ("Sensors", true) ].

(** [triple['channel'] == '渠道一' and triple['status'] == 1] *)
Definition collected (t : triple) : bool :=
  String.eqb (channel t) CH1 && bool_decide (status t = 1%Z).

(** [x / y * 100] *)
Definition percent (x y : nat) : option Q :=
  q ← Py.truediv (Py.of_nat x) (Py.of_nat y); Some (q * 100)%Q.

Record dangerous_result := {
  dangerous_ratio : Q;
  total_dangerous : nat;
  total_collected : nat
}.

(** Body of the two nested loops, on [(total_dangerous, total_collected)]. *)
Definition count_dangerous (acc : nat * nat) (t : triple) : nat * nat :=
  let '(dangerous, collected_so_far) := acc in
  if collected t then
    (if default false (ANDROID_DANGEROUS_PERMISSIONS !! permission t)
     then S dangerous else dangerous,
     S collected_so_far)
  else acc.

(** [(total_dangerous / total_collected) * 100 if total_collected > 0 else 0] *)
Definition dangerous_ratio_of (total_dangerous total_collected : nat) : option Q :=
  if Nat.ltb 0 total_collected
  then percent total_dangerous total_collected else Some 0%Q.

(** [analyze_dangerous_permissions(apps_data)] *)
Definition analyze_dangerous_permissions (apps : list app) : option dangerous_result :=
  let '(dangerous, collected_total) :=
    foldl (fun acc a => foldl count_dangerous acc (app_triples a)) (0, 0) apps in
  ratio ← dangerous_ratio_of dangerous collected_total;
  Some {| dangerous_ratio := ratio;
          total_dangerous := dangerous;
          total_collected := collected_total |}.

(** [permission_channels[permission][channel] = status] over the triples. *)
Definition group_triples (ts : list triple) : gmap string (gmap string Z) :=
  foldl (fun pc t =>
           <[permission t := <[channel t := status t]> (default ∅ (pc !! permission t))]> pc)
        ∅ ts.

(** [all(s == statuses[0] for s in statuses) and statuses[0] != -1] *)
Definition agree (channels : gmap string Z) : bool :=
  match (map_to_list channels).*2 with
  | [] => false
  | (s0 :: _) as statuses =>
      forallb (fun s => bool_decide (s = s0)) statuses
      && negb (bool_decide (s0 = (-1)%Z))
  end.

Record consistency_bucket := { pc_consistent : nat; pc_total : nat }.

Definition bucket_zero : consistency_bucket := {| pc_consistent := 0; pc_total := 0 |}.

(** The counters touched by the loop over one application's categories:
    [(triple_consistent_count, total_permissions, permission_consistency,
      app_consistent, app_total)]. *)
Definition scan_category (permission : string) (channels : gmap string Z)
    (acc : nat * nat * gmap string consistency_bucket * nat * nat)
    : nat * nat * gmap string consistency_bucket * nat * nat :=
  let '(consistent_count, total, by_permission, app_consistent, app_total) := acc in
  let b := default bucket_zero (by_permission !! permission) in
  if Nat.eqb (size channels) 3 && agree channels then
    (S consistent_count, S total,
     <[permission := {| pc_consistent := S (pc_consistent b);
                        pc_total := S (pc_total b) |}]> by_permission,
     S app_consistent, S app_total)
  else
    (consistent_count, S total,
     <[permission := {| pc_consistent := pc_consistent b;
                        pc_total := S (pc_total b) |}]> by_permission,
     app_consistent, S app_total).

Record consistency_result := {
  triple_consistency_ratio : Q;
  permission_consistency : gmap string (consistency_bucket * Q);
  app_consistency : list (string * Q)
}.

(** Body of [for app in apps_data], on
    [(triple_consistent_count, total_permissions, permission_consistency,
      app_consistency)]. *)
Definition consistency_step
    (acc : option (nat * nat * gmap string consistency_bucket * list (string * Q)))
    (a : app) : option (nat * nat * gmap string consistency_bucket * list (string * Q)) :=
  '(consistent_count, total, by_permission, per_app) ← acc;
  let '(consistent_count, total, by_permission, app_consistent, app_total) :=
    map_fold scan_category (consistent_count, total, by_permission, 0, 0)
             (group_triples (app_triples a)) in
  if Nat.ltb 0 app_total then
    ratio ← percent app_consistent app_total;
    Some (consistent_count, total, by_permission, per_app ++ [(app_name a, ratio)])
  else Some (consistent_count, total, by_permission, per_app).

Definition bucket_ratio (data : consistency_bucket) : option (consistency_bucket * Q) :=
  ratio ← (if Nat.ltb 0 (pc_total data)
           then percent (pc_consistent data) (pc_total data) else Some 0%Q);
  Some (data, ratio).

(** [(triple_consistent_count / total_permissions) * 100
      if total_permissions > 0 else 0] *)
Definition triple_consistency_ratio_of (triple_consistent_count total_permissions : nat)
    : option Q :=
  if Nat.ltb 0 total_permissions
  then percent triple_consistent_count total_permissions else Some 0%Q.

(** [analyze_channel_consistency(apps_data)] *)
Definition analyze_channel_consistency (apps : list app) : option consistency_result :=
  '(consistent_count, total, by_permission, per_app) ←
    foldl consistency_step (Some (0, 0, ∅, [])) apps;
  ratio ← triple_consistency_ratio_of consistent_count total;
  with_ratio ← list_to_map <$>
    mapM (fun '(p, data) => pair p <$> bucket_ratio data) (map_to_list by_permission);
  Some {| triple_consistency_ratio := ratio;
          permission_consistency := with_ratio;
          app_consistency := per_app |}.

(** [genre_apps[app['genre']].append(app)], keys in insertion order. *)
Fixpoint genre_append (a : app) (genre_apps : list (string * list app))
    : list (string * list app) :=
  match genre_apps with
  | [] => [(genre a, [a])]
  | (g, l) :: rest =>
      if decide (g = genre a) then (g, l ++ [a]) :: rest
      else (g, l) :: genre_append a rest
  end.

Definition ordered_genre_apps (apps : list app) : list (string * list app) :=
  foldl (fun genre_apps a => genre_append a genre_apps) [] apps.

(** The set built by the loop over one application's triples. *)
Definition collected_permissions (a : app) : gset string :=
  foldl (fun permissions t =>
           if collected t then permissions ∪ {[ permission t ]} else permissions)
        ∅ (app_triples a).

(** [app_permissions[app_name] = permissions] over the genre's applications. *)
Definition app_permissions_of (apps : list app) : gmap string (gset string) :=
  foldl (fun m a => <[app_name a := collected_permissions a]> m) ∅ apps.

(** [set.union] applied to all the sets *)
Definition set_union (sets : list (gset string)) : gset string := ⋃ sets.

(** [set.intersection] applied to all the sets; it needs at least one. *)
Definition set_intersection (sets : list (gset string)) : option (gset string) :=
  match sets with
  | [] => None
  | first :: rest => Some (foldl (∩) first rest)
  end.

Record comparison := {
  cmp_genre : string;
  app_count : nat;
  common_permissions : gset string;
  common_count : nat;
  total_permissions : nat;
  common_ratio : Q
}.

(** Body of [for genre, apps in genre_apps.items()]: [None] for a genre that
    is skipped by [continue]. *)
Definition compare_genre (genre : string) (apps : list app) : option (option comparison) :=
  if Nat.ltb (length apps) 5 then Some None
  else
    let app_permissions := app_permissions_of apps in
    let sets := (map_to_list app_permissions).*2 in
    let all_permissions :=
      if Nat.ltb 0 (size app_permissions) then set_union sets else ∅ in
    common ← (if Nat.ltb 1 (size app_permissions)
              then set_intersection sets else Some all_permissions);
    ratio ← (if Nat.ltb 0 (size all_permissions)
             then percent (size common) (size all_permissions) else Some 0%Q);
    Some (Some {| cmp_genre := genre;
                  app_count := length apps;
                  common_permissions := common;
                  common_count := size common;
                  total_permissions := size all_permissions;
                  common_ratio := ratio |}).

(** [prepare_genre_comparison_data(apps_data)]; the genres are visited in the
    order in which they were first inserted into [genre_apps]. *)
Definition prepare_genre_comparison_data (apps : list app) : option (list comparison) :=
  let genre_apps := ordered_genre_apps apps in
  rows ← mapM (fun '(genre, apps) => compare_genre genre apps) genre_apps;
  Some (omap id rows).

(** *** Counters and dictionaries whose order is observed

    A [Counter], a [defaultdict(int)] and a [dict] keep their keys in
    insertion order; where the code iterates over them they are association
    lists. *)

(** [counter[key] += 1] *)
Fixpoint counter_add {K} `{EqDecision K} (key : K) (counter : list (K * nat))
    : list (K * nat) :=
  match counter with
  | [] => [(key, 1)]
  | (k, n) :: rest =>
      if decide (k = key) then (k, S n) :: rest
      else (k, n) :: counter_add key rest
  end.

(** [counter.get(key, 0)] *)
Fixpoint counter_get {K} `{EqDecision K} (key : K) (counter : list (K * nat))
    : nat :=
  match counter with
  | [] => 0
  | (k, n) :: rest => if decide (k = key) then n else counter_get key rest
  end.

(** The loop that counts, for each category, the triples of channel one with
    status 1 ([permission_counter], [permission_usage]). *)
Definition count_collected (apps : list app) : list (string * nat) :=
  foldl (fun counter a =>
           foldl (fun counter t =>
                    if collected t then counter_add (permission t) counter
                    else counter)
                 counter (app_triples a))
        [] apps.

(** [sorted(items, key=key, reverse=True)]: the sort is stable, items with
    equal keys keep their order. *)
Fixpoint insert_by {A} (key : A → nat) (x : A) (sorted : list A) : list A :=
  match sorted with
  | [] => [x]
  | y :: rest =>
      if Nat.leb (key y) (key x) then x :: sorted
      else y :: insert_by key x rest
  end.

Definition sorted_desc {A} (key : A → nat) (items : list A) : list A :=
  foldr (insert_by key) [] items.

(** [counter.most_common(n)], that is [heapq.nlargest(n, counter.items(),
    key=itemgetter(1))]: the first [n] items of the stable sort by
    decreasing count. *)
Definition most_common {K} (n : nat) (counter : list (K * nat)) : list (K * nat) :=
  take n (sorted_desc snd counter).

Definition PERMISSION_SENSITIVITY : list (string * nat) :=
  [ ("Location", 5); ("Contacts", 5); ("Phone", 5); ("SMS", 5);
    ("Storage", 4); ("Camera", 4); ("Microphone", 4);
    ("Calendar", 3); ("Sensors", 3) ].

Record frequency_result := {
  top_permissions : list (string * nat);
  high_risk_permissions : list (string * nat);
  all_permissions_count : list (string * nat)
}.

(** [analyze_permission_frequency(apps_data)] *)
Definition analyze_permission_frequency (apps : list app) : frequency_result :=
  let permission_counter := count_collected apps in
  {| top_permissions := most_common 10 permission_counter;
     high_risk_permissions :=
       filter (fun item : string * nat =>
                 (4 ≤ counter_get item.1 PERMISSION_SENSITIVITY)%nat
                 ∧ (10 < item.2)%nat)
              permission_counter;
     all_permissions_count := permission_counter |}.

(** The first statement of [visualize_permission_frequency], which unzips
    the items of [top_permissions] into [permissions, counts]: without any
    item there is nothing to unpack and ValueError is raised. *)
Definition unpack_top_permissions (top : list (string * nat))
    : option (list string * list nat) :=
  match top with
  | [] => None
  | _ => Some (top.*1, top.*2)
  end.

Record heatmap_row := {
  hm_permission : string;
  hm_frequency : nat;
  hm_sensitivity : nat;
  hm_normalized_freq : Q
}.

(** [max(permission_counter.values()) if permission_counter else 1] *)
Definition max_freq_of (permission_counter : list (string * nat)) : nat :=
  match permission_counter with
  | [] => 1
  | _ => foldr Nat.max 0 permission_counter.*2
  end.

(** [prepare_heatmap_data(apps_data)]: the rows of the data frame. *)
Definition prepare_heatmap_data (apps : list app) : option (list heatmap_row) :=
  let permission_counter := count_collected apps in
  mapM (fun entry : string * nat =>
          let frequency := counter_get entry.1 permission_counter in
          let max_freq := max_freq_of permission_counter in
          normalized_freq ← Py.truediv (Py.of_nat frequency) (Py.of_nat max_freq);
          Some {| hm_permission := entry.1;
                  hm_frequency := frequency;
                  hm_sensitivity := entry.2;
                  hm_normalized_freq := normalized_freq |})
       PERMISSION_SENSITIVITY.

(** [genre_apps[genre]] on the [defaultdict(list)] *)
Fixpoint apps_of_genre (g : string) (genre_apps : list (string * list app))
    : list app :=
  match genre_apps with
  | [] => []
  | (k, l) :: rest => if decide (k = g) then l else apps_of_genre g rest
  end.

Record radar_row := {
  rd_genre : string;
  rd_permission : string;
  rd_usage_ratio : Q
}.

(** [prepare_radar_data(apps_data, top_n)], for [top_n >= 0]: the rows of the
    data frame. *)
Definition prepare_radar_data (apps : list app) (top_n : nat)
    : option (list radar_row) :=
  let genre_apps := ordered_genre_apps apps in
  let top_genres :=
    take top_n
      (sorted_desc (fun g => length (apps_of_genre g genre_apps)) genre_apps.*1) in
  rows ← mapM (fun g =>
                 let apps := apps_of_genre g genre_apps in
                 let permission_usage := count_collected apps in
                 let total_apps := length apps in
                 mapM (fun entry : string * nat =>
                         q ← Py.truediv
                               (Py.of_nat (counter_get entry.1 permission_usage))
                               (Py.of_nat total_apps);
                         Some {| rd_genre := g;
                                 rd_permission := entry.1;
                                 rd_usage_ratio := (q * 100)%Q |})
                      PERMISSION_SENSITIVITY)
              top_genres;
  Some (concat rows).




(** [labels.index(label)]: [None] stands for ValueError. *)
Definition label_index (label : string) (labels : list string) : option nat :=
  fst <$> list_find (fun l => l = label) labels.





End PermissionVisualAnalysis.

(** ** Notions of the specification and of the proofs

    The definitions of this module are not taken from the source: they
    state, in the words of the specification, what the theorems compare with
    the definitions above, or they name the invariants and the classes of
    inputs used in the proofs. *)

Module Spec.
Import TripleReader.

(** The statuses emitted by the generator for a channel and a category. *)
Definition statuses_for (results : list Generator.result) (ch cat : string) : list Z :=
  (filter (fun r : Generator.result => r.1.1.2 = ch ∧ r.1.2 = cat) results).*2.

(** The raw items of a channel field of an application record. *)
Definition raw_items (app : Generator.app_data) (field : string) : list string :=
  match Generator.fields app !! field with
  | None => []
  | Some (Generator.FList items) => items
  | Some (Generator.FScalar str_value) => [str_value]
  end.

(** Invariant of the generator's loop over the raw items of a list-valued
    channel: no category is ever flagged as conflicting, and a category has
    status 1 exactly when one of the items seen so far maps to it ([seen] is
    the union of their category sets). *)
Definition marked (st : Generator.channel_state) (seen : gset string) : Prop :=
  ∀ cat, Generator.has_conflict st !! cat ≠ Some true
         ∧ default 0%Z (Generator.permission_status st !! cat)
           = if decide (cat ∈ seen) then 1%Z else 0%Z.

(** The status the specification gives to a channel and a category: 1 when a
    raw item of the channel maps to the category, 0 by default. *)
Definition expected_status (app : Generator.app_data) (field cat : string) : Z :=
  if decide (cat ∈ Generator.map_to_permissions (raw_items app field))
  then 1%Z else 0%Z.

(** The fixed 3 x 9 matrix of triples of an application. *)
Definition expected_results (app : Generator.app_data) : list Generator.result :=
  '(field, ch) ← Generator.CHANNELS;
  (fun cat => (Generator.info_of app, ch, cat, expected_status app field cat))
    <$> Generator.PERMISSION_CATEGORIES.

(** The status recorded for category [p] on channel [c] by the triples [ts]
    of one application: that of the last triple of that category and
    channel, later triples overriding earlier ones. *)
Definition entry (ts : list triple) (p c : string) : option Z :=
  status <$> last (filter (fun t => permission t = p ∧ channel t = c) ts).

(** A triple changes the status recorded so far for its category and
    channel. *)
Definition changes_status (seen : list triple) (t : triple) : bool :=
  match entry seen (permission t) (channel t) with
  | Some recorded => bool_decide (recorded ≠ status t)
  | None => false
  end.

(** The number of triples of [ts] that change a recorded status, [seen]
    being the triples that precede [ts]. *)
Fixpoint status_changes_from (seen ts : list triple) : nat :=
  match ts with
  | [] => 0
  | t :: rest =>
      (if changes_status seen t then 1 else 0)
      + status_changes_from (seen ++ [t]) rest
  end.

Definition status_changes (ts : list triple) : nat := status_changes_from [] ts.

(** The number of triples with status -1. *)
Definition flagged (ts : list triple) : nat :=
  length (filter (fun t => status t = (-1)%Z) ts).

(** The distinct categories of the triples of an application. *)
Definition categories (ts : list triple) : gset string :=
  list_to_set (permission <$> ts).

(** The channels that have an entry for category [p]. *)
Definition channels_of (ts : list triple) (p : string) : gset string :=
  list_to_set (channel <$> filter (fun t => permission t = p) ts).

(** Three channels have an entry for [p] and their statuses are equal and
    not -1. *)
Definition consistent (ts : list triple) (p : string) : Prop :=
  size (channels_of ts p) = 3
  ∧ ∃ s, s ≠ (-1)%Z ∧ ∀ c, c ∈ channels_of ts p → entry ts p c = Some s.

(** The three fixed channels all have an entry for [p] and the three
    statuses are equal and not -1. *)
Definition agree3 (ts : list triple) (p : string) : Prop :=
  ∃ s, s ≠ (-1)%Z
       ∧ entry ts p ConsistencyVisualization.CH1 = Some s
       ∧ entry ts p ConsistencyVisualization.CH2 = Some s
       ∧ entry ts p ConsistencyVisualization.CH3 = Some s.

(** The data model of the specification: every triple is on one of the
    three fixed channels. *)
Definition three_channels (ts : list triple) : Prop :=
  ∀ t, t ∈ ts →
       channel t ∈ [ ConsistencyVisualization.CH1;
                     ConsistencyVisualization.CH2;
                     ConsistencyVisualization.CH3 ].

(** The cumulative running average of a list of percentages: the i-th entry
    is the mean of the first i values. *)
Definition running_average (occs : list Q) : list Q :=
  (fun i => (foldr Qplus 0%Q (take i occs) / Py.of_nat i)%Q)
    <$> seq 1 (length occs).

(** The set of categories an application asserts present (status 1) on
    channel 1. *)
Definition present_on_channel1 (a : app) : gset string :=
  list_to_set
    (permission <$>
       filter (fun t => channel t = "渠道一" ∧ status t = 1%Z) (app_triples a)).

(** The per-application sets of a genre, one for each of its applications. *)
Definition genre_sets (apps : list app) (g : string) : list (gset string) :=
  present_on_channel1 <$> filter (fun a => genre a = g) apps.

Definition intersection_of (sets : list (gset string)) : gset string :=
  match sets with
  | [] => ∅
  | first :: rest => foldr (∩) first rest
  end.

(** 100 times the size of the intersection over the size of the union. *)
Definition homogeneity (sets : list (gset string)) : Q :=
  (100 * Py.of_nat (size (intersection_of sets)) / Py.of_nat (size (⋃ sets)))%Q.

(** A string that fits on one line of a text file: it contains neither a
    line feed nor a carriage return. *)
Definition single_line (s : string) : Prop :=
  Py.contains_char Py.LF s = false ∧ Py.contains_char Py.CR s = false.

(** The name, identifier and genre of a record, as written to the file. *)
Definition single_line_info (info : Generator.app_info) : Prop :=
  single_line (Generator.app_name info)
  ∧ single_line (Generator.app_id info)
  ∧ single_line (Generator.app_genre info).

Definition single_line_record (app : Generator.app_data) : Prop :=
  single_line_info (Generator.info_of app).

(** A written triple as the reader represents it. *)
Definition as_triple (t : Generator.triple) : triple :=
  {| channel := t.1.1; permission := t.1.2; status := t.2 |}.

(** The keys of a Python dictionary filled from a list: the distinct
    elements in the order of their first occurrence. *)
Definition first_occurrences {A} `{EqDecision A} (l : list A) : list A :=
  reverse (remove_dups (reverse l)).

(** The triples generated for a record, as the file holds them. *)
Definition record_triples (app : Generator.app_data) : list Generator.triple :=
  (fun r : Generator.result => (r.1.1.2, r.1.2, r.2))
    <$> Generator.analyze_permissions app.

(** The blocks that the file must hold for a database: one for each
    distinct (name, id, genre) key of its records, in the order in which
    the keys first occur, with the triples generated for the records of
    that key, record after record. *)
Definition record_blocks (apps : list Generator.app_data)
    : list (Generator.app_info * list Generator.triple) :=
  (fun key =>
     (key,
      filter (fun app => Generator.info_of app = key) apps ≫= record_triples))
    <$> first_occurrences (Generator.info_of <$> apps).

(** The triples generated for each application, the applications being
    identified by their (name, id, genre) key. *)
Definition generated_groups (apps : list Generator.app_data) : list (list triple) :=
  (fun block : Generator.app_info * list Generator.triple => as_triple <$> block.2)
    <$> record_blocks apps.

(** The triples that the generator can emit. *)
Definition all_triples : list Generator.triple :=
  ch ← Generator.CHANNELS.*2;
  cat ← Generator.PERMISSION_CATEGORIES;
  s ← [0%Z; 1%Z];
  [(ch, cat, s)].

(** The text of a triple line, without its line feed. *)
Definition triple_text (t : Generator.triple) : string :=
  t.1.1 +:+ "," +:+ t.1.2 +:+ "," +:+ Py.str_of_int t.2.

(** The lines written for one application, without their line feeds. *)
Definition block_lines (last : bool) (block : Generator.app_info * list Generator.triple)
    : list string :=
  [ "应用名称: " +:+ Generator.app_name block.1;
    "应用ID: " +:+ Generator.app_id block.1;
    "应用类别: " +:+ Generator.app_genre block.1;
    "权限三元组:" ]
  ++ (triple_text <$> block.2)
  ++ (if last then [] else [Generator.SEPARATOR]).

Fixpoint all_lines (blocks : list (Generator.app_info * list Generator.triple))
    : list string :=
  match blocks with
  | [] => []
  | [b] => block_lines true b
  | b :: rest => block_lines false b ++ all_lines rest
  end.

(** The text made of the given lines, each followed by a line feed, and then
    of [rest]. *)
Definition join_onto (lines : list string) (rest : string) : string :=
  foldr (fun l acc => l +:+ Generator.NL +:+ acc) rest lines.

(** A byte that does not begin the encoding of a white-space character. *)
Definition starts_no_space (a : ascii) : bool :=
  negb (Py.isspace a)
  && negb (bool_decide (nat_of_ascii a ∈ [194; 225; 226; 227])).

(** A text none of whose bytes begins a white-space character, as the
    prefixes of the lines of the file are. *)
Fixpoint plain (p : string) : bool :=
  match p with
  | EmptyString => true
  | String a p' => starts_no_space a && plain p'
  end.

(** A block of the file as the generator produces it: a key that fits on
    single lines and at least one triple, all of them triples that the
    generator can emit. *)
Definition generated_block (block : Generator.app_info * list Generator.triple) : Prop :=
  single_line_info block.1 ∧ block.2 ≠ [] ∧ Forall (.∈ all_triples) block.2.

(** A category that enters the CCOR total of its genre: its grouping has
    three channels, channels 1 and 2 among them. *)
Definition ccor_counted (channels : gmap string Z) : Prop :=
  size channels = 3
  ∧ is_Some (channels !! ConsistencyVisualization.CH1)
  ∧ is_Some (channels !! ConsistencyVisualization.CH2).

(** A category that enters the CCOR missing count: moreover channel 1
    asserts presence and channel 2 absence. *)
Definition ccor_omitted (channels : gmap string Z) : Prop :=
  size channels = 3
  ∧ channels !! ConsistencyVisualization.CH1 = Some 1%Z
  ∧ channels !! ConsistencyVisualization.CH2 = Some 0%Z.

(** The reported CCOR of a bucket: missing divided by total, times 100. *)
Definition ccor_value (data : ConsistencyVisualization.ccor_bucket) : Q :=
  if decide (ConsistencyVisualization.ccor_total data = 0) then 0%Q
  else (Py.of_nat (ConsistencyVisualization.ccor_missing data)
        / Py.of_nat (ConsistencyVisualization.ccor_total data) * 100)%Q.

(** The table that the loop over [PERMISSION_MAPPING] builds, for any
    mapping. *)
Definition reverse_mapping_of (mapping : list (string * list string))
    : gmap string (list string) :=
  foldl (fun rm '(permission, items) =>
           foldl (Generator.reverse_add permission) rm items)
        ∅ mapping.

(** The raw item is listed under the category in [PERMISSION_MAPPING]. *)
Definition listed (item cat : string) : Prop :=
  ∃ items, (cat, items) ∈ Generator.PERMISSION_MAPPING ∧ item ∈ items.

(** The triples of the results that carry the key [key], in order. *)
Definition triples_of (key : Generator.app_info) (results : list Generator.result)
    : list Generator.triple :=
  (fun r : Generator.result => (r.1.1.2, r.1.2, r.2))
    <$> filter (fun r : Generator.result => r.1.1.1 = key) results.

(** A percentage: a number between 0 and 100. *)
Definition percentage (q : Q) : Prop := (0 <= q)%Q ∧ (q <= 100)%Q.

(** The applications that have at least one triple. *)
Definition with_triples (apps : list app) : list app :=
  filter (fun a => app_triples a ≠ []) apps.

(** The sum of a per-application count over the applications of a genre. *)
Definition genre_total (f : app → nat) (apps : list app) (g : string) : nat :=
  sum_list_with f (filter (fun a => genre a = g) apps).

(** The invariant of the main loop of [calculate_metrics] that bounds each
    counter by its denominator; a CCOR or CCCR bucket that exists has been
    incremented. *)
Definition bounded (st : ConsistencyVisualization.loop_state) : Prop :=
  Forall percentage (ConsistencyVisualization.apps_occ st)
  ∧ (∀ g b, ConsistencyVisualization.genre_occ st !! g = Some b →
       (ConsistencyVisualization.occ_consistent b
        ≤ ConsistencyVisualization.occ_count b)%nat)
  ∧ (∀ g b, ConsistencyVisualization.ccor_data st !! g = Some b →
       (ConsistencyVisualization.ccor_missing b
        ≤ ConsistencyVisualization.ccor_total b)%nat
       ∧ (0 < ConsistencyVisualization.ccor_total b)%nat)
  ∧ (∀ g b, ConsistencyVisualization.cccr_data st !! g = Some b →
       (ConsistencyVisualization.cccr_conflict b
        ≤ ConsistencyVisualization.cccr_total b)%nat
       ∧ (0 < ConsistencyVisualization.cccr_total b)%nat)
  ∧ (ConsistencyVisualization.ica_count st
     ≤ ConsistencyVisualization.total_permissions st)%nat.

(** A category that enters the CCCR total of its genre: its grouping has
    three channels, channels 1 and 3 among them. *)
Definition cccr_counted (channels : gmap string Z) : Prop :=
  size channels = 3
  ∧ is_Some (channels !! ConsistencyVisualization.CH1)
  ∧ is_Some (channels !! ConsistencyVisualization.CH3).

(** A category that enters the CCCR conflict count: moreover channels 1
    and 3 report 1 and 0, in either order. *)
Definition cccr_conflicting (channels : gmap string Z) : Prop :=
  size channels = 3
  ∧ ((channels !! ConsistencyVisualization.CH1 = Some 1%Z
      ∧ channels !! ConsistencyVisualization.CH3 = Some 0%Z)
     ∨ (channels !! ConsistencyVisualization.CH1 = Some 0%Z
        ∧ channels !! ConsistencyVisualization.CH3 = Some 1%Z)).

#[global] Instance ccor_counted_decision channels : Decision (ccor_counted channels).
Proof. unfold ccor_counted. apply _. Defined.

#[global] Instance ccor_omitted_decision channels : Decision (ccor_omitted channels).
Proof. unfold ccor_omitted. apply _. Defined.

#[global] Instance cccr_counted_decision channels : Decision (cccr_counted channels).
Proof. unfold cccr_counted. apply _. Defined.

#[global] Instance cccr_conflicting_decision channels :
  Decision (cccr_conflicting channels).
Proof. unfold cccr_conflicting. apply _. Defined.

(** The number of categories of an application whose grouping satisfies
    [P]. *)
Definition count_categories (P : gmap string Z → Prop)
    `{!∀ channels, Decision (P channels)} (a : app) : nat :=
  size (filter (fun entry : string * gmap string Z => P entry.2)
               (PermissionVisualAnalysis.group_triples (app_triples a))).

(** The entry of a genre in a table of ratios: none without a counted
    category, else the part over the total, times 100. *)
Definition ratio_entry (part total : nat) : option Q :=
  if decide (total = 0) then None
  else Some (Py.of_nat part / Py.of_nat total * 100)%Q.

(** The value of a guarded ratio: 0 for an empty denominator, else the part
    over the total, times 100. *)
Definition ratio_value (part total : nat) : Q :=
  if decide (total = 0) then 0%Q
  else (Py.of_nat part / Py.of_nat total * 100)%Q.

(** A grouping of a category that counts as consistent: three channels
    whose statuses are equal and not -1. *)
Definition triple_consistent (channels : gmap string Z) : Prop :=
  size channels = 3 ∧ PermissionVisualAnalysis.agree channels = true.

#[global] Instance triple_consistent_decision channels :
  Decision (triple_consistent channels).
Proof. unfold triple_consistent. apply _. Defined.

(** The category [p] is among those of the application, respectively is a
    consistent category of the application. *)
Definition mentions (p : string) (a : app) : Prop :=
  is_Some (PermissionVisualAnalysis.group_triples (app_triples a) !! p).

Definition consistent_on (p : string) (a : app) : Prop :=
  ∃ channels,
    PermissionVisualAnalysis.group_triples (app_triples a) !! p = Some channels
    ∧ triple_consistent channels.

#[global] Instance consistent_on_decision p a : Decision (consistent_on p a).
Proof.
  unfold consistent_on.
  destruct (PermissionVisualAnalysis.group_triples (app_triples a) !! p)
    as [channels|].
  - destruct (decide (triple_consistent channels)) as [H|H].
    + left. by exists channels.
    + right. intros (? & [= <-] & ?). done.
  - right. by intros (? & ? & _).
Defined.

(** The number of the categories of an application. *)
Definition category_count (a : app) : nat :=
  size (PermissionVisualAnalysis.group_triples (app_triples a)).

(** The entry of an application in the list of per-application ratios:
    its name and the share of its consistent categories. *)
Definition app_ratio (a : app) : string * Q :=
  (app_name a,
   (Py.of_nat (count_categories triple_consistent a)
    / Py.of_nat (category_count a) * 100)%Q).

(** The application is the last one of the list that bears its name. *)
Definition last_of_its_name (apps : list app) (a : app) : Prop :=
  last (filter (fun b => app_name b = app_name a) apps) = Some a.

(** An application dictionary as the reader returns it: it has at least one
    triple and at least one of its keys, and its identifier and genre are
    set as soon as its name is. *)
Definition well_formed_dict (d : app_dict) : Prop :=
  d_triples d ≠ []
  ∧ nonempty_dict d = true
  ∧ (is_Some (d_app_name d) → is_Some (complete d)).

(** A string without surrounding white space: [s.strip() == s]. *)
Definition trimmed (s : string) : Prop := Py.strip s = s.

(** A field that is read back as it was written after the given prefix: it
    fits on a line, has no surrounding white space and does not contain the
    prefix. *)
Definition clean_field (prefix s : string) : Prop :=
  single_line s ∧ trimmed s ∧ Py.contains prefix s = false.

Definition clean_info (info : Generator.app_info) : Prop :=
  clean_field NAME_PREFIX (Generator.app_name info)
  ∧ clean_field ID_PREFIX (Generator.app_id info)
  ∧ clean_field GENRE_PREFIX (Generator.app_genre info).

Definition clean_record (app : Generator.app_data) : Prop :=
  clean_info (Generator.info_of app).

(** The dictionary that the reader builds for a written block. *)
Definition dict_of_block (block : Generator.app_info * list Generator.triple)
    : app_dict :=
  {| d_app_name := Some (Generator.app_name block.1);
     d_app_id := Some (Generator.app_id block.1);
     d_genre := Some (Generator.app_genre block.1);
     d_triples := as_triple <$> block.2 |}.

(** The application that the analyses receive for a written block. *)
Definition app_of_block (block : Generator.app_info * list Generator.triple)
    : app :=
  {| app_name := Generator.app_name block.1;
     app_id := Generator.app_id block.1;
     genre := Generator.app_genre block.1;
     app_triples := as_triple <$> block.2 |}.

(** The block written for a record whose key no other record shares. *)
Definition block_of_record (app : Generator.app_data)
    : Generator.app_info * list Generator.triple :=
  (Generator.info_of app,
   (fun r : Generator.result => (r.1.1.2, r.1.2, r.2))
     <$> Generator.analyze_permissions app).

(** The (category, channel) pairs of the triples of a record. *)
Definition all_pairs : list (string * string) :=
  ch ← Generator.CHANNELS.*2;
  (fun cat => (cat, ch)) <$> Generator.PERMISSION_CATEGORIES.

(** The number of occurrences of an element in a list. *)
Definition occurrences {A} `{EqDecision A} (x : A) (l : list A) : nat :=
  length (filter (fun y => y = x) l).

(** The tally of a list: its distinct elements with their numbers of
    occurrences, in the order of their first occurrence. *)
Definition tally {A} `{EqDecision A} (l : list A) : list (A * nat) :=
  (fun x => (x, occurrences x l)) <$> first_occurrences l.

(** The categories of the triples of channel one with status 1, in the
    order of the file, with repetitions. *)
Definition collected_categories (apps : list app) : list string :=
  permission
    <$> filter (fun t => PermissionVisualAnalysis.collected t = true)
               (apps ≫= app_triples).

(** The items come by decreasing count. *)
Definition by_decreasing_count {K} (x y : K * nat) : Prop := (y.2 ≤ x.2)%nat.

(** The categories of sensitivity 4 or 5. *)
Definition sensitive_categories : list string :=
  [ "Location"; "Contacts"; "Phone"; "SMS"; "Storage"; "Camera"; "Microphone" ].

(** The row of the heat map for a category, from the collected categories
    and the largest count. *)
Definition heatmap_row_of (items : list string) (max_freq : nat)
    (entry : string * nat) : PermissionVisualAnalysis.heatmap_row :=
  {| PermissionVisualAnalysis.hm_permission := entry.1;
     PermissionVisualAnalysis.hm_frequency := occurrences entry.1 items;
     PermissionVisualAnalysis.hm_sensitivity := entry.2;
     PermissionVisualAnalysis.hm_normalized_freq :=
       (Py.of_nat (occurrences entry.1 items) / Py.of_nat max_freq)%Q |}.

(** The applications of a genre, in the order of the file. *)
Definition genre_members (g : string) (apps : list app) : list app :=
  filter (fun a => genre a = g) apps.

(** The genres of the radar chart: the [n] first genres when the genres are
    taken by decreasing number of applications, genres with equally many
    applications in the order of their first application. *)
Definition top_genres (n : nat) (apps : list app) : list string :=
  take n (PermissionVisualAnalysis.sorted_desc
            (fun g => length (genre_members g apps))
            (first_occurrences (genre <$> apps))).

(** The row of the radar chart for a genre and a category. *)
Definition radar_row_of (apps : list app) (g : string) (entry : string * nat)
    : PermissionVisualAnalysis.radar_row :=
  {| PermissionVisualAnalysis.rd_genre := g;
     PermissionVisualAnalysis.rd_permission := entry.1;
     PermissionVisualAnalysis.rd_usage_ratio :=
       (Py.of_nat (occurrences entry.1
                     (collected_categories (genre_members g apps)))
        / Py.of_nat (length (genre_members g apps)) * 100)%Q |}.







End Spec.

(** ** Concrete inputs used by the examples *)

Module Inputs.
Import TripleReader.

(** A file without header whose first line is the name line of an
    application called "Maps, Navigation". *)
Definition headerless_file : string :=
  "应用名称: Maps, Navigation" +:+ Generator.NL
  +:+ "应用ID: com.maps" +:+ Generator.NL
  +:+ "应用类别: Travel" +:+ Generator.NL
  +:+ "权限三元组:" +:+ Generator.NL
  +:+ "渠道一,Location,1" +:+ Generator.NL.

(** An application whose first channel lists two raw items of the Phone
    category. *)
Definition phone_app : Generator.app_data :=
  {| Generator.name := Some "Dialer";
     Generator._id := Some "com.dialer";
     Generator.genre := Some "Tools";
     Generator.fields :=
       {[ "data_collected" := Generator.FList ["IMEI"; "Phone Number"] ]} |}.

(** An application with a single triple, flagged -1. *)
Definition flagged_app : app :=
  {| app_name := "Dialer"; app_id := "com.dialer"; genre := "Tools";
     app_triples := [ {| channel := "渠道一"; permission := "Phone";
                         status := (-1)%Z |} ] |}.

(** An application whose three channels all report 1 for Camera, and whose
    first channel alone mentions Location. *)
Definition camera_app : app :=
  {| app_name := "Lens"; app_id := "com.lens"; genre := "Photography";
     app_triples :=
       [ {| channel := "渠道一"; permission := "Camera"; status := 1 |};
         {| channel := "渠道二"; permission := "Camera"; status := 1 |};
         {| channel := "渠道三"; permission := "Camera"; status := 1 |};
         {| channel := "渠道一"; permission := "Location"; status := 1 |} ] |}.

(** An application with the single category Camera, consistent on the three
    channels. *)
Definition single_camera_app : app :=
  {| app_name := "Shutter"; app_id := "com.shutter"; genre := "Photography";
     app_triples :=
       [ {| channel := "渠道一"; permission := "Camera"; status := 1 |};
         {| channel := "渠道二"; permission := "Camera"; status := 1 |};
         {| channel := "渠道三"; permission := "Camera"; status := 1 |} ] |}.

(** Two applications with different numbers of categories: OCC 50 (one of
    two categories) and OCC 100 (one of one). *)
Definition uneven_apps : list app := [camera_app; single_camera_app].

(** Location with entries on channel 1 (present) and channel 2 (absent)
    only, as the reader returns when the third line was malformed. *)
Definition two_channel_app : app :=
  {| app_name := "Maps"; app_id := "com.maps"; genre := "Navigation";
     app_triples :=
       [ {| channel := "渠道一"; permission := "Location"; status := 1 |};
         {| channel := "渠道二"; permission := "Location"; status := 0 |} ] |}.

(** The same with an entry on channel 3. *)
Definition three_channel_app : app :=
  {| app_name := "Maps"; app_id := "com.maps"; genre := "Navigation";
     app_triples :=
       [ {| channel := "渠道一"; permission := "Location"; status := 1 |};
         {| channel := "渠道二"; permission := "Location"; status := 0 |};
         {| channel := "渠道三"; permission := "Location"; status := 1 |} ] |}.

Definition tool (name id category : string) : app :=
  {| app_name := name; app_id := id; genre := "Tools";
     app_triples :=
       [ {| channel := "渠道一"; permission := category; status := 1 |} ] |}.

(** Five applications of one genre, two of which share their display name
    (with different identifiers). *)
Definition duplicate_name_apps : list app :=
  [ tool "Scanner" "com.a.scanner" "Camera";
    tool "Scanner" "com.b.scanner" "Location";
    tool "Compass" "com.compass" "Location";
    tool "Weather" "com.weather" "Location";
    tool "Tracker" "com.tracker" "Location" ].

(** A record whose genre contains a line feed followed by the text of a
    triple line. *)
Definition injecting_app : Generator.app_data :=
  {| Generator.name := Some "Dialer";
     Generator._id := Some "com.dialer";
     Generator.genre := Some ("Tools" +:+ Generator.NL +:+ "渠道一,Phone,1");
     Generator.fields := ∅ |}.

End Inputs.

(** ** Tactics *)

(** [evaluate_line] proves an equation on [process_line st raw] for a closed
    line [raw] and any state [st]: the stripped line is computed, then the
    tests of the loop body are. *)
Ltac evaluate_line :=
  unfold TripleReader.process_line;
  match goal with
  | |- context [Py.strip ?raw] =>
      let v := eval vm_compute in (Py.strip raw) in
      change (Py.strip raw) with v
  end;
  cbv zeta; simpl; reflexivity.

(** * Properties *)

(** ** Arithmetic of the ratios *)

Section Ratios.

Lemma of_nat_nonzero (n : nat) : 0 < n → Qeq_bool (Py.of_nat n) 0 = false.
Proof.
  intros Hn. unfold Py.of_nat, Qeq_bool, inject_Z. simpl.
  destruct n as [|n]; [lia|]. reflexivity.
Qed.

Lemma truediv_of_nat (x : Q) (n : nat) :
  0 < n → Py.truediv x (Py.of_nat n) = Some (x / Py.of_nat n)%Q.
Proof. intros Hn. unfold Py.truediv. by rewrite of_nat_nonzero. Qed.

Lemma cv_percent_pos (x y : nat) :
  0 < y →
  ConsistencyVisualization.percent x y
  = Some (Py.of_nat x / Py.of_nat y * 100)%Q.
Proof.
  intros Hy. unfold ConsistencyVisualization.percent.
  by rewrite truediv_of_nat.
Qed.

Lemma pva_percent_pos (x y : nat) :
  0 < y →
  PermissionVisualAnalysis.percent x y
  = Some (Py.of_nat x / Py.of_nat y * 100)%Q.
Proof.
  intros Hy. unfold PermissionVisualAnalysis.percent.
  by rewrite truediv_of_nat.
Qed.

(** A guarded ratio never fails. *)
Lemma guarded_percent_total (x y : nat) :
  is_Some (if Nat.ltb 0 y then ConsistencyVisualization.percent x y else Some 0%Q).
Proof.
  destruct (Nat.ltb_spec 0 y); [|done].
  rewrite cv_percent_pos by done. done.
Qed.

Lemma pva_guarded_percent_total (x y : nat) :
  is_Some (if Nat.ltb 0 y then PermissionVisualAnalysis.percent x y else Some 0%Q).
Proof.
  destruct (Nat.ltb_spec 0 y); [|done].
  rewrite pva_percent_pos by done. done.
Qed.

End Ratios.

(** ** The metric functions never fail *)

Section Totality.
Import TripleReader ConsistencyVisualization.

Lemma process_app_total (st : loop_state) (a : app) :
  ∃ st', process_app st a = Some st' ∧ is_Some (permission_channels st').
Proof.
  unfold process_app.
  destruct (foldl _ _ (app_triples a)) as [[[pc ica] by_genre] total].
  destruct (Nat.ltb_spec 0 (size pc)) as [Hpos|Hle].
  - rewrite cv_percent_pos by done. simpl. eexists; split; [done|]. simpl. done.
  - eexists; split; [done|]. simpl. done.
Qed.

Lemma main_loop_snoc (apps : list app) (a : app) :
  main_loop (apps ++ [a]) = main_loop apps ≫= fun st => process_app st a.
Proof. unfold main_loop. by rewrite foldl_snoc. Qed.

Lemma main_loop_total (apps : list app) :
  ∃ st, main_loop apps = Some st
        ∧ (apps = [] ∨ is_Some (permission_channels st)).
Proof.
  induction apps as [|a apps IH] using rev_ind.
  - exists loop_init. split; [done|by left].
  - destruct IH as (st & Hst & _).
    destruct (process_app_total st a) as (st' & Hst' & Hpc).
    exists st'. rewrite main_loop_snoc, Hst. simpl. split; [done|by right].
Qed.

Lemma main_loop_nil_occ : apps_occ loop_init = [].
Proof. done. Qed.

Lemma trend_step_total (pc : grouping) (acc : list Q * Z * nat) (app_occ : Q) :
  is_Some (trend_step (Some pc) (Some acc) app_occ).
Proof.
  destruct acc as [[trend cc] ct]. unfold trend_step. simpl.
  unfold Py.truediv at 1. simpl.
  destruct (Nat.ltb_spec 0 (ct + size pc)) as [Hpos|Hle]; simpl.
  - rewrite of_nat_nonzero by done. simpl. done.
  - done.
Qed.

Lemma trend_fold_total (pc : grouping) (occs : list Q) (acc : list Q * Z * nat) :
  is_Some (foldl (trend_step (Some pc)) (Some acc) occs).
Proof.
  revert acc. induction occs as [|o occs IH]; intros acc; [by simpl|].
  cbn [foldl]. destruct (trend_step_total pc acc o) as [acc' ->]. apply IH.
Qed.

Lemma per_genre_total {A} (f : A → option Q) (d : gmap string A) :
  (∀ x, is_Some (f x)) → is_Some (per_genre f d).
Proof.
  intros Hf. unfold per_genre.
  apply fmap_is_Some, mapM_is_Some_2, Forall_forall.
  intros [g data] _. simpl. apply fmap_is_Some, Hf.
Qed.

Lemma genre_occ_ratio_total data : is_Some (genre_occ_ratio data).
Proof. apply guarded_percent_total. Qed.

Lemma ccor_ratio_total data : is_Some (ccor_ratio data).
Proof. apply guarded_percent_total. Qed.

Lemma cccr_ratio_total data : is_Some (cccr_ratio data).
Proof. apply guarded_percent_total. Qed.

Lemma ica_ratio_total ica total : is_Some (ica_ratio_of ica total).
Proof. apply guarded_percent_total. Qed.

(** No application loaded before the first iteration means no OCC value to
    average, so the unbound [permission_channels] is never read. *)
Lemma apps_occ_needs_app (apps : list app) (st : loop_state) :
  main_loop apps = Some st → apps = [] → apps_occ st = [].
Proof. intros Hst ->. by injection Hst as <-. Qed.

Lemma overall_occ_trend_total (apps : list app) (st : loop_state) :
  main_loop apps = Some st → is_Some (overall_occ_trend_of st).
Proof.
  intros Hst. destruct (main_loop_total apps) as (st0 & Hst0 & Hpc).
  rewrite Hst in Hst0. injection Hst0 as <-.
  unfold overall_occ_trend_of.
  destruct Hpc as [Hnil|[pc Hpc]].
  - rewrite (apps_occ_needs_app apps st Hst Hnil). simpl. done.
  - rewrite Hpc.
    destruct (trend_fold_total pc (apps_occ st) ([], 0%Z, 0)) as [[[t c] n] ->].
    simpl. done.
Qed.

Lemma calculate_metrics_total (apps : list app) :
  ∃ st m, main_loop apps = Some st ∧ calculate_metrics apps = Some m
          ∧ ica_ratio_of (ica_count st) (total_permissions st) = Some (ica_ratio m)
          ∧ per_genre ccor_ratio (ccor_data st) = Some (ccor m)
          ∧ overall_occ_trend_of st = Some (overall_occ_trend m).
Proof.
  destruct (main_loop_total apps) as (st & Hst & _).
  destruct (overall_occ_trend_total apps st Hst) as [trend Htrend].
  destruct (per_genre_total genre_occ_ratio (genre_occ st) genre_occ_ratio_total)
    as [r1 H1].
  destruct (per_genre_total ccor_ratio (ccor_data st) ccor_ratio_total) as [r2 H2].
  destruct (per_genre_total cccr_ratio (cccr_data st) cccr_ratio_total) as [r3 H3].
  destruct (ica_ratio_total (ica_count st) (total_permissions st)) as [r4 H4].
  eexists st, _. split; [done|].
  unfold calculate_metrics. rewrite Hst. simpl.
  rewrite Htrend. simpl. rewrite H1. simpl. rewrite H2. simpl.
  rewrite H3. simpl. rewrite H4. simpl. done.
Qed.

End Totality.

Section TotalityAnalysis.
Import TripleReader PermissionVisualAnalysis.

Lemma dangerous_ratio_total d c : is_Some (dangerous_ratio_of d c).
Proof. apply pva_guarded_percent_total. Qed.

Lemma analyze_dangerous_permissions_total (apps : list app) :
  is_Some (analyze_dangerous_permissions apps).
Proof.
  unfold analyze_dangerous_permissions.
  destruct (foldl _ _ apps) as [d c].
  destruct (dangerous_ratio_total d c) as [r ->]. simpl. done.
Qed.

Lemma consistency_step_total acc (a : app) :
  is_Some (consistency_step (Some acc) a).
Proof.
  destruct acc as [[[cc total] by_permission] per_app].
  unfold consistency_step. simpl.
  destruct (map_fold _ _ _) as [[[[cc' total'] by'] ac] at'].
  destruct (Nat.ltb_spec 0 at') as [Hpos|Hle]; [|done].
  rewrite pva_percent_pos by done. simpl. done.
Qed.

Lemma consistency_fold_total (apps : list app) acc :
  is_Some (foldl consistency_step (Some acc) apps).
Proof.
  revert acc. induction apps as [|a apps IH]; intros acc; [by simpl|].
  cbn [foldl]. destruct (consistency_step_total acc a) as [acc' ->]. apply IH.
Qed.

Lemma bucket_ratio_total data : is_Some (bucket_ratio data).
Proof.
  unfold bucket_ratio.
  destruct (pva_guarded_percent_total (pc_consistent data) (pc_total data))
    as [r ->]. simpl. done.
Qed.

Lemma triple_consistency_ratio_total c t :
  is_Some (triple_consistency_ratio_of c t).
Proof. apply pva_guarded_percent_total. Qed.

Lemma analyze_channel_consistency_total (apps : list app) :
  is_Some (analyze_channel_consistency apps).
Proof.
  unfold analyze_channel_consistency.
  destruct (consistency_fold_total apps (0, 0, ∅, []))
    as [[[[cc total] by_permission] per_app] ->]. simpl.
  destruct (triple_consistency_ratio_total cc total) as [r ->]. simpl.
  assert (is_Some (mapM (fun '(p, data) => pair p <$> bucket_ratio data)
                        (map_to_list by_permission))) as [l ->].
  { apply mapM_is_Some_2, Forall_forall. intros [p data] _. simpl.
    apply fmap_is_Some, bucket_ratio_total. }
  simpl. done.
Qed.

End TotalityAnalysis.

(** ** Zero denominators (C8) *)

Section ZeroDenominators.
Import TripleReader.

(** C8.  Every ratio of the two analysis scripts is guarded: with a zero
    denominator count it evaluates to 0 without dividing, for the genre-level
    OCC, CCOR and CCCR, the ICA ratio, the dangerous-permission ratio and the
    triple-channel consistency ratio; and the three functions that compute
    them return a result on every input, so that no division by zero is ever
    raised. *)
Theorem zero_denominator_yields_zero :
  (∀ data, ConsistencyVisualization.occ_count data = 0 →
           ConsistencyVisualization.genre_occ_ratio data = Some 0%Q)
  ∧ (∀ data, ConsistencyVisualization.ccor_total data = 0 →
             ConsistencyVisualization.ccor_ratio data = Some 0%Q)
  ∧ (∀ data, ConsistencyVisualization.cccr_total data = 0 →
             ConsistencyVisualization.cccr_ratio data = Some 0%Q)
  ∧ (∀ ica total, total = 0 →
                  ConsistencyVisualization.ica_ratio_of ica total = Some 0%Q)
  ∧ (∀ dangerous total, total = 0 →
       PermissionVisualAnalysis.dangerous_ratio_of dangerous total = Some 0%Q)
  ∧ (∀ consistent total, total = 0 →
       PermissionVisualAnalysis.triple_consistency_ratio_of consistent total
       = Some 0%Q)
  ∧ (∀ apps, is_Some (ConsistencyVisualization.calculate_metrics apps))
  ∧ (∀ apps, is_Some (PermissionVisualAnalysis.analyze_dangerous_permissions apps))
  ∧ (∀ apps, is_Some (PermissionVisualAnalysis.analyze_channel_consistency apps)).
Proof.
  split_and!.
  - intros data H. unfold ConsistencyVisualization.genre_occ_ratio. by rewrite H.
  - intros data H. unfold ConsistencyVisualization.ccor_ratio. by rewrite H.
  - intros data H. unfold ConsistencyVisualization.cccr_ratio. by rewrite H.
  - by intros ica total ->.
  - by intros dangerous total ->.
  - by intros consistent total ->.
  - intros apps. destruct (calculate_metrics_total apps) as (st & m & _ & -> & _).
    done.
  - apply analyze_dangerous_permissions_total.
  - apply analyze_channel_consistency_total.
Qed.

(** The six ratios at buckets without data, and the three functions on the
    empty list of applications. *)
Lemma zero_denominator_yields_zero_witness :
  ConsistencyVisualization.genre_occ_ratio ConsistencyVisualization.occ_zero
  = Some 0%Q
  ∧ ConsistencyVisualization.ccor_ratio ConsistencyVisualization.ccor_zero
    = Some 0%Q
  ∧ ConsistencyVisualization.cccr_ratio ConsistencyVisualization.cccr_zero
    = Some 0%Q
  ∧ ConsistencyVisualization.ica_ratio_of 0 0 = Some 0%Q
  ∧ PermissionVisualAnalysis.dangerous_ratio_of 0 0 = Some 0%Q
  ∧ PermissionVisualAnalysis.triple_consistency_ratio_of 0 0 = Some 0%Q.
Proof.
  destruct zero_denominator_yields_zero
    as (Hocc & Hccor & Hcccr & Hica & Hdanger & Htriple & _).
  split_and!.
  - apply Hocc. reflexivity.
  - apply Hccor. reflexivity.
  - apply Hcccr. reflexivity.
  - apply Hica. reflexivity.
  - apply Hdanger. reflexivity.
  - apply Htriple. reflexivity.
Defined.

End ZeroDenominators.

(** ** The header test of the readers (C10) *)

Section HeaderLine.
Import TripleReader Inputs.

(** C10.  Both readers drop the first line of the file whenever it contains a
    comma: the applications they return are those parsed from the remaining
    lines alone, whatever the first line was. *)
Theorem first_line_with_comma_is_dropped
    (content first : string) (rest : list string) :
  Py.readlines content = first :: rest →
  Py.contains_char ","%char first = true →
  ConsistencyVisualization.load_triple_data content = parse_lines rest
  ∧ PermissionVisualAnalysis.load_triple_data content = parse_lines rest.
Proof.
  intros Hlines Hcomma.
  unfold ConsistencyVisualization.load_triple_data,
    PermissionVisualAnalysis.load_triple_data.
  rewrite Hlines. unfold skip_header. rewrite Hcomma. done.
Qed.

Lemma first_line_with_comma_is_dropped_witness :
  ConsistencyVisualization.load_triple_data headerless_file
  = parse_lines
      [ "应用ID: com.maps" +:+ Generator.NL;
        "应用类别: Travel" +:+ Generator.NL;
        "权限三元组:" +:+ Generator.NL;
        "渠道一,Location,1" +:+ Generator.NL ]
  ∧ PermissionVisualAnalysis.load_triple_data headerless_file
    = parse_lines
        [ "应用ID: com.maps" +:+ Generator.NL;
          "应用类别: Travel" +:+ Generator.NL;
          "权限三元组:" +:+ Generator.NL;
          "渠道一,Location,1" +:+ Generator.NL ].
Proof.
  apply (first_line_with_comma_is_dropped headerless_file
           ("应用名称: Maps, Navigation" +:+ Generator.NL)).
  - vm_compute. reflexivity.
  - vm_compute. reflexivity.
Defined.

(** The name line is not parsed: the application comes back without its
    ['app_name'] key. *)
Example headerless_file_loses_name :
  ConsistencyVisualization.load_triple_data headerless_file
  = [ {| d_app_name := None;
         d_app_id := Some "com.maps";
         d_genre := Some "Travel";
         d_triples := [ {| channel := "渠道一"; permission := "Location";
                           status := 1 |} ] |} ].
Proof. vm_compute. reflexivity. Qed.

(** A first triple line is lost in the same way. *)
Example first_triple_line_is_lost :
  PermissionVisualAnalysis.load_triple_data
    ("渠道一,Location,1" +:+ Generator.NL
     +:+ "应用名称: Maps" +:+ Generator.NL
     +:+ "渠道一,Camera,1" +:+ Generator.NL)
  = [ {| d_app_name := Some "Maps";
         d_app_id := Some "";
         d_genre := Some "";
         d_triples := [ {| channel := "渠道一"; permission := "Camera";
                           status := 1 |} ] |} ].
Proof. vm_compute. reflexivity. Qed.

End HeaderLine.

(** ** The generator: statuses of a list-valued channel *)

Section ListChannel.
Import Generator Spec.

Lemma marked_init : marked init_state ∅.
Proof.
  intros cat. split.
  - intros H. apply elem_of_list_to_map_2, list_elem_of_fmap in H.
    destruct H as (c & Hc & _). congruence.
  - rewrite decide_False by set_solver.
    destruct (permission_status init_state !! cat) as [z|] eqn:E; [|done].
    apply elem_of_list_to_map_2, list_elem_of_fmap in E.
    destruct E as (c & Hc & _). simpl. congruence.
Qed.

Lemma marked_ext st seen seen' :
  seen = seen' → marked st seen → marked st seen'.
Proof. by intros ->. Qed.

Lemma mark_category_marked st seen category :
  marked st seen → marked (mark_category st category) (seen ∪ {[ category ]}).
Proof.
  intros Hst. unfold mark_category.
  destruct (Hst category) as [_ Hcat]. rewrite Hcat.
  destruct (decide (category ∈ seen)) as [Hin|Hout]; simpl.
  - intros cat. destruct (Hst cat) as [Hc Hs]. split; [done|].
    rewrite Hs. repeat case_decide; set_solver.
  - intros cat. destruct (Hst cat) as [Hc Hs]. split; [done|]. simpl.
    destruct (decide (cat = category)) as [->|Hne].
    + rewrite lookup_insert_eq. simpl. rewrite decide_True by set_solver. done.
    + rewrite lookup_insert_ne by done. rewrite Hs.
      repeat case_decide; set_solver.
Qed.

Lemma mark_categories_marked (cats : list string) st seen :
  marked st seen → marked (foldl mark_category st cats) (seen ∪ list_to_set cats).
Proof.
  revert st seen. induction cats as [|c cats IH]; intros st seen Hst; simpl.
  - eapply marked_ext; [|done]. set_solver.
  - eapply marked_ext; [|apply IH, mark_category_marked, Hst]. set_solver.
Qed.

Lemma mark_item_marked st seen item :
  marked st seen → marked (mark_item st item) (seen ∪ _map_single_item item).
Proof.
  intros Hst. unfold mark_item.
  eapply marked_ext; [|apply mark_categories_marked, Hst].
  by rewrite list_to_set_elements_L.
Qed.

Lemma mark_items_marked (items : list string) st seen :
  marked st seen →
  marked (foldl mark_item st items)
         (foldl (fun permissions item => permissions ∪ _map_single_item item)
                seen items).
Proof.
  revert st seen. induction items as [|item items IH]; intros st seen Hst; simpl.
  - done.
  - apply IH, mark_item_marked, Hst.
Qed.

(** The status emitted for a category of a list-valued channel: 1 when some
    raw item maps to the category, 0 otherwise; never -1. *)
Lemma final_status_list (items : list string) (cat : string) :
  final_status (foldl mark_item init_state items) cat
  = if decide (cat ∈ map_to_permissions items) then 1%Z else 0%Z.
Proof.
  destruct (mark_items_marked items init_state ∅ marked_init cat) as [Hc Hs].
  unfold final_status, map_to_permissions.
  destruct (has_conflict _ !! cat) as [[]|]; simpl; done.
Qed.

Lemma elem_of_map_to_permissions (items : list string) (cat : string) :
  cat ∈ map_to_permissions items ↔ ∃ item, item ∈ items ∧ cat ∈ _map_single_item item.
Proof.
  unfold map_to_permissions.
  assert (∀ seen : gset string,
    cat ∈ foldl (fun permissions item => permissions ∪ _map_single_item item)
                seen items
    ↔ cat ∈ seen ∨ ∃ item, item ∈ items ∧ cat ∈ _map_single_item item) as H.
  { induction items as [|i items IH]; intros seen; simpl.
    - split; [by left|]. intros [?|(item & Hin & _)]; [done|].
      by apply elem_of_nil in Hin.
    - rewrite IH. split.
      + intros [[?|?]%elem_of_union|(item & ? & ?)]; [by left| |].
        * right. exists i. split; [left|done].
        * right. exists item. split; [by right|done].
      + intros [?|(item & [->|?]%elem_of_cons & ?)].
        * left. set_solver.
        * left. set_solver.
        * right. exists item. split; assumption. }
  rewrite H. split; [|by right]. intros [?|?]; [set_solver|done].
Qed.

End ListChannel.

(** ** The generator: the 3 x 9 matrix (C6) and its statuses (C1) *)

Section Matrix.
Import Generator Spec Inputs.

Lemma NoDup_PERMISSION_CATEGORIES : NoDup PERMISSION_CATEGORIES.
Proof. apply (bool_decide_unpack _). vm_compute. reflexivity. Qed.

Lemma REVERSE_MAPPING_categories :
  map_Forall (fun _ perms => Forall (.∈ PERMISSION_CATEGORIES) perms) REVERSE_MAPPING.
Proof. apply (bool_decide_unpack _). vm_compute. reflexivity. Qed.

(** [_map_single_item] only returns categories of the fixed set. *)
Lemma map_single_item_categories (item cat : string) :
  cat ∈ _map_single_item item → cat ∈ PERMISSION_CATEGORIES.
Proof.
  unfold _map_single_item.
  destruct (REVERSE_MAPPING !! item) as [perms|] eqn:E.
  - intros Hin%elem_of_list_to_set.
    pose proof (REVERSE_MAPPING_categories item perms E) as Hall.
    by eapply Forall_forall in Hall.
  - clear E. destruct (String.eqb _ _); [by intros ?%elem_of_empty|].
    destruct (_ || _); [|by intros ?%elem_of_empty].
    intros ->%elem_of_singleton.
    apply (bool_decide_unpack _). vm_compute. reflexivity.
Qed.

(** The categories of a set, listed in the order of the fixed list. *)
Lemma categories_listed (X : gset string) :
  (∀ cat, cat ∈ X → cat ∈ PERMISSION_CATEGORIES) →
  elements X ≡ₚ filter (.∈ X) PERMISSION_CATEGORIES.
Proof.
  intros Hsub. apply NoDup_Permutation.
  - apply NoDup_elements.
  - apply NoDup_filter, NoDup_PERMISSION_CATEGORIES.
  - intros cat. rewrite elem_of_elements, list_elem_of_filter. naive_solver.
Qed.

Lemma perm_of_eq {A} (l k : list A) : l = k → l ≡ₚ k.
Proof. by intros ->. Qed.

Lemma map_to_permissions_singleton (item : string) :
  map_to_permissions [item] = _map_single_item item.
Proof. unfold map_to_permissions. simpl. set_solver. Qed.

(** Each channel contributes the nine expected triples; only the scalar
    branch may list them in another order. *)
Lemma channel_results_expected (app : app_data) (field ch : string) :
  channel_results (info_of app) app (field, ch)
  ≡ₚ (fun cat => (info_of app, ch, cat, expected_status app field cat))
       <$> PERMISSION_CATEGORIES.
Proof.
  unfold channel_results, expected_status, raw_items.
  destruct (fields app !! field) as [[items|str_value]|].
  - apply perm_of_eq, list_fmap_ext. intros _ cat _.
    by rewrite final_status_list.
  - rewrite map_to_permissions_singleton.
    set (X := _map_single_item str_value).
    match goal with
    | |- _ ≡ₚ ?f <$> _ =>
        trans (f <$> (filter (.∈ X) PERMISSION_CATEGORIES
                      ++ filter (fun cat => cat ∉ X) PERMISSION_CATEGORIES));
        [|by rewrite filter_app_complement]
    end.
    rewrite fmap_app. apply Permutation_app.
    + rewrite (categories_listed X) by apply map_single_item_categories.
      apply perm_of_eq, list_fmap_ext. intros _ cat Hcat%list_elem_of_lookup_2.
      apply list_elem_of_filter in Hcat as [Hcat _]. by rewrite decide_True.
    + apply perm_of_eq, list_fmap_ext. intros _ cat Hcat%list_elem_of_lookup_2.
      apply list_elem_of_filter in Hcat as [Hcat _]. by rewrite decide_False.
  - apply perm_of_eq, list_fmap_ext. intros _ cat _.
    rewrite decide_False; [done|]. unfold map_to_permissions. set_solver.
Qed.

(** The generator emits the fixed matrix, up to the order of the triples of
    a scalar channel. *)
Lemma analyze_permissions_expected (app : app_data) :
  analyze_permissions app ≡ₚ expected_results app.
Proof.
  unfold analyze_permissions, expected_results.
  induction CHANNELS as [|[field ch] channels IH]; [done|].
  rewrite !bind_cons. apply Permutation_app; [|apply IH].
  apply channel_results_expected.
Qed.

Lemma expected_results_length (app : app_data) :
  length (expected_results app) = 27.
Proof. reflexivity. Qed.

(** In a matrix with arbitrary statuses [g], the entry of a channel and a
    category is found exactly once. *)
Lemma matrix_entry (info : app_info) (g : string → string → Z)
    (field ch cat : string) :
  (field, ch) ∈ CHANNELS → cat ∈ PERMISSION_CATEGORIES →
  statuses_for
    ('(field, ch) ← CHANNELS;
     (fun cat => (info, ch, cat, g field cat)) <$> PERMISSION_CATEGORIES)
    ch cat
  = [g field cat].
Proof.
  intros Hch Hcat.
  unfold CHANNELS in Hch. unfold PERMISSION_CATEGORIES, PERMISSION_MAPPING in Hcat.
  simpl in Hcat.
  repeat (apply elem_of_cons in Hch as [Hch|Hch];
          [injection Hch as -> ->|]); [| | |by apply elem_of_nil in Hch];
  repeat (apply elem_of_cons in Hcat as [->|Hcat]);
  try (by apply elem_of_nil in Hcat); vm_compute; reflexivity.
Qed.

Lemma statuses_for_perm (rs rs' : list result) (ch cat : string) :
  rs ≡ₚ rs' → statuses_for rs ch cat ≡ₚ statuses_for rs' ch cat.
Proof. intros H. unfold statuses_for. by rewrite H. Qed.

Lemma expected_status_default (app : app_data) (field cat : string) :
  (∀ item, item ∈ raw_items app field → cat ∉ _map_single_item item) →
  expected_status app field cat = 0%Z.
Proof.
  intros Hnone. unfold expected_status. rewrite decide_False; [done|].
  rewrite elem_of_map_to_permissions. intros (item & Hin & Hcat).
  by apply (Hnone item).
Qed.

(** C6.  For every application record the generator emits 27 triples, and
    for each of the three channels and each of the nine categories exactly
    one status, which is 0 when no raw item of the channel maps to the
    category. *)
Theorem one_status_per_channel_and_category (app : app_data) :
  length (analyze_permissions app) = 27
  ∧ ∀ field ch cat,
      (field, ch) ∈ CHANNELS → cat ∈ PERMISSION_CATEGORIES →
      ∃ s, statuses_for (analyze_permissions app) ch cat = [s]
           ∧ ((∀ item, item ∈ raw_items app field →
                       cat ∉ _map_single_item item) → s = 0%Z).
Proof.
  split.
  - rewrite (Permutation_length (analyze_permissions_expected app)).
    apply expected_results_length.
  - intros field ch cat Hch Hcat.
    exists (expected_status app field cat). split.
    + apply Permutation_singleton_r.
      rewrite (statuses_for_perm _ _ ch cat (analyze_permissions_expected app)).
      unfold expected_results.
      by rewrite (matrix_entry (info_of app) (expected_status app) field ch cat).
    + apply expected_status_default.
Qed.

(** The entry of the first channel and the Camera category of
    [phone_app], none of whose raw items maps to Camera. *)
Lemma one_status_per_channel_and_category_witness :
  length (analyze_permissions phone_app) = 27
  ∧ ∃ s, statuses_for (analyze_permissions phone_app) "渠道一" "Camera" = [s]
         ∧ s = 0%Z.
Proof.
  destruct (one_status_per_channel_and_category phone_app) as [Hlen Hone].
  split; [exact Hlen|].
  destruct (Hone "data_collected" "渠道一" "Camera") as (s & Hs & Hdefault).
  - apply (bool_decide_unpack _). vm_compute. reflexivity.
  - apply (bool_decide_unpack _). vm_compute. reflexivity.
  - exists s. split; [exact Hs|]. apply Hdefault.
    apply Forall_forall. apply (bool_decide_unpack _). vm_compute. reflexivity.
Defined.






End Matrix.

(** ** Grouping the triples of an application by category and channel *)

Section Grouping.
Import TripleReader Spec.
Import PermissionVisualAnalysis (group_triples).

Lemma entry_snoc (seen : list triple) (t : triple) (p c : string) :
  entry (seen ++ [t]) p c
  = if decide (permission t = p ∧ channel t = c) then Some (status t)
    else entry seen p c.
Proof.
  unfold entry. rewrite filter_app, filter_cons, filter_nil.
  case_decide.
  - by rewrite last_snoc.
  - by rewrite app_nil_r.
Qed.

Lemma entry_is_Some (ts : list triple) (p c : string) :
  is_Some (entry ts p c) ↔ c ∈ channels_of ts p.
Proof.
  unfold entry, channels_of.
  rewrite fmap_is_Some, last_is_Some, elem_of_list_to_set, list_elem_of_fmap.
  split.
  - intros Hne.
    destruct (filter _ ts) as [|t l] eqn:E; [done|].
    assert (t ∈ filter (fun t => permission t = p ∧ channel t = c) ts) as Ht
      by (rewrite E; left).
    apply list_elem_of_filter in Ht as [[Hp Hc] Hin].
    exists t. split; [done|]. by apply list_elem_of_filter.
  - intros (t & -> & [Hp Hin]%list_elem_of_filter) Hnil.
    assert (t ∈ filter (fun t' => permission t' = p ∧ channel t' = channel t) ts)
      as Ht by by apply list_elem_of_filter.
    rewrite Hnil in Ht. by apply elem_of_nil in Ht.
Qed.

Lemma group_triples_snoc (seen : list triple) (t : triple) :
  group_triples (seen ++ [t])
  = <[permission t := <[channel t := status t]>
        (default ∅ (group_triples seen !! permission t))]> (group_triples seen).
Proof. unfold group_triples. by rewrite foldl_snoc. Qed.

Lemma lookup_default_empty (pc : gmap string (gmap string Z)) (p c : string) :
  default ∅ (pc !! p) !! c = pc !! p ≫= (.!! c).
Proof. destruct (pc !! p); simpl; [done|]. apply lookup_empty. Qed.

(** The grouping holds, for each category and channel, the last status. *)
Lemma group_triples_lookup (ts : list triple) (p c : string) :
  group_triples ts !! p ≫= (.!! c) = entry ts p c.
Proof.
  induction ts as [|t ts IH] using rev_ind; [done|].
  rewrite group_triples_snoc, entry_snoc.
  destruct (decide (permission t = p)) as [<-|Hp].
  - rewrite lookup_insert_eq. simpl.
    destruct (decide (channel t = c)) as [<-|Hc].
    + rewrite lookup_insert_eq. by rewrite decide_True.
    + rewrite lookup_insert_ne by done. rewrite decide_False by naive_solver.
      by rewrite lookup_default_empty.
  - rewrite lookup_insert_ne by done. by rewrite decide_False by naive_solver.
Qed.

Lemma group_triples_dom (ts : list triple) :
  dom (group_triples ts) = categories ts.
Proof.
  unfold categories.
  induction ts as [|t ts IH] using rev_ind; [set_solver|].
  rewrite group_triples_snoc, dom_insert_L, IH, fmap_snoc, list_to_set_snoc_L.
  set_solver.
Qed.

Lemma group_triples_size (ts : list triple) :
  size (group_triples ts) = size (categories ts).
Proof. by rewrite <- group_triples_dom, size_dom. Qed.

Lemma group_triples_channels (ts : list triple) (p : string) channels :
  group_triples ts !! p = Some channels →
  (∀ c, channels !! c = entry ts p c) ∧ dom channels = channels_of ts p.
Proof.
  intros Hp.
  assert (∀ c, channels !! c = entry ts p c) as Hlookup.
  { intros c. by rewrite <- group_triples_lookup, Hp. }
  split; [done|]. apply set_eq. intros c.
  by rewrite elem_of_dom, Hlookup, entry_is_Some.
Qed.

Lemma channels_of_categories (ts : list triple) (p c : string) :
  c ∈ channels_of ts p → p ∈ categories ts.
Proof.
  unfold channels_of, categories.
  rewrite !elem_of_list_to_set, !list_elem_of_fmap.
  intros (t & _ & [Hp Hin]%list_elem_of_filter). by exists t.
Qed.

End Grouping.

(** ** The internal-contradiction counter (C4) *)

Section InternalContradictions.
Import TripleReader ConsistencyVisualization Spec Inputs.
Import PermissionVisualAnalysis (group_triples).

(** One iteration of the loop over the triples, started from the grouping of
    the triples seen so far. *)
Lemma scan_triple_step (app_genre : string) (seen : list triple) (t : triple)
    (ica : nat) (by_genre : gmap string nat) (total : nat) :
  ∃ by_genre',
    scan_triple app_genre (group_triples seen, ica, by_genre, total) t
    = (group_triples (seen ++ [t]),
       ica + (if changes_status seen t then 1 else 0), by_genre', S total).
Proof.
  unfold scan_triple, changes_status.
  rewrite lookup_default_empty, group_triples_lookup, group_triples_snoc.
  destruct (entry seen (permission t) (channel t)) as [recorded|].
  - destruct (decide (recorded ≠ status t)) as [Hne|Heq].
    + rewrite bool_decide_true by done. rewrite Nat.add_1_r. by eexists.
    + rewrite bool_decide_false by done. rewrite Nat.add_0_r. by eexists.
  - rewrite Nat.add_0_r. by eexists.
Qed.

Lemma scan_triples_fold (app_genre : string) (ts seen : list triple)
    (ica : nat) (by_genre : gmap string nat) (total : nat) :
  ∃ by_genre',
    foldl (scan_triple app_genre) (group_triples seen, ica, by_genre, total) ts
    = (group_triples (seen ++ ts), ica + status_changes_from seen ts,
       by_genre', total + length ts).
Proof.
  revert seen ica by_genre total.
  induction ts as [|t ts IH]; intros seen ica by_genre total.
  - exists by_genre. simpl. by rewrite app_nil_r, !Nat.add_0_r.
  - cbn [foldl].
    destruct (scan_triple_step app_genre seen t ica by_genre total)
      as [by_genre1 ->].
    destruct (IH (seen ++ [t]) (ica + (if changes_status seen t then 1 else 0))
                 by_genre1 (S total)) as [by_genre2 ->].
    exists by_genre2. rewrite <- app_assoc. simpl.
    by rewrite Nat.add_assoc, Nat.add_succ_r.
Qed.

(** What one application adds to the counters, and the grouping it leaves
    behind. *)
Lemma process_app_counters (st : loop_state) (a : app) :
  ∃ st', process_app st a = Some st'
         ∧ ica_count st' = ica_count st + status_changes (app_triples a)
         ∧ total_permissions st' = total_permissions st + length (app_triples a)
         ∧ permission_channels st' = Some (group_triples (app_triples a)).
Proof.
  unfold process_app.
  destruct (scan_triples_fold (genre a) (app_triples a) [] (ica_count st)
              (ica_by_genre st) (total_permissions st)) as [by_genre' Hfold].
  change (group_triples []) with (∅ : gmap string (gmap string Z)) in Hfold.
  rewrite Hfold. simpl.
  destruct (Nat.ltb_spec 0 (size (group_triples (app_triples a)))) as [Hpos|Hle].
  - rewrite cv_percent_pos by done. simpl. eexists. split; [done|]. simpl. done.
  - eexists. split; [done|]. simpl. done.
Qed.

Lemma main_loop_counters (apps : list app) :
  ∃ st, main_loop apps = Some st
        ∧ ica_count st = sum_list_with (fun a => status_changes (app_triples a)) apps
        ∧ total_permissions st = length (apps ≫= app_triples).
Proof.
  induction apps as [|a apps IH] using rev_ind.
  - exists loop_init. done.
  - destruct IH as (st & Hst & Hica & Htotal).
    destruct (process_app_counters st a) as (st' & Hst' & Hica' & Htotal' & _).
    exists st'. rewrite main_loop_snoc, Hst. simpl. split; [done|].
    rewrite sum_list_with_app, bind_app, length_app. simpl.
    rewrite app_nil_r. lia.
Qed.

(** C4 (as the claim states it, refuted).  A single triple flagged -1 does
    not count towards ICA: the total and the ratio are 0, not 1 and 100. *)
Lemma flagged_triple_is_not_counted :
  ∃ st m, main_loop [flagged_app] = Some st
          ∧ calculate_metrics [flagged_app] = Some m
          ∧ flagged (app_triples flagged_app) = 1
          ∧ ica_count st = 0
          ∧ ica_ratio m = 0%Q.
Proof. eexists _, _. split_and!; vm_compute; reflexivity. Qed.

(** C4 (amended).  For every list of applications the ICA total counts the
    triples that change the status recorded by an earlier triple of the same
    application, category and channel (a status -1 by itself contributes
    nothing), the denominator is the number of all triples, and the reported
    ratio is the total divided by the denominator, times 100 (0 when there
    is no triple). *)
Theorem ica_counts_status_changes (apps : list app) :
  ∃ st m,
    main_loop apps = Some st
    ∧ calculate_metrics apps = Some m
    ∧ ica_count st = sum_list_with (fun a => status_changes (app_triples a)) apps
    ∧ total_permissions st = length (apps ≫= app_triples)
    ∧ ica_ratio m
      = if decide (total_permissions st = 0) then 0%Q
        else (Py.of_nat (ica_count st) / Py.of_nat (total_permissions st) * 100)%Q.
Proof.
  destruct (calculate_metrics_total apps) as (st & m & Hst & Hm & Hratio & _).
  destruct (main_loop_counters apps) as (st0 & Hst0 & Hica & Htotal).
  rewrite Hst in Hst0. injection Hst0 as <-.
  exists st, m. split_and!; [done..|].
  unfold ica_ratio_of in Hratio.
  destruct (Nat.ltb_spec 0 (total_permissions st)) as [Hpos|Hle].
  - rewrite cv_percent_pos in Hratio by done. injection Hratio as <-.
    rewrite decide_False by lia. done.
  - injection Hratio as <-. rewrite decide_True by lia. done.
Qed.

End InternalContradictions.

(** ** Application-level OCC (C5) *)

Section ApplicationOcc.
Import TripleReader ConsistencyVisualization Spec Inputs.
Import PermissionVisualAnalysis (group_triples).

(** The agreement test of the source, on a non-empty channel dictionary. *)
Lemma agree_spec (channels : gmap string Z) :
  channels ≠ ∅ →
  agree channels = true
  ↔ ∃ s, s ≠ (-1)%Z ∧ ∀ c v, channels !! c = Some v → v = s.
Proof.
  intros Hne. unfold agree.
  assert (∀ (s0 : Z) l,
    forallb (fun s => bool_decide (s = s0)) l = true ↔ ∀ v, v ∈ l → v = s0)
    as Hforall.
  { intros s0 l. rewrite forallb_forall. split; intros H v Hv.
    - apply list_elem_of_In, H in Hv. by apply bool_decide_eq_true in Hv.
    - apply bool_decide_eq_true, H. by apply list_elem_of_In. }
  assert (∀ v, v ∈ (map_to_list channels).*2 ↔ ∃ c, channels !! c = Some v)
    as Hvals.
  { intros v. rewrite list_elem_of_fmap. split.
    - intros ([c v'] & -> & Hin%elem_of_map_to_list). by exists c.
    - intros (c & Hc). exists (c, v). split; [done|].
      by apply elem_of_map_to_list. }
  destruct ((map_to_list channels).*2) as [|s0 rest] eqn:E.
  - apply fmap_nil_inv, map_to_list_empty_iff in E. done.
  - cbv beta iota. set (statuses := s0 :: rest) in *.
    rewrite andb_true_iff, Hforall, negb_true_iff, bool_decide_eq_false.
    split.
    + intros [Hall Hs0]. exists s0. split; [done|]. intros c v Hc.
      apply Hall, Hvals. by exists c.
    + intros (s & Hs & Hall).
      assert (s0 = s) as ->.
      { destruct (proj1 (Hvals s0)) as (c & Hc); [left|]. by eapply Hall. }
      split; [|done]. intros v (c & Hc)%Hvals. by eapply Hall.
Qed.

(** The categories counted as consistent by the loop over the grouping. *)
Lemma scan_categories_consistent (app_genre : string) (init : category_acc)
    (pc : grouping) :
  acc_app_consistent init = 0 →
  ∃ S : gset string,
    acc_app_consistent (map_fold (scan_category app_genre) init pc) = size S
    ∧ ∀ p, p ∈ S ↔ ∃ channels, pc !! p = Some channels
                               ∧ size channels = 3 ∧ agree channels = true.
Proof.
  intros Hinit.
  apply (map_fold_weak_ind
    (fun r (m : grouping) => ∃ S : gset string,
       acc_app_consistent r = size S
       ∧ ∀ p, p ∈ S ↔ ∃ channels, m !! p = Some channels
                                  ∧ size channels = 3 ∧ agree channels = true)).
  - exists ∅. split; [by rewrite size_empty|]. intros p. split.
    + by intros ?%elem_of_empty.
    + intros (channels & Hc & _). by rewrite lookup_empty in Hc.
  - intros i x m r Hi (S & Hsize & HS).
    assert (i ∉ S) as HiS.
    { intros (channels & Hc & _)%HS. congruence. }
    unfold scan_category.
    destruct (Nat.eqb_spec (size x) 3) as [H3|H3]; simpl;
      [destruct (agree x) eqn:Hagree|].
    + exists ({[ i ]} ∪ S). split.
      * rewrite size_union by set_solver. rewrite size_singleton. lia.
      * intros p. rewrite elem_of_union, elem_of_singleton, HS.
        destruct (decide (p = i)) as [->|Hp].
        -- rewrite lookup_insert_eq. split; [|by left]. intros _. by exists x.
        -- rewrite lookup_insert_ne by done. naive_solver.
    + exists S. split; [done|]. intros p. rewrite HS.
      destruct (decide (p = i)) as [->|Hp].
      * rewrite lookup_insert_eq, Hi. split.
        -- by intros (? & ? & _).
        -- intros (channels & [= <-] & _ & ?). congruence.
      * by rewrite lookup_insert_ne.
    + exists S. split; [done|]. intros p. rewrite HS.
      destruct (decide (p = i)) as [->|Hp].
      * rewrite lookup_insert_eq, Hi. split.
        -- by intros (? & ? & _).
        -- intros (channels & [= <-] & ? & _). done.
      * by rewrite lookup_insert_ne.
Qed.

(** A category of the grouping passes the test of the source exactly when it
    is consistent in the sense of the specification. *)
Lemma grouped_consistent (ts : list triple) (p : string) :
  (∃ channels, group_triples ts !! p = Some channels
               ∧ size channels = 3 ∧ agree channels = true)
  ↔ consistent ts p.
Proof.
  unfold consistent. split.
  - intros (channels & Hp & H3 & Hagree).
    destruct (group_triples_channels ts p channels Hp) as [Hlookup Hdom].
    assert (channels ≠ ∅) as Hne.
    { intros ->. by rewrite map_size_empty in H3. }
    apply agree_spec in Hagree as (s & Hs & Hall); [|done].
    split; [by rewrite <- Hdom, size_dom|].
    exists s. split; [done|]. intros c [v Hv]%entry_is_Some.
    rewrite Hv. f_equal. apply (Hall c). by rewrite Hlookup.
  - intros [H3 (s & Hs & Hall)].
    assert (p ∈ dom (group_triples ts)) as [channels Hp]%elem_of_dom.
    { rewrite group_triples_dom.
      destruct (size_pos_elem_of (channels_of ts p)) as [c Hc]; [lia|].
      by eapply channels_of_categories. }
    destruct (group_triples_channels ts p channels Hp) as [Hlookup Hdom].
    assert (size channels = 3) as H3' by by rewrite <- size_dom, Hdom.
    exists channels. split_and!; [done..|].
    apply agree_spec.
    + intros ->. by rewrite map_size_empty in H3'.
    + exists s. split; [done|]. intros c v Hc. rewrite Hlookup in Hc.
      assert (c ∈ channels_of ts p) as Hin by (apply entry_is_Some; eauto).
      apply Hall in Hin. congruence.
Qed.

Lemma three_fixed_channels :
  size ({[ CH1; CH2; CH3 ]} : gset string) = 3.
Proof. vm_compute. reflexivity. Qed.

Lemma channels_of_fixed (ts : list triple) (p : string) :
  three_channels ts → channels_of ts p ⊆ {[ CH1; CH2; CH3 ]}.
Proof.
  intros Hts c. unfold channels_of.
  rewrite elem_of_list_to_set, list_elem_of_fmap.
  intros (t & -> & [_ Hin]%list_elem_of_filter).
  specialize (Hts t Hin). set_solver.
Qed.

(** In the data model of the specification, "three channels have an entry"
    means that the three fixed channels have one. *)
Lemma consistent_agree3 (ts : list triple) (p : string) :
  three_channels ts → consistent ts p ↔ agree3 ts p.
Proof.
  intros Hts. pose proof (channels_of_fixed ts p Hts) as Hsub.
  unfold consistent, agree3. split.
  - intros [H3 (s & Hs & Hall)].
    assert (channels_of ts p = {[ CH1; CH2; CH3 ]}) as Heq.
    { apply set_subseteq_size_eq; [done|]. rewrite three_fixed_channels. lia. }
    exists s. split_and!; [done|..]; apply Hall; rewrite Heq; set_solver.
  - intros (s & Hs & H1 & H2 & H3).
    assert ({[ CH1; CH2; CH3 ]} ⊆ channels_of ts p) as Hsup.
    { intros c Hc. apply entry_is_Some. set_unfold in Hc.
      destruct Hc as [[->| ->]| ->]; eauto. }
    assert (channels_of ts p = {[ CH1; CH2; CH3 ]}) as Heq by set_solver.
    split; [by rewrite Heq, three_fixed_channels|].
    exists s. split; [done|]. intros c Hc. rewrite Heq in Hc.
    set_unfold in Hc. destruct Hc as [[->| ->]| ->]; done.
Qed.

Lemma categories_nonempty (ts : list triple) :
  ts ≠ [] → 0 < size (categories ts).
Proof.
  destruct ts as [|t ts]; [done|]. intros _.
  assert (size (categories (t :: ts)) ≠ 0); [|lia].
  apply size_non_empty_iff. unfold categories. simpl. set_solver.
Qed.

(** C5.  For an application with at least one triple, the OCC value that
    [calculate_metrics] appends to [apps_occ] is 100 times the number of
    consistent categories divided by the number of distinct categories of
    the application's triples (not the fixed nine).  A category is
    consistent when three channels have an entry for it with equal statuses
    other than -1; on triples of the three fixed channels this is: all three
    channels have an entry and the three statuses are equal and not -1. *)
Theorem app_level_occ (st : loop_state) (a : app) :
  app_triples a ≠ [] →
  ∃ st' q (S : gset string),
    process_app st a = Some st'
    ∧ apps_occ st' = apps_occ st ++ [q]
    ∧ (q == 100 * Py.of_nat (size S)
              / Py.of_nat (size (categories (app_triples a))))%Q
    ∧ (∀ p, p ∈ S ↔ consistent (app_triples a) p)
    ∧ (three_channels (app_triples a) → ∀ p, p ∈ S ↔ agree3 (app_triples a) p).
Proof.
  intros Hne. unfold process_app.
  destruct (scan_triples_fold (genre a) (app_triples a) [] (ica_count st)
              (ica_by_genre st) (total_permissions st)) as [by_genre' Hfold].
  change (group_triples []) with (∅ : gmap string (gmap string Z)) in Hfold.
  rewrite Hfold. simpl.
  set (init := {| acc_app_consistent := 0;
                  acc_consistent_count := consistent_count st;
                  acc_ccor := ccor_data st; acc_cccr := cccr_data st;
                  acc_all_permissions_count := all_permissions_count st |}).
  destruct (scan_categories_consistent (genre a) init
              (group_triples (app_triples a)) eq_refl) as (S & HsizeS & HS).
  pose proof (categories_nonempty _ Hne) as Hpos.
  rewrite <- group_triples_size in Hpos.
  destruct (Nat.ltb_spec 0 (size (group_triples (app_triples a)))); [|lia].
  rewrite cv_percent_pos by done. simpl.
  eexists _, _, S. split; [done|]. simpl. split; [done|].
  rewrite HsizeS, group_triples_size.
  assert (∀ p, p ∈ S ↔ consistent (app_triples a) p) as HS'.
  { intros p. by rewrite HS, grouped_consistent. }
  split_and!.
  - unfold Qdiv. ring.
  - done.
  - intros Hts p. by rewrite HS', consistent_agree3.
Qed.

(** [camera_app]: Camera, reported 1 by the three channels, is the one
    consistent category among two. *)
Lemma app_level_occ_witness :
  ∃ st' q (S : gset string),
    process_app loop_init camera_app = Some st'
    ∧ apps_occ st' = apps_occ loop_init ++ [q]
    ∧ (q == 100 * Py.of_nat (size S)
              / Py.of_nat (size (categories (app_triples camera_app))))%Q
    ∧ (∀ p, p ∈ S ↔ consistent (app_triples camera_app) p)
    ∧ (three_channels (app_triples camera_app) →
       ∀ p, p ∈ S ↔ agree3 (app_triples camera_app) p).
Proof. apply (app_level_occ loop_init camera_app). vm_compute. discriminate. Defined.

Example camera_is_consistent :
  agree3 (app_triples camera_app) "Camera"
  ∧ (apps_occ <$> process_app loop_init camera_app) = Some [(100 # 2)%Q].
Proof.
  split.
  - exists 1%Z. split_and!; [done|vm_compute; reflexivity..].
  - vm_compute. reflexivity.
Qed.

End ApplicationOcc.

(** ** The OCC trend (C2) *)

Section OccTrend.
Import TripleReader ConsistencyVisualization Spec Inputs.

(** C2 (the code departs from the claim).  The trend loop rebuilds each
    application's count of consistent categories as
    [int(app_occ / 100 * len(permission_channels))], where
    [permission_channels] is the grouping left over from the last
    application of the first loop.  On [uneven_apps] the application-level
    OCC values are 50 and 100, whose running averages are 50 and 75, but the
    reported trend is 0 and 50. *)
Theorem occ_trend_is_not_the_running_average :
  ∃ st m,
    main_loop uneven_apps = Some st
    ∧ calculate_metrics uneven_apps = Some m
    ∧ Qred <$> apps_occ st = [50%Q; 100%Q]
    ∧ Qred <$> running_average (apps_occ st) = [50%Q; 75%Q]
    ∧ Qred <$> overall_occ_trend m = [0%Q; 50%Q].
Proof. eexists _, _. split_and!; vm_compute; reflexivity. Qed.

End OccTrend.

(** ** The CCOR buckets (C3) *)

Section Ccor.
Import TripleReader ConsistencyVisualization Spec Inputs.

Lemma ccor_counted_dec (channels : gmap string Z) : Decision (ccor_counted channels).
Proof. unfold ccor_counted. apply _. Qed.

Lemma ccor_omitted_dec (channels : gmap string Z) : Decision (ccor_omitted channels).
Proof. unfold ccor_omitted. apply _. Qed.

(** Selecting the categories of a grouping that satisfy [Q], one inserted
    category at a time. *)
Lemma extend_selected (Q : gmap string Z → Prop) (selected : gset string)
    (m : grouping) (i : string) (x : gmap string Z) :
  m !! i = None →
  (∀ p, p ∈ selected ↔ ∃ channels, m !! p = Some channels ∧ Q channels) →
  (i ∉ selected)
  ∧ (Q x → ∀ p, p ∈ {[ i ]} ∪ selected
                ↔ ∃ channels, <[i:=x]> m !! p = Some channels ∧ Q channels)
  ∧ (¬ Q x → ∀ p, p ∈ selected
                  ↔ ∃ channels, <[i:=x]> m !! p = Some channels ∧ Q channels).
Proof.
  intros Hi Hsel. split_and!.
  - intros (channels & Hc & _)%Hsel. congruence.
  - intros Hx p. rewrite elem_of_union, elem_of_singleton, Hsel.
    destruct (decide (p = i)) as [->|Hp].
    + rewrite lookup_insert_eq. split; [|by left]. intros _. by exists x.
    + rewrite lookup_insert_ne by done. naive_solver.
  - intros Hx p. rewrite Hsel.
    destruct (decide (p = i)) as [->|Hp].
    + rewrite lookup_insert_eq, Hi. split.
      * by intros (? & ? & _).
      * intros (channels & [= <-] & ?). done.
    + by rewrite lookup_insert_ne.
Qed.

(** What one category does to the CCOR buckets. *)
Lemma scan_category_ccor (app_genre permission : string)
    (channels : gmap string Z) (acc : category_acc) :
  acc_ccor (scan_category app_genre permission channels acc)
  = match ccor_counted_dec channels with
    | left _ =>
        bump_ccor app_genre
          (match ccor_omitted_dec channels with left _ => true | right _ => false end)
          (acc_ccor acc)
    | right _ => acc_ccor acc
    end.
Proof.
  unfold scan_category.
  destruct (ccor_counted_dec channels) as [(H3 & [s1 H1] & [s2 H2])|Hno].
  - rewrite H3. simpl. rewrite H1, H2. f_equal.
    destruct (ccor_omitted_dec channels) as [(_ & H1' & H2')|Hno].
    + rewrite H1 in H1'. rewrite H2 in H2'.
      injection H1' as ->. injection H2' as ->. done.
    + destruct (decide (s1 = 1%Z)) as [->|?], (decide (s2 = 0%Z)) as [->|?];
        rewrite ?bool_decide_true, ?bool_decide_false by done;
        simpl; try done.
      exfalso. by apply Hno.
  - destruct (Nat.eqb_spec (size channels) 3) as [H3|H3]; simpl; [|done].
    destruct (channels !! CH1) as [s1|] eqn:H1; [|done].
    destruct (channels !! CH2) as [s2|] eqn:H2; [|done].
    exfalso. apply Hno. unfold ccor_counted. rewrite H1, H2. eauto.
Qed.

Lemma bump_ccor_lookup (app_genre : string) (missing : bool)
    (m : gmap string ccor_bucket) :
  default ccor_zero (bump_ccor app_genre missing m !! app_genre)
  = {| ccor_total := S (ccor_total (default ccor_zero (m !! app_genre)));
       ccor_missing :=
         (if missing then 1 else 0)
         + ccor_missing (default ccor_zero (m !! app_genre)) |}
  ∧ ∀ g, g ≠ app_genre → bump_ccor app_genre missing m !! g = m !! g.
Proof.
  unfold bump_ccor. split.
  - rewrite lookup_insert_eq. simpl. by destruct missing.
  - intros g Hg. by rewrite lookup_insert_ne.
Qed.

(** The CCOR bucket of the genre after the loop over the categories of one
    application: the total grows by the number of counted categories, the
    missing count by the number of omitted ones; the other genres are left
    alone. *)
Lemma scan_categories_ccor (app_genre : string) (init : category_acc)
    (pc : grouping) :
  ∃ counted omitted : gset string,
    (∀ p, p ∈ counted ↔ ∃ channels, pc !! p = Some channels ∧ ccor_counted channels)
    ∧ (∀ p, p ∈ omitted ↔ ∃ channels, pc !! p = Some channels ∧ ccor_omitted channels)
    ∧ default ccor_zero
        (acc_ccor (map_fold (scan_category app_genre) init pc) !! app_genre)
      = {| ccor_total :=
             size counted
             + ccor_total (default ccor_zero (acc_ccor init !! app_genre));
           ccor_missing :=
             size omitted
             + ccor_missing (default ccor_zero (acc_ccor init !! app_genre)) |}
    ∧ ∀ g, g ≠ app_genre →
           acc_ccor (map_fold (scan_category app_genre) init pc) !! g
           = acc_ccor init !! g.
Proof.
  apply (map_fold_weak_ind
    (fun r (m : grouping) => ∃ counted omitted : gset string,
       (∀ p, p ∈ counted ↔ ∃ channels, m !! p = Some channels ∧ ccor_counted channels)
       ∧ (∀ p, p ∈ omitted ↔ ∃ channels, m !! p = Some channels ∧ ccor_omitted channels)
       ∧ default ccor_zero (acc_ccor r !! app_genre)
         = {| ccor_total :=
                size counted
                + ccor_total (default ccor_zero (acc_ccor init !! app_genre));
              ccor_missing :=
                size omitted
                + ccor_missing (default ccor_zero (acc_ccor init !! app_genre)) |}
       ∧ ∀ g, g ≠ app_genre → acc_ccor r !! g = acc_ccor init !! g)).
  - exists ∅, ∅. split_and!.
    + intros p. split; [by intros ?%elem_of_empty|].
      intros (channels & Hc & _). by rewrite lookup_empty in Hc.
    + intros p. split; [by intros ?%elem_of_empty|].
      intros (channels & Hc & _). by rewrite lookup_empty in Hc.
    + rewrite size_empty. simpl. by destruct (default _ _).
    + done.
  - intros i x m r Hi (counted & omitted & Hcounted & Homitted & Hbucket & Hother).
    destruct (extend_selected ccor_counted counted m i x Hi Hcounted)
      as (Hic & Hc_yes & Hc_no).
    destruct (extend_selected ccor_omitted omitted m i x Hi Homitted)
      as (Hio & Ho_yes & Ho_no).
    rewrite scan_category_ccor.
    destruct (ccor_counted_dec x) as [Hx|Hx].
    + destruct (bump_ccor_lookup app_genre
                  (match ccor_omitted_dec x with left _ => true | right _ => false end)
                  (acc_ccor r)) as [Hbump Hbump_other].
      destruct (ccor_omitted_dec x) as [Hy|Hy].
      * exists ({[ i ]} ∪ counted), ({[ i ]} ∪ omitted).
        split_and!; [by apply Hc_yes|by apply Ho_yes| |].
        -- rewrite Hbump, Hbucket. simpl.
           rewrite !size_union, !size_singleton by set_solver. done.
        -- intros g Hg. rewrite Hbump_other by done. by apply Hother.
      * exists ({[ i ]} ∪ counted), omitted.
        split_and!; [by apply Hc_yes|by apply Ho_no| |].
        -- rewrite Hbump, Hbucket. simpl.
           rewrite !size_union, !size_singleton by set_solver. done.
        -- intros g Hg. rewrite Hbump_other by done. by apply Hother.
    + exists counted, omitted.
      split_and!; [by apply Hc_no| |done..].
      apply Ho_no. intros (H3 & H1 & H2). apply Hx.
      unfold ccor_counted. rewrite H1, H2. eauto.
Qed.

(** The CCOR bucket of the genre of an application after the application
    has been processed. *)
Lemma process_app_ccor (st : loop_state) (a : app) :
  ∃ st' (counted omitted : gset string),
    process_app st a = Some st'
    ∧ (∀ p, p ∈ counted
            ↔ ∃ channels, PermissionVisualAnalysis.group_triples (app_triples a) !! p
                          = Some channels ∧ ccor_counted channels)
    ∧ (∀ p, p ∈ omitted
            ↔ ∃ channels, PermissionVisualAnalysis.group_triples (app_triples a) !! p
                          = Some channels ∧ ccor_omitted channels)
    ∧ default ccor_zero (ccor_data st' !! genre a)
      = {| ccor_total :=
             size counted
             + ccor_total (default ccor_zero (ccor_data st !! genre a));
           ccor_missing :=
             size omitted
             + ccor_missing (default ccor_zero (ccor_data st !! genre a)) |}
    ∧ ∀ g, g ≠ genre a → ccor_data st' !! g = ccor_data st !! g.
Proof.
  unfold process_app.
  destruct (scan_triples_fold (genre a) (app_triples a) [] (ica_count st)
              (ica_by_genre st) (total_permissions st)) as [by_genre' Hfold].
  change (PermissionVisualAnalysis.group_triples [])
    with (∅ : gmap string (gmap string Z)) in Hfold.
  rewrite Hfold. simpl.
  set (init := {| acc_app_consistent := 0;
                  acc_consistent_count := consistent_count st;
                  acc_ccor := ccor_data st; acc_cccr := cccr_data st;
                  acc_all_permissions_count := all_permissions_count st |}).
  destruct (scan_categories_ccor (genre a) init
              (PermissionVisualAnalysis.group_triples (app_triples a)))
    as (counted & omitted & Hcounted & Homitted & Hbucket & Hother).
  destruct (Nat.ltb_spec 0
              (size (PermissionVisualAnalysis.group_triples (app_triples a)))).
  - rewrite cv_percent_pos by done. simpl.
    eexists _, counted, omitted. split; [done|]. simpl. done.
  - eexists _, counted, omitted. split; [done|]. simpl. done.
Qed.

Lemma per_genre_fmap {A} (f : A → option Q) (f' : A → Q) (d : gmap string A) :
  (∀ x, f x = Some (f' x)) → per_genre f d = Some (f' <$> d).
Proof.
  intros Hf. unfold per_genre.
  assert (∀ l : list (string * A),
    mapM (fun '(g, data) => pair g <$> f data) l
    = Some (prod_map id f' <$> l)) as ->.
  { intros l. apply mapM_Some_2, Forall2_fmap_r, Forall_Forall2_diag, Forall_forall.
    intros [g data] _. simpl. by rewrite Hf. }
  simpl. by rewrite list_to_map_fmap, list_to_map_to_list.
Qed.

Lemma ccor_ratio_value (data : ccor_bucket) :
  ccor_ratio data = Some (ccor_value data).
Proof.
  unfold ccor_ratio, ccor_value.
  destruct (Nat.ltb_spec 0 (ccor_total data)).
  - rewrite cv_percent_pos by done. by rewrite decide_False by lia.
  - by rewrite decide_True by lia.
Qed.

(** The reported CCOR of each genre is the missing count of its bucket
    divided by the total, times 100. *)
Lemma ccor_reported (apps : list app) :
  ∃ st m, main_loop apps = Some st ∧ calculate_metrics apps = Some m
          ∧ ccor m = ccor_value <$> ccor_data st.
Proof.
  destruct (calculate_metrics_total apps) as (st & m & Hst & Hm & _ & Hccor & _).
  exists st, m. split_and!; [done..|].
  rewrite (per_genre_fmap ccor_ratio ccor_value) in Hccor
    by apply ccor_ratio_value.
  congruence.
Qed.

(** C3 (the code departs from the claim).  The CCOR update is nested in
    [if len(channels) == 3].  For [two_channel_app], Location has entries on
    channel 1 (status 1) and channel 2 (status 0), yet the genre has no CCOR
    bucket at all: neither the total nor the missing count was incremented
    and no CCOR is reported.  With an entry on channel 3 added
    ([three_channel_app]) the bucket is 1 of 1 and the CCOR is 100. *)
Theorem ccor_needs_three_channels :
  ∃ st m st3 m3,
    main_loop [two_channel_app] = Some st
    ∧ calculate_metrics [two_channel_app] = Some m
    ∧ entry (app_triples two_channel_app) "Location" CH1 = Some 1%Z
    ∧ entry (app_triples two_channel_app) "Location" CH2 = Some 0%Z
    ∧ ccor_data st !! "Navigation" = None
    ∧ ccor m !! "Navigation" = None
    ∧ main_loop [three_channel_app] = Some st3
    ∧ calculate_metrics [three_channel_app] = Some m3
    ∧ ccor_data st3 !! "Navigation"
      = Some {| ccor_total := 1; ccor_missing := 1 |}
    ∧ Qred <$> ccor m3 !! "Navigation" = Some 100%Q.
Proof. eexists _, _, _, _. split_and!; vm_compute; reflexivity. Qed.

End Ccor.

(** ** The order of the keys of a dictionary *)

Section FirstOccurrences.
Import Spec.

Lemma first_occurrences_snoc {A} `{EqDecision A} (l : list A) (x : A) :
  first_occurrences (l ++ [x])
  = if decide (x ∈ l) then first_occurrences l else first_occurrences l ++ [x].
Proof.
  unfold first_occurrences. rewrite reverse_snoc. simpl.
  destruct (decide_rel elem_of x (reverse l)) as [Hin|Hout].
  - by rewrite decide_True by by apply elem_of_reverse.
  - rewrite decide_False by (by rewrite <- elem_of_reverse).
    by rewrite reverse_cons.
Qed.

Lemma elem_of_first_occurrences {A} `{EqDecision A} (l : list A) (x : A) :
  x ∈ first_occurrences l ↔ x ∈ l.
Proof.
  unfold first_occurrences.
  by rewrite elem_of_reverse, elem_of_remove_dups, elem_of_reverse.
Qed.

Lemma NoDup_first_occurrences {A} `{EqDecision A} (l : list A) :
  NoDup (first_occurrences l).
Proof.
  unfold first_occurrences. rewrite reverse_Permutation.
  apply NoDup_remove_dups.
Qed.

Lemma first_occurrences_app_same {A} `{EqDecision A} (l k : list A) (x : A) :
  Forall (fun y => y = x) k → k ≠ [] →
  first_occurrences (l ++ k)
  = if decide (x ∈ l) then first_occurrences l else first_occurrences l ++ [x].
Proof.
  induction k as [|y k IH] using rev_ind; [done|].
  intros [Hk Hy]%Forall_app _. apply Forall_singleton in Hy as ->.
  rewrite app_assoc, first_occurrences_snoc.
  destruct k as [|z k].
  - by rewrite app_nil_r.
  - rewrite IH by done.
    assert (x ∈ l ++ z :: k) as Hin.
    { apply elem_of_app. right. apply Forall_cons in Hk as [-> _]. left. }
    by rewrite (decide_True (P := x ∈ l ++ z :: k)).
Qed.

Lemma first_occurrences_NoDup {A} `{EqDecision A} (l : list A) :
  NoDup l → first_occurrences l = l.
Proof.
  induction l as [|x l IH] using rev_ind; [done|].
  intros (Hl & Hx & _)%NoDup_app. rewrite first_occurrences_snoc, IH by done.
  rewrite decide_False; [done|]. intros Hin. apply (Hx x Hin). left.
Qed.

End FirstOccurrences.

(** ** The genre comparison (C9) *)

Section GenreComparison.
Import TripleReader PermissionVisualAnalysis Spec Inputs.

(** A genre is skipped when it has fewer than five applications and yields
    one row otherwise. *)
Lemma compare_genre_cases (g : string) (apps : list app) :
  ((length apps < 5)%nat ∧ compare_genre g apps = Some None)
  ∨ ((5 ≤ length apps)%nat
     ∧ ∃ row, compare_genre g apps = Some (Some row)
              ∧ cmp_genre row = g ∧ app_count row = length apps).
Proof.
  unfold compare_genre.
  destruct (Nat.ltb_spec (length apps) 5) as [Hlt|Hge]; [by left|right].
  split; [done|].
  set (m := app_permissions_of apps).
  set (all_permissions := if Nat.ltb 0 (size m)
                          then set_union (map_to_list m).*2 else ∅).
  assert (is_Some (if Nat.ltb 1 (size m)
                   then set_intersection (map_to_list m).*2
                   else Some all_permissions)) as [common ->].
  { destruct (Nat.ltb_spec 1 (size m)) as [Hsize|_]; [|done].
    pose proof (length_map_to_list m) as Hlen.
    destruct (map_to_list m) as [|kv l]; simpl in *; [lia|done]. }
  simpl.
  destruct (pva_guarded_percent_total (size common) (size all_permissions))
    as [ratio ->].
  simpl. eexists. done.
Qed.

Lemma genre_append_keys (a : app) (keys : list string) (f : string → list app) :
  NoDup keys →
  genre_append a ((fun g => (g, f g)) <$> keys)
  = if decide (genre a ∈ keys)
    then (fun g => (g, if decide (g = genre a) then f g ++ [a] else f g)) <$> keys
    else ((fun g => (g, f g)) <$> keys) ++ [(genre a, [a])].
Proof.
  induction 1 as [|k keys Hk Hkeys IH]; [done|].
  rewrite !fmap_cons. cbn [genre_append].
  destruct (decide (k = genre a)) as [Heq|Hne].
  - subst k. rewrite decide_True by left. f_equal.
    apply list_fmap_ext. intros _ k' Hk'%list_elem_of_lookup_2.
    rewrite decide_False; [done|]. intros Heq. apply Hk. by rewrite <- Heq.
  - rewrite IH. destruct (decide (genre a ∈ keys)) as [Hin|Hout].
    + rewrite decide_True by by right. done.
    + rewrite decide_False; [done|].
      intros [?|?]%elem_of_cons; done.
Qed.

Lemma genre_members_snoc (g : string) (apps : list app) (a : app) :
  genre_members g (apps ++ [a])
  = genre_members g apps ++ (if decide (genre a = g) then [a] else []).
Proof.
  unfold genre_members. rewrite filter_app, filter_cons, filter_nil.
  by case_decide.
Qed.

Lemma genre_members_absent (g : string) (apps : list app) :
  g ∉ genre <$> apps → genre_members g apps = [].
Proof.
  intros Hg. unfold genre_members.
  destruct (filter _ apps) as [|a l] eqn:E; [done|]. exfalso.
  assert (a ∈ filter (fun a => genre a = g) apps) as Ha by (rewrite E; left).
  apply list_elem_of_filter in Ha as [Hga Ha]. apply Hg.
  apply list_elem_of_fmap. by exists a.
Qed.

(** [genre_apps]: the genres in the order of their first application, each
    with its applications. *)
Lemma ordered_genre_apps_members (apps : list app) :
  ordered_genre_apps apps
  = (fun g => (g, genre_members g apps)) <$> first_occurrences (genre <$> apps).
Proof.
  unfold ordered_genre_apps.
  induction apps as [|a apps IH] using rev_ind; [done|].
  rewrite foldl_snoc, IH.
  rewrite genre_append_keys by apply NoDup_first_occurrences.
  rewrite fmap_app, list_fmap_singleton, first_occurrences_snoc.
  destruct (decide (genre a ∈ genre <$> apps)) as [Hin|Hout].
  - rewrite decide_True by by apply elem_of_first_occurrences.
    apply list_fmap_ext. intros _ g _. rewrite genre_members_snoc.
    destruct (decide (g = genre a)) as [->|Hne].
    + by rewrite decide_True.
    + rewrite decide_False by done. by rewrite app_nil_r.
  - rewrite decide_False by by rewrite elem_of_first_occurrences.
    rewrite fmap_app. f_equal.
    + apply list_fmap_ext. intros _ g Hg%list_elem_of_lookup_2.
      rewrite elem_of_first_occurrences in Hg. rewrite genre_members_snoc.
      rewrite decide_False; [by rewrite app_nil_r|].
      intros Heq. apply Hout. by rewrite Heq.
    + simpl. rewrite genre_members_snoc, genre_members_absent by done.
      by rewrite decide_True.
Qed.

(** The rows of the comparison, for the genres [keys] taken in order: one
    row for each genre with at least five applications, computed from all
    the applications of the genre. *)
Lemma genre_comparison_rows_of (apps : list app) (keys : list string) :
  ∃ rows,
    mapM (fun '(g, members) => compare_genre g members)
         ((fun g => (g, genre_members g apps)) <$> keys) = Some rows
    ∧ cmp_genre <$> omap id rows
      = filter (fun g => (5 ≤ length (genre_members g apps))%nat) keys
    ∧ Forall (fun row =>
                compare_genre (cmp_genre row) (genre_members (cmp_genre row) apps)
                = Some (Some row)
                ∧ app_count row = length (genre_members (cmp_genre row) apps)
                ∧ (5 ≤ app_count row)%nat) (omap id rows).
Proof.
  induction keys as [|g keys (rows & Hrows & Hgenres & Hall)].
  - exists []. done.
  - rewrite fmap_cons, filter_cons.
    destruct (compare_genre_cases g (genre_members g apps))
      as [[Hfew Hr]|[Hmany (row & Hr & Hg & Hcount)]].
    + exists (None :: rows). split_and!.
      * simpl. rewrite Hr. simpl. by rewrite Hrows.
      * by rewrite decide_False by lia.
      * done.
    + exists (Some row :: rows).
      change (omap id (Some row :: rows)) with (row :: omap id rows).
      split_and!.
      * simpl. rewrite Hr. simpl. by rewrite Hrows.
      * by rewrite decide_True, fmap_cons, Hg, Hgenres by done.
      * apply Forall_cons. rewrite Hg. split; [|done].
        split_and!; [done..|lia].
Qed.

(** The rows of the comparison are those of the genres with at least five
    applications. *)
Lemma genre_comparison_rows (apps : list app) :
  ∃ rows,
    prepare_genre_comparison_data apps = Some rows
    ∧ ∀ g, g ∈ cmp_genre <$> rows
           ↔ (5 ≤ length (filter (fun a => genre a = g) apps))%nat.
Proof.
  unfold prepare_genre_comparison_data. rewrite ordered_genre_apps_members.
  destruct (genre_comparison_rows_of apps (first_occurrences (genre <$> apps)))
    as (rows & -> & Hgenres & _).
  exists (omap id rows). split; [done|]. intros g.
  rewrite Hgenres, list_elem_of_filter, elem_of_first_occurrences.
  fold (genre_members g apps). split; [by intros [? _]|]. intros Hlen.
  split; [done|].
  destruct (genre_members g apps) as [|a l] eqn:E; [simpl in Hlen; lia|].
  assert (a ∈ genre_members g apps) as Ha by (rewrite E; left).
  apply list_elem_of_filter in Ha as [Hg Ha].
  apply list_elem_of_fmap. by exists a.
Qed.

(** The set built by the loop over the triples of an application is the set
    of the categories asserted present on channel 1. *)
Lemma collected_permissions_present (a : app) :
  collected_permissions a = present_on_channel1 a.
Proof.
  unfold collected_permissions, present_on_channel1.
  induction (app_triples a) as [|t ts IH] using rev_ind; [done|].
  rewrite foldl_snoc, IH, filter_app, fmap_app, list_to_set_app_L.
  rewrite filter_cons, filter_nil. unfold collected.
  destruct (decide (channel t = "渠道一" ∧ status t = 1%Z)) as [[Hc Hs]|Hno].
  - rewrite Hc, Hs. simpl. set_solver.
  - destruct (String.eqb_spec (channel t) CH1) as [Hc|Hc]; simpl.
    + rewrite bool_decide_false by (intros Hs; by apply Hno).
      set_solver.
    + set_solver.
Qed.

(** With pairwise distinct names, [app_permissions] holds one set for each
    application. *)
Lemma app_permissions_of_distinct (apps : list app) :
  NoDup (app_name <$> apps) →
  map_to_list (app_permissions_of apps)
  ≡ₚ (fun a => (app_name a, collected_permissions a)) <$> apps.
Proof.
  unfold app_permissions_of.
  induction apps as [|a apps IH] using rev_ind; intros Hnames.
  - simpl. by rewrite map_to_list_empty.
  - rewrite fmap_app in Hnames. apply NoDup_app in Hnames as (Hnames & Ha & _).
    specialize (IH Hnames). rewrite foldl_snoc, fmap_app. simpl.
    rewrite map_to_list_insert.
    + rewrite IH. apply Permutation_cons_append.
    + destruct (foldl _ ∅ apps !! app_name a) as [v|] eqn:E; [|done].
      apply elem_of_map_to_list in E. rewrite IH in E.
      apply list_elem_of_fmap in E as (b & [= Hname _] & Hb).
      exfalso. apply (Ha (app_name a)).
      * apply list_elem_of_fmap. by exists b.
      * simpl. left.
Qed.

Lemma elem_of_foldl_intersection (first : gset string)
    (rest : list (gset string)) (x : string) :
  x ∈ foldl (∩) first rest ↔ x ∈ first ∧ ∀ s, s ∈ rest → x ∈ s.
Proof.
  revert first. induction rest as [|s rest IH]; intros first; simpl.
  - split; [|by intros [? _]]. intros ?. split; [done|].
    intros s Hs. by apply elem_of_nil in Hs.
  - rewrite IH, elem_of_intersection. split.
    + intros [[? ?] Hrest]. split; [done|].
      intros s' [->|?]%elem_of_cons; auto.
    + intros [? Hall]. split_and!; [done| |].
      * apply Hall. left.
      * intros s' ?. apply Hall. by right.
Qed.

Lemma elem_of_set_intersection (sets : list (gset string)) (X : gset string)
    (x : string) :
  set_intersection sets = Some X → x ∈ X ↔ ∀ s, s ∈ sets → x ∈ s.
Proof.
  destruct sets as [|first rest]; [done|]. intros [= <-].
  rewrite elem_of_foldl_intersection. split.
  - intros [? Hrest] s [->|?]%elem_of_cons; auto.
  - intros Hall. split; [apply Hall; left|].
    intros s ?. apply Hall. by right.
Qed.

Lemma elem_of_intersection_of (sets : list (gset string)) (x : string) :
  sets ≠ [] → x ∈ intersection_of sets ↔ ∀ s, s ∈ sets → x ∈ s.
Proof.
  destruct sets as [|first rest]; [done|]. intros _. simpl.
  induction rest as [|s rest IH]; simpl.
  - split.
    + intros ? s ->%list_elem_of_singleton. done.
    + intros Hall. apply Hall. left.
  - rewrite elem_of_intersection, IH. split.
    + intros [? Hall] s' [->|[->|?]%elem_of_cons]%elem_of_cons; [|done|].
      * apply Hall. left.
      * apply Hall. by right.
    + intros Hall. split; [apply Hall; right; left|].
      intros s' [->|?]%elem_of_cons; apply Hall; [left|by do 2 right].
Qed.

(** The row of a genre with at least five applications of pairwise distinct
    names: the common categories are the intersection, the total is the
    size of the union, and the ratio is that of the two sizes, of the
    per-application sets. *)
Lemma compare_genre_distinct_names (g : string) (apps : list app) :
  (5 ≤ length apps)%nat → NoDup (app_name <$> apps) →
  ∃ row,
    compare_genre g apps = Some (Some row)
    ∧ common_permissions row = intersection_of (present_on_channel1 <$> apps)
    ∧ total_permissions row = size (⋃ (present_on_channel1 <$> apps))
    ∧ (common_ratio row == homogeneity (present_on_channel1 <$> apps))%Q.
Proof.
  intros Hlen Hnames. unfold compare_genre.
  destruct (Nat.ltb_spec (length apps) 5) as [?|_]; [lia|].
  pose proof (app_permissions_of_distinct apps Hnames) as Hperm.
  set (m := app_permissions_of apps) in *.
  assert ((map_to_list m).*2 ≡ₚ present_on_channel1 <$> apps) as Hsets.
  { rewrite Hperm, <- list_fmap_compose. apply perm_of_eq, list_fmap_ext.
    intros _ a _. simpl. apply collected_permissions_present. }
  assert (size m = length apps) as Hsize.
  { by rewrite <- length_map_to_list, Hperm, length_fmap. }
  rewrite Hsize.
  destruct (Nat.ltb_spec 0 (length apps)) as [_|?]; [|lia].
  destruct (Nat.ltb_spec 1 (length apps)) as [_|?]; [|lia].
  assert (set_union (map_to_list m).*2 = ⋃ (present_on_channel1 <$> apps))
    as ->.
  { apply set_eq. intros x. unfold set_union.
    rewrite !elem_of_union_list. by setoid_rewrite Hsets. }
  assert (present_on_channel1 <$> apps ≠ []) as Hne.
  { destruct apps; [simpl in Hlen; lia|done]. }
  destruct (set_intersection (map_to_list m).*2) as [common|] eqn:Hcommon.
  2: { destruct (map_to_list m).*2 as [|s l] eqn:E; [|done].
       apply Permutation_nil_l in Hsets. by symmetry in Hsets. }
  assert (common = intersection_of (present_on_channel1 <$> apps)) as ->.
  { apply set_eq. intros x.
    rewrite (elem_of_set_intersection _ _ x Hcommon), elem_of_intersection_of
      by done.
    by setoid_rewrite Hsets. }
  simpl. unfold homogeneity.
  destruct (Nat.ltb_spec 0 (size (⋃ (present_on_channel1 <$> apps))))
    as [Hpos|Hzero].
  - rewrite pva_percent_pos by done. simpl. eexists. split_and!; [done..|].
    simpl. unfold Qdiv. ring.
  - simpl. eexists. split_and!; [done..|]. simpl.
    assert (size (⋃ (present_on_channel1 <$> apps)) = 0) as -> by lia.
    unfold Qdiv. change (/ Py.of_nat 0)%Q with 0%Q. ring.
Qed.

(** Apart from genres in which two applications share their name, the
    reported ratio is 100 times the size of the intersection over the size
    of the union of the per-application sets. *)
Lemma genre_comparison_distinct_names (apps : list app) :
  ∃ rows,
    prepare_genre_comparison_data apps = Some rows
    ∧ ∀ row, row ∈ rows →
        NoDup (app_name <$> filter (fun a => genre a = cmp_genre row) apps) →
        (common_ratio row == homogeneity (genre_sets apps (cmp_genre row)))%Q.
Proof.
  unfold prepare_genre_comparison_data. rewrite ordered_genre_apps_members.
  destruct (genre_comparison_rows_of apps (first_occurrences (genre <$> apps)))
    as (rows & -> & _ & Hall).
  exists (omap id rows). split; [done|]. intros row Hrow Hnames.
  destruct (proj1 (Forall_forall _ _) Hall row Hrow) as (Hsome & Hcount & Hge).
  rewrite Hcount in Hge.
  destruct (compare_genre_distinct_names (cmp_genre row) _ Hge Hnames)
    as (row' & Hsome' & _ & _ & Hratio).
  rewrite Hsome in Hsome'.
  injection Hsome' as <-. exact Hratio.
Qed.

(** C9 (the code departs from the claim).  [app_permissions] is keyed by the
    display name, so applications of a genre that share a name are merged
    into the entry of the last one.  In [duplicate_name_apps] the five
    applications of the genre have the sets {Camera}, {Location} (four
    times): the intersection is empty and the ratio of the claim is 0, but
    the reported row has one common category out of one and ratio 100. *)
Theorem genre_comparison_merges_equal_names :
  ∃ row,
    prepare_genre_comparison_data duplicate_name_apps = Some [row]
    ∧ cmp_genre row = "Tools"
    ∧ app_count row = 5
    ∧ elements (common_permissions row) = ["Location"]
    ∧ total_permissions row = 1
    ∧ Qred (common_ratio row) = 100%Q
    ∧ length (genre_sets duplicate_name_apps "Tools") = 5
    ∧ size (⋃ genre_sets duplicate_name_apps "Tools") = 2
    ∧ size (intersection_of (genre_sets duplicate_name_apps "Tools")) = 0
    ∧ Qred (homogeneity (genre_sets duplicate_name_apps "Tools")) = 0%Q.
Proof. eexists. split_and!; vm_compute; reflexivity. Qed.

End GenreComparison.

(** ** Writing the triples and reading them back (C7) *)

Section Strings.

Lemma append_cons (x : ascii) (a b : string) :
  String x a +:+ b = String x (a +:+ b).
Proof. reflexivity. Qed.

Lemma append_nil_l (a : string) : "" +:+ a = a.
Proof. reflexivity. Qed.

Lemma append_assoc (a b c : string) : (a +:+ b) +:+ c = a +:+ (b +:+ c).
Proof.
  induction a as [|x a IH]; [done|]. rewrite !append_cons. by rewrite IH.
Qed.

Lemma append_nil_r (a : string) : a +:+ "" = a.
Proof.
  induction a as [|x a IH]; [done|]. rewrite append_cons. by rewrite IH.
Qed.

Lemma contains_char_append (c : ascii) (a b : string) :
  Py.contains_char c (a +:+ b) = Py.contains_char c a || Py.contains_char c b.
Proof.
  induction a as [|x a IH]; [done|]. rewrite append_cons. simpl.
  destruct (Ascii.eqb x c); [done|]. apply IH.
Qed.

Lemma single_line_append (a b : string) :
  Spec.single_line a → Spec.single_line b → Spec.single_line (a +:+ b).
Proof.
  intros [Ha1 Ha2] [Hb1 Hb2]. split; rewrite contains_char_append.
  - by rewrite Ha1, Hb1.
  - by rewrite Ha2, Hb2.
Qed.

Lemma universal_newlines_line (a rest : string) :
  Py.contains_char Py.CR a = false →
  Py.universal_newlines (a +:+ Generator.NL +:+ rest)
  = a +:+ Generator.NL +:+ Py.universal_newlines rest.
Proof.
  induction a as [|x a IH]; intros Ha.
  - reflexivity.
  - simpl in Ha. rewrite !append_cons. simpl.
    destruct (Ascii.eqb x Py.CR); [done|]. by rewrite IH.
Qed.

Lemma lines_of_line (a rest : string) :
  Py.contains_char Py.LF a = false →
  Py.lines_of (a +:+ Generator.NL +:+ rest)
  = (a +:+ Generator.NL) :: Py.lines_of rest.
Proof.
  induction a as [|x a IH]; intros Ha.
  - reflexivity.
  - simpl in Ha. rewrite !append_cons. simpl.
    destruct (Ascii.eqb x Py.LF); [done|]. by rewrite IH.
Qed.

(** Reading back a line that was written with its line feed. *)
Lemma readlines_line (a rest : string) :
  Spec.single_line a →
  Py.readlines (a +:+ Generator.NL +:+ rest)
  = (a +:+ Generator.NL) :: Py.readlines rest.
Proof.
  intros [Hlf Hcr]. unfold Py.readlines.
  by rewrite universal_newlines_line, lines_of_line.
Qed.

Lemma readlines_join (lines : list string) :
  Forall Spec.single_line lines →
  Py.readlines (Spec.join_onto lines "")
  = (fun l => l +:+ Generator.NL) <$> lines.
Proof.
  induction 1 as [|l lines Hl _ IH]; [done|].
  simpl. by rewrite readlines_line, IH.
Qed.

Lemma join_onto_app (ls ks : list string) (rest : string) :
  Spec.join_onto (ls ++ ks) rest = Spec.join_onto ls (Spec.join_onto ks rest).
Proof. unfold Spec.join_onto. by rewrite foldr_app. Qed.

(** A byte that begins no white-space character. *)
Lemma starts_no_space_spec (a : ascii) :
  Spec.starts_no_space a = true →
  Py.isspace a = false
  ∧ (∀ b, Py.isspace2 a b = false)
  ∧ (∀ b c, Py.isspace3 a b c = false).
Proof.
  unfold Spec.starts_no_space. intros [Hone Hlead]%andb_true_iff.
  apply negb_true_iff in Hone. apply negb_true_iff, bool_decide_eq_false in Hlead.
  split_and!; [done| |].
  - intros b. unfold Py.isspace2.
    destruct (Nat.eqb_spec (nat_of_ascii a) 194) as [E|_]; [|done].
    exfalso. apply Hlead. rewrite E. set_solver.
  - intros b c. unfold Py.isspace3. cbv zeta.
    destruct (Nat.eqb_spec (nat_of_ascii a) 225) as [E|_].
    { exfalso. apply Hlead. rewrite E. set_solver. }
    destruct (Nat.eqb_spec (nat_of_ascii a) 226) as [E|_].
    { exfalso. apply Hlead. rewrite E. set_solver. }
    destruct (Nat.eqb_spec (nat_of_ascii a) 227) as [E|_]; [|done].
    exfalso. apply Hlead. rewrite E. set_solver.
Qed.

Lemma all_space_plain (a : ascii) (s : string) :
  Spec.starts_no_space a = true → Py.all_space (String a s) = false.
Proof.
  intros (H1 & H2 & H3)%starts_no_space_spec. cbn [Py.all_space]. rewrite H1.
  destruct s as [|b [|c s]]; [done| |].
  - by rewrite H2.
  - by rewrite H2, H3.
Qed.

Lemma lstrip_plain (a : ascii) (s : string) :
  Spec.starts_no_space a = true → Py.lstrip (String a s) = String a s.
Proof.
  intros (H1 & H2 & H3)%starts_no_space_spec. cbn [Py.lstrip]. rewrite H1.
  destruct s as [|b [|c s]]; [done| |].
  - by rewrite H2.
  - by rewrite H2, H3.
Qed.

Lemma rstrip_cons (a : ascii) (s : string) :
  Py.rstrip (String a s)
  = if Py.all_space (String a s) then "" else String a (Py.rstrip s).
Proof. reflexivity. Qed.

Lemma rstrip_prefix (p x : string) :
  Spec.plain p = true → Py.rstrip (p +:+ x) = p +:+ Py.rstrip x.
Proof.
  induction p as [|a p IH]; [done|]. cbn [Spec.plain].
  intros [Ha Hp]%andb_true_iff.
  rewrite !append_cons, rstrip_cons, all_space_plain by done.
  by rewrite IH.
Qed.

(** Stripping a line keeps a prefix none of whose bytes begins a white-space
    character. *)
Lemma strip_prefixed (p x : string) :
  p ≠ "" → Spec.plain p = true → Py.strip (p +:+ x) = p +:+ Py.rstrip x.
Proof.
  intros Hne Hp. unfold Py.strip.
  destruct p as [|a p]; [done|]. pose proof Hp as Hp'. cbn [Spec.plain] in Hp'.
  apply andb_true_iff in Hp' as [Ha _].
  rewrite append_cons, lstrip_plain by done.
  rewrite <- append_cons. by apply rstrip_prefix.
Qed.

(** No white-space character of several bytes contains a line feed. *)
Lemma all_space_line_feed (s : string) :
  Py.all_space (s +:+ Generator.NL) = Py.all_space s.
Proof.
  assert (∀ n s, (String.length s ≤ n)%nat →
            Py.all_space (s +:+ Generator.NL) = Py.all_space s) as Hind.
  2:{ by apply (Hind (String.length s)). }
  clear s. induction n as [|n IH]; intros s Hlen.
  { destruct s; [reflexivity|simpl in Hlen; lia]. }
  destruct s as [|a [|b [|c s]]]; [reflexivity| | |].
  - rewrite append_cons, append_nil_l. unfold Generator.NL. cbn [Py.all_space].
    destruct (Py.isspace a); [reflexivity|].
    unfold Py.isspace2. change (nat_of_ascii Py.LF) with 10.
    by rewrite andb_false_r.
  - rewrite !append_cons, append_nil_l. unfold Generator.NL. cbn [Py.all_space].
    destruct (Py.isspace a).
    + destruct (Py.isspace b); [reflexivity|].
      unfold Py.isspace2. change (nat_of_ascii Py.LF) with 10.
      by rewrite andb_false_r.
    + destruct (Py.isspace2 a b); [reflexivity|].
      unfold Py.isspace3. cbv zeta. change (nat_of_ascii Py.LF) with 10.
      cbn [Nat.eqb Nat.leb]. by rewrite !andb_false_r.
  - rewrite !append_cons.
    change (Py.all_space (String a (String b (String c (s +:+ Generator.NL)))))
      with (if Py.isspace a then Py.all_space (String b (String c s) +:+ Generator.NL)
            else if Py.isspace2 a b then Py.all_space (String c s +:+ Generator.NL)
            else Py.isspace3 a b c && Py.all_space (s +:+ Generator.NL)).
    change (Py.all_space (String a (String b (String c s))))
      with (if Py.isspace a then Py.all_space (String b (String c s))
            else if Py.isspace2 a b then Py.all_space (String c s)
            else Py.isspace3 a b c && Py.all_space s).
    simpl in Hlen.
    rewrite (IH (String b (String c s))), (IH (String c s)), (IH s)
      by (simpl; lia).
    reflexivity.
Qed.

Lemma rstrip_line_feed (s : string) : Py.rstrip (s +:+ Generator.NL) = Py.rstrip s.
Proof.
  induction s as [|a s IH]; [reflexivity|].
  rewrite append_cons, !rstrip_cons, <- append_cons, all_space_line_feed.
  by rewrite IH.
Qed.

Lemma lstrip_shorter (s : string) :
  Py.lstrip s = s ∨ (String.length (Py.lstrip s) < String.length s)%nat.
Proof.
  assert (∀ n s, (String.length s ≤ n)%nat →
            Py.lstrip s = s ∨ (String.length (Py.lstrip s) < String.length s)%nat)
    as Hind.
  2:{ by apply (Hind (String.length s)). }
  clear s. induction n as [|n IH]; intros s Hlen.
  { destruct s; [by left|simpl in Hlen; lia]. }
  destruct s as [|a s1]; [by left|]. simpl in Hlen. cbn [Py.lstrip].
  destruct (Py.isspace a).
  { right. destruct (IH s1 ltac:(lia)) as [->|?]; simpl; lia. }
  destruct s1 as [|b s2]; [by left|]. simpl in Hlen.
  destruct (Py.isspace2 a b).
  { right. destruct (IH s2 ltac:(lia)) as [->|?]; simpl; lia. }
  destruct s2 as [|c s3]; [by left|]. simpl in Hlen.
  destruct (Py.isspace3 a b c); [|by left].
  right. destruct (IH s3 ltac:(lia)) as [->|?]; simpl; lia.
Qed.

Lemma rstrip_shorter (s : string) :
  (String.length (Py.rstrip s) ≤ String.length s)%nat.
Proof.
  induction s as [|a s IH]; [done|]. rewrite rstrip_cons.
  destruct (Py.all_space (String a s)); simpl; lia.
Qed.

(** A string that [strip] leaves unchanged has no white space at either
    end. *)
Lemma trimmed_ends (s : string) :
  Spec.trimmed s → Py.lstrip s = s ∧ Py.rstrip s = s.
Proof.
  unfold Spec.trimmed, Py.strip. intros Hs.
  destruct (lstrip_shorter s) as [Hl|Hl].
  - by rewrite Hl in Hs.
  - pose proof (rstrip_shorter (Py.lstrip s)) as Hr. rewrite Hs in Hr. lia.
Qed.

Lemma rstrip_field_line (field : string) :
  Spec.trimmed field →
  Py.rstrip (" " +:+ field +:+ Generator.NL) = (if decide (field = "") then "" else " " +:+ field)
  ∧ Py.strip (if decide (field = "") then "" else " " +:+ field) = field.
Proof.
  intros [Hl Hr]%trimmed_ends.
  change (" " +:+ field +:+ Generator.NL) with (String " " (field +:+ Generator.NL)).
  destruct (decide (field = "")) as [->|Hne]; [done|].
  rewrite rstrip_cons.
  change (Py.all_space (String " " (field +:+ Generator.NL)))
    with (Py.all_space (field +:+ Generator.NL)).
  rewrite all_space_line_feed, rstrip_line_feed, Hr.
  assert (Py.all_space field = false) as Hspace.
  { destruct field as [|a f]; [done|]. rewrite rstrip_cons in Hr.
    by destruct (Py.all_space (String a f)). }
  rewrite Hspace. split; [done|].
  unfold Py.strip. change (Py.lstrip (" " +:+ field)) with (Py.lstrip field).
  by rewrite Hl, Hr.
Qed.

End Strings.

Section Writing.
Import Generator Spec.

Lemma concat_cons (x : string) (l : list string) :
  String.concat "" (x :: l) = x +:+ String.concat "" l.
Proof. destruct l; simpl; [by rewrite append_nil_r|done]. Qed.

Lemma triple_line_text (t : triple) : triple_line t = triple_text t +:+ NL.
Proof.
  destruct t as [[c p] s]. unfold triple_line, triple_text. simpl.
  by rewrite !append_assoc.
Qed.

Lemma concat_triple_lines (ts : list triple) (rest : string) :
  String.concat "" (triple_line <$> ts) +:+ rest
  = join_onto (triple_text <$> ts) rest.
Proof.
  induction ts as [|t ts IH]; [done|].
  rewrite fmap_cons, concat_cons, append_assoc, IH, triple_line_text.
  simpl. by rewrite append_assoc.
Qed.

(** What is written for one application is the text of its lines. *)
Lemma write_block_join (last : bool) (block : app_info * list triple)
    (rest : string) :
  write_block last block +:+ rest = join_onto (block_lines last block) rest.
Proof.
  destruct block as [key ts]. unfold write_block, block_lines.
  rewrite !join_onto_app. simpl.
  rewrite !append_assoc, concat_triple_lines.
  destruct last; simpl; [done|]. by rewrite !append_assoc.
Qed.

Lemma write_blocks_join (blocks : list (app_info * list triple)) :
  write_blocks blocks = join_onto (all_lines blocks) "".
Proof.
  induction blocks as [|b blocks IH]; [done|].
  destruct blocks as [|b' blocks].
  - change (write_block true b = join_onto (block_lines true b) "").
    by rewrite <- write_block_join, append_nil_r.
  - change (write_blocks (b :: b' :: blocks))
      with (write_block false b +:+ write_blocks (b' :: blocks)).
    change (all_lines (b :: b' :: blocks))
      with (block_lines false b ++ all_lines (b' :: blocks)).
    by rewrite join_onto_app, write_block_join, IH.
Qed.

Lemma save_results_join (results : list result) :
  save_results results
  = join_onto (HEADER :: all_lines (group_results results)) "".
Proof. unfold save_results. by rewrite write_blocks_join. Qed.

End Writing.

Section Reading.
Import TripleReader Generator Spec.

(** How the reader treats each kind of written line. *)

Lemma process_name_line (st : reader_state) (field : string) :
  ∃ d, nonempty_dict d = true
       ∧ process_line st (("应用名称: " +:+ field) +:+ NL)
         = if pending st
           then {| apps_data := saved st; current_app := d; triples := [] |}
           else {| apps_data := apps_data st; current_app := d;
                   triples := triples st |}.
Proof.
  unfold process_line.
  change (("应用名称: " +:+ field) +:+ NL)
    with (NAME_PREFIX +:+ (" " +:+ field +:+ NL)).
  rewrite strip_prefixed by (discriminate || reflexivity).
  generalize (Py.rstrip (" " +:+ field +:+ NL)). intros y. cbv zeta.
  replace (String.eqb (NAME_PREFIX +:+ y) "") with false
    by (vm_compute; reflexivity).
  replace (Py.startswith NAME_PREFIX (NAME_PREFIX +:+ y)) with true
    by (vm_compute; reflexivity).
  eexists. split; [|reflexivity]. reflexivity.
Qed.

Lemma process_id_line (st : reader_state) (field : string) :
  ∃ d, nonempty_dict d = true
       ∧ process_line st (("应用ID: " +:+ field) +:+ NL)
         = {| apps_data := apps_data st; current_app := d;
              triples := triples st |}.
Proof.
  unfold process_line.
  change (("应用ID: " +:+ field) +:+ NL)
    with (ID_PREFIX +:+ (" " +:+ field +:+ NL)).
  rewrite strip_prefixed by (discriminate || reflexivity).
  generalize (Py.rstrip (" " +:+ field +:+ NL)). intros y. cbv zeta.
  replace (String.eqb (ID_PREFIX +:+ y) "") with false
    by (vm_compute; reflexivity).
  replace (Py.startswith NAME_PREFIX (ID_PREFIX +:+ y)) with false
    by (vm_compute; reflexivity).
  replace (Py.startswith ID_PREFIX (ID_PREFIX +:+ y)) with true
    by (vm_compute; reflexivity).
  eexists. split; [|reflexivity].
  unfold nonempty_dict. simpl. by rewrite ?orb_true_r.
Qed.

Lemma process_genre_line (st : reader_state) (field : string) :
  ∃ d, nonempty_dict d = true
       ∧ process_line st (("应用类别: " +:+ field) +:+ NL)
         = {| apps_data := apps_data st; current_app := d;
              triples := triples st |}.
Proof.
  unfold process_line.
  change (("应用类别: " +:+ field) +:+ NL)
    with (GENRE_PREFIX +:+ (" " +:+ field +:+ NL)).
  rewrite strip_prefixed by (discriminate || reflexivity).
  generalize (Py.rstrip (" " +:+ field +:+ NL)). intros y. cbv zeta.
  replace (String.eqb (GENRE_PREFIX +:+ y) "") with false
    by (vm_compute; reflexivity).
  replace (Py.startswith NAME_PREFIX (GENRE_PREFIX +:+ y)) with false
    by (vm_compute; reflexivity).
  replace (Py.startswith ID_PREFIX (GENRE_PREFIX +:+ y)) with false
    by (vm_compute; reflexivity).
  replace (Py.startswith GENRE_PREFIX (GENRE_PREFIX +:+ y)) with true
    by (vm_compute; reflexivity).
  eexists. split; [|reflexivity].
  unfold nonempty_dict. simpl. by rewrite ?orb_true_r.
Qed.

(** The lines that do not depend on the application are evaluated. *)

Lemma process_triples_header (st : reader_state) :
  process_line st ("权限三元组:" +:+ NL) = st.
Proof. evaluate_line. Qed.

Lemma process_separator (st : reader_state) :
  process_line st (SEPARATOR +:+ NL)
  = if pending st
    then {| apps_data := saved st; current_app := empty_dict; triples := [] |}
    else st.
Proof. evaluate_line. Qed.

Lemma process_generated_triple_lines :
  Forall (fun t => ∀ st,
            process_line st (triple_text t +:+ NL)
            = {| apps_data := apps_data st; current_app := current_app st;
                 triples := triples st ++ [as_triple t] |})
         all_triples.
Proof.
  let l := eval vm_compute in all_triples in change all_triples with l.
  repeat (apply Forall_cons; split; [intros st; evaluate_line|]).
  apply Forall_nil. done.
Qed.

End Reading.

Section GeneratedBlocks.
Import Generator Spec.

Lemma expected_results_generated (app : app_data) :
  Forall (fun r : result => r.1.1.1 = info_of app
                            ∧ (r.1.1.2, r.1.2, r.2) ∈ all_triples)
         (expected_results app).
Proof.
  apply Forall_forall. intros r Hr. unfold expected_results in Hr.
  apply list_elem_of_bind in Hr as ([field ch] & Hr & Hch).
  apply list_elem_of_fmap in Hr as (cat & -> & Hcat). simpl.
  split; [done|]. unfold all_triples.
  apply list_elem_of_bind. exists ch. split.
  - apply list_elem_of_bind. exists cat. split; [|done].
    apply list_elem_of_bind. exists (expected_status app field cat).
    split; [left|]. unfold expected_status. case_decide.
    + right. left.
    + left.
  - apply list_elem_of_fmap. by exists (field, ch).
Qed.

Lemma analyze_permissions_generated (app : app_data) :
  Forall (fun r : result => r.1.1.1 = info_of app
                            ∧ (r.1.1.2, r.1.2, r.2) ∈ all_triples)
         (analyze_permissions app).
Proof.
  rewrite (analyze_permissions_expected app). apply expected_results_generated.
Qed.

Lemma process_app_database_generated (apps : list app_data) :
  Forall single_line_record apps →
  Forall (fun r : result => single_line_info r.1.1.1
                            ∧ (r.1.1.2, r.1.2, r.2) ∈ all_triples)
         (process_app_database apps).
Proof.
  intros Happs. unfold process_app_database.
  apply Forall_forall. intros r Hr.
  apply list_elem_of_bind in Hr as (app & Hr & Happ).
  pose proof (proj1 (Forall_forall _ _) Happs app Happ) as Hline.
  pose proof (proj1 (Forall_forall _ _) (analyze_permissions_generated app) r Hr)
    as [Hinfo Htriple].
  split; [|done]. by rewrite Hinfo.
Qed.

Lemma add_result_generated (key : app_info) (t : triple)
    (blocks : list (app_info * list triple)) :
  single_line_info key → t ∈ all_triples →
  Forall generated_block blocks →
  Forall generated_block (add_result key t blocks).
Proof.
  intros Hkey Ht. induction 1 as [|[k ts] blocks Hb Hblocks IH]; simpl.
  - apply Forall_cons. split; [|done]. split_and!; [done|done|].
    by apply Forall_singleton.
  - destruct Hb as (Hk & Hne & Hall). simpl in *. case_decide.
    + apply Forall_cons. split; [|done]. split_and!; simpl; [done| |].
      * by destruct ts.
      * apply Forall_app. split; [done|]. by apply Forall_singleton.
    + apply Forall_cons. split; [|done]. by split_and!.
Qed.

Lemma group_results_generated (results : list result) :
  Forall (fun r : result => single_line_info r.1.1.1
                            ∧ (r.1.1.2, r.1.2, r.2) ∈ all_triples) results →
  Forall generated_block (group_results results).
Proof.
  unfold group_results. induction results as [|r results IH] using rev_ind.
  - intros _. apply Forall_nil. done.
  - intros [Hresults Hr]%Forall_app. rewrite Forall_singleton in Hr.
    rewrite foldl_snoc. destruct r as [[[info ch] cat] s].
    simpl in Hr. destruct Hr as [Hinfo Ht].
    apply add_result_generated; [done..|].
    by apply IH.
Qed.

(** The lines of a generated block fit on single lines. *)
Lemma generated_triples_single_line :
  Forall (fun t => single_line (triple_text t)) all_triples.
Proof.
  let l := eval vm_compute in all_triples in change all_triples with l.
  repeat (apply Forall_cons; split; [split; vm_compute; reflexivity|]).
  apply Forall_nil. done.
Qed.

Lemma block_lines_single_line (last : bool) (block : app_info * list triple) :
  generated_block block → Forall single_line (block_lines last block).
Proof.
  destruct block as [key ts]. intros ((Hname & Hid & Hgenre) & _ & Hts).
  simpl in *. unfold block_lines. simpl.
  repeat (apply Forall_cons; split).
  - apply single_line_append; [|done]. split; vm_compute; reflexivity.
  - apply single_line_append; [|done]. split; vm_compute; reflexivity.
  - apply single_line_append; [|done]. split; vm_compute; reflexivity.
  - split; vm_compute; reflexivity.
  - apply Forall_app. split.
    + apply Forall_fmap. eapply Forall_impl; [exact Hts|].
      intros t Ht. simpl.
      by apply (proj1 (Forall_forall _ _) generated_triples_single_line).
    + destruct last; [apply Forall_nil; done|].
      apply Forall_singleton. split; vm_compute; reflexivity.
Qed.

Lemma all_lines_single_line (blocks : list (app_info * list triple)) :
  Forall generated_block blocks → Forall single_line (all_lines blocks).
Proof.
  induction 1 as [|b blocks Hb Hblocks IH]; [apply Forall_nil; done|].
  destruct blocks as [|b' blocks].
  - by apply block_lines_single_line.
  - change (all_lines (b :: b' :: blocks))
      with (block_lines false b ++ all_lines (b' :: blocks)).
    apply Forall_app. split; [by apply block_lines_single_line|done].
Qed.

End GeneratedBlocks.

Section KeyGroups.
Import Generator Spec.

(** Adding a triple to the blocks of pairwise distinct keys. *)
Lemma add_result_keys (key : app_info) (t : triple) (keys : list app_info)
    (f : app_info → list triple) :
  NoDup keys →
  add_result key t ((fun k => (k, f k)) <$> keys)
  = if decide (key ∈ keys)
    then (fun k => (k, if decide (k = key) then f k ++ [t] else f k)) <$> keys
    else ((fun k => (k, f k)) <$> keys) ++ [(key, [t])].
Proof.
  induction 1 as [|k keys Hk Hkeys IH]; [done|].
  rewrite !fmap_cons. cbn [add_result].
  destruct (decide (k = key)) as [->|Hne].
  - rewrite decide_True by left. f_equal.
    apply list_fmap_ext. intros _ k' Hk'%list_elem_of_lookup_2.
    rewrite decide_False; [done|]. by intros ->.
  - rewrite IH. destruct (decide (key ∈ keys)) as [Hin|Hout].
    + rewrite decide_True by by right. done.
    + rewrite decide_False; [done|].
      intros [->|?]%elem_of_cons; done.
Qed.

Lemma triples_of_snoc (key : app_info) (results : list result) (r : result) :
  triples_of key (results ++ [r])
  = triples_of key results
    ++ (if decide (r.1.1.1 = key) then [(r.1.1.2, r.1.2, r.2)] else []).
Proof.
  unfold triples_of. rewrite filter_app, fmap_app, filter_cons, filter_nil.
  by case_decide.
Qed.

Lemma triples_of_absent (key : app_info) (results : list result) :
  key ∉ (fun r : result => r.1.1.1) <$> results → triples_of key results = [].
Proof.
  intros Hkey. unfold triples_of.
  destruct (filter _ results) as [|r l] eqn:E; [done|]. exfalso.
  assert (r ∈ filter (fun r : result => r.1.1.1 = key) results) as Hr
    by (rewrite E; left).
  apply list_elem_of_filter in Hr as [Hk Hr]. apply Hkey.
  apply list_elem_of_fmap. by exists r.
Qed.

(** The blocks of [save_results]: one for each distinct key, in the order of
    first occurrence, with the triples of the key. *)
Lemma group_results_blocks (results : list result) :
  group_results results
  = (fun key => (key, triples_of key results))
      <$> first_occurrences ((fun r : result => r.1.1.1) <$> results).
Proof.
  induction results as [|r results IH] using rev_ind; [done|].
  unfold group_results. rewrite foldl_snoc. fold (group_results results).
  rewrite IH. destruct r as [[[key ch] cat] s].
  rewrite add_result_keys by apply NoDup_first_occurrences.
  rewrite fmap_app, list_fmap_singleton, first_occurrences_snoc. simpl.
  destruct (decide (key ∈ (fun r : result => r.1.1.1) <$> results))
    as [Hin|Hout].
  - rewrite decide_True by by apply elem_of_first_occurrences.
    apply list_fmap_ext. intros _ k _. rewrite triples_of_snoc. simpl.
    destruct (decide (k = key)) as [->|Hne].
    + by rewrite decide_True.
    + rewrite decide_False by done. by rewrite app_nil_r.
  - rewrite decide_False by by rewrite elem_of_first_occurrences.
    rewrite fmap_app. f_equal.
    + apply list_fmap_ext. intros _ k Hk%list_elem_of_lookup_2.
      rewrite elem_of_first_occurrences in Hk.
      rewrite triples_of_snoc. simpl.
      rewrite decide_False; [by rewrite app_nil_r|].
      intros Heq. apply Hout. by rewrite Heq.
    + simpl. rewrite triples_of_snoc, triples_of_absent by done. simpl.
      by rewrite decide_True.
Qed.

Lemma analyze_permissions_keys (app : app_data) :
  Forall (fun key => key = info_of app)
         ((fun r : result => r.1.1.1) <$> analyze_permissions app)
  ∧ (fun r : result => r.1.1.1) <$> analyze_permissions app ≠ [].
Proof.
  split.
  - apply Forall_fmap. eapply Forall_impl; [apply analyze_permissions_generated|].
    by intros r [? _].
  - intros E. apply (f_equal length) in E. rewrite length_fmap in E.
    rewrite (Permutation_length (analyze_permissions_expected app)),
      expected_results_length in E. done.
Qed.

Lemma database_keys (apps : list app_data) (key : app_info) :
  key ∈ (fun r : result => r.1.1.1) <$> process_app_database apps
  ↔ key ∈ info_of <$> apps.
Proof.
  unfold process_app_database. rewrite !list_elem_of_fmap. split.
  - intros (r & -> & (app & Hr & Happ)%list_elem_of_bind).
    exists app. split; [|done].
    pose proof (proj1 (Forall_forall _ _) (analyze_permissions_generated app) r Hr)
      as [? _]. done.
  - intros (app & -> & Happ).
    destruct (analyze_permissions app) as [|r rs] eqn:E.
    { destruct (analyze_permissions_keys app) as [_ Hne]. by rewrite E in Hne. }
    exists r. split.
    + pose proof (analyze_permissions_generated app) as Hall.
      rewrite E in Hall. apply Forall_cons in Hall as [[? _] _]. done.
    + apply list_elem_of_bind. exists app. split; [|done]. rewrite E. left.
Qed.

Lemma triples_of_app (key : app_info) (l k : list result) :
  triples_of key (l ++ k) = triples_of key l ++ triples_of key k.
Proof. unfold triples_of. by rewrite filter_app, fmap_app. Qed.

Lemma triples_of_own (app : app_data) :
  triples_of (info_of app) (analyze_permissions app)
  = (fun r : result => (r.1.1.2, r.1.2, r.2)) <$> analyze_permissions app.
Proof.
  unfold triples_of. f_equal.
  pose proof (analyze_permissions_generated app) as Hall.
  induction Hall as [|r rs [Hr _] _ IH]; [done|].
  rewrite filter_cons, decide_True by done. by rewrite IH.
Qed.

End KeyGroups.

Section RoundTrip.
Import TripleReader Generator Spec Inputs.

Lemma process_triple_lines (ts : list triple) (st : reader_state) :
  Forall (.∈ all_triples) ts →
  foldl process_line st ((fun l => l +:+ NL) <$> (triple_text <$> ts))
  = {| apps_data := apps_data st; current_app := current_app st;
       triples := TripleReader.triples st ++ (as_triple <$> ts) |}.
Proof.
  intros Hts. revert st. induction Hts as [|t ts Ht _ IH]; intros st.
  - simpl. rewrite app_nil_r. by destruct st.
  - rewrite !fmap_cons. cbn [foldl].
    rewrite (proj1 (Forall_forall _ _) process_generated_triple_lines t Ht st).
    rewrite IH. simpl. by rewrite <- app_assoc.
Qed.

Lemma not_pending (st : reader_state) :
  TripleReader.triples st = [] → pending st = false.
Proof. intros H. unfold pending. rewrite H. apply andb_false_r. Qed.

(** Reading the lines of one block, separator apart: the triples of the
    block are collected under a non-empty [current_app]. *)
Lemma process_block_lines (st : reader_state) (block : app_info * list triple) :
  generated_block block → TripleReader.triples st = [] →
  ∃ d, nonempty_dict d = true
       ∧ foldl process_line st ((fun l => l +:+ NL) <$> block_lines true block)
         = {| apps_data := apps_data st; current_app := d;
              triples := as_triple <$> block.2 |}.
Proof.
  destruct block as [key ts]. intros (_ & _ & Hts) Hnil. simpl in Hts.
  unfold block_lines. rewrite app_nil_r. simpl fst. simpl snd.
  rewrite fmap_app, foldl_app. rewrite !fmap_cons, fmap_nil. cbn [foldl].
  destruct (process_name_line st (app_name key)) as (d1 & _ & ->).
  rewrite (not_pending st Hnil).
  destruct (process_id_line
              {| apps_data := apps_data st; current_app := d1;
                 triples := TripleReader.triples st |} (app_id key))
    as (d2 & _ & ->). simpl.
  destruct (process_genre_line
              {| apps_data := apps_data st; current_app := d2;
                 triples := TripleReader.triples st |} (app_genre key))
    as (d3 & Hd3 & ->). simpl.
  rewrite process_triples_header, process_triple_lines by done. simpl.
  exists d3. split; [done|]. by rewrite Hnil.
Qed.

Lemma block_lines_separator (block : app_info * list triple) :
  block_lines false block = block_lines true block ++ [SEPARATOR].
Proof. unfold block_lines. by rewrite app_nil_r, <- !app_assoc. Qed.

Lemma pending_collected (apps : list app_dict) (d : app_dict)
    (ts : list triple) :
  nonempty_dict d = true → ts ≠ [] →
  pending {| apps_data := apps; current_app := d;
             triples := as_triple <$> ts |} = true.
Proof.
  intros Hd Hts. unfold pending. simpl. rewrite Hd. by destruct ts.
Qed.

(** Reading the lines of all the blocks. *)
Lemma parse_blocks (blocks : list (app_info * list triple)) (st : reader_state) :
  Forall generated_block blocks → TripleReader.triples st = [] →
  d_triples <$> finish (foldl process_line st
                          ((fun l => l +:+ NL) <$> all_lines blocks))
  = (d_triples <$> apps_data st)
    ++ ((fun block : app_info * list triple => as_triple <$> block.2)
          <$> blocks).
Proof.
  intros Hblocks. revert st.
  induction Hblocks as [|b blocks Hb Hblocks IH]; intros st Hnil.
  - simpl. unfold finish. rewrite (not_pending st Hnil). by rewrite app_nil_r.
  - destruct (process_block_lines st b Hb Hnil) as (d & Hd & Hblock).
    pose proof Hb as (_ & Hne & _).
    destruct blocks as [|b' blocks].
    + change (all_lines [b]) with (block_lines true b).
      rewrite Hblock. unfold finish.
      rewrite pending_collected by done.
      unfold saved. simpl. by rewrite fmap_app.
    + change (all_lines (b :: b' :: blocks))
        with (block_lines false b ++ all_lines (b' :: blocks)).
      rewrite block_lines_separator, !fmap_app, !foldl_app, Hblock.
      simpl foldl at 2. rewrite process_separator.
      rewrite pending_collected by done.
      rewrite IH by done. unfold saved. simpl.
      by rewrite fmap_app, <- app_assoc.
Qed.

Lemma header_single_line : single_line HEADER.
Proof. split; vm_compute; reflexivity. Qed.

(** Reading back what [save_results] wrote. *)
Lemma parse_saved_results (results : list result) :
  Forall generated_block (group_results results) →
  d_triples <$> parse_lines (skip_header (Py.readlines (save_results results)))
  = (fun block : app_info * list triple => as_triple <$> block.2)
      <$> group_results results.
Proof.
  intros Hblocks.
  rewrite save_results_join, readlines_join.
  2: { apply Forall_cons. split; [apply header_single_line|].
       by apply all_lines_single_line. }
  rewrite fmap_cons.
  assert (skip_header ((HEADER +:+ NL)
                       :: ((fun l => l +:+ NL) <$> all_lines (group_results results)))
          = (fun l => l +:+ NL) <$> all_lines (group_results results)) as ->.
  { unfold skip_header.
    replace (Py.contains_char ","%char (HEADER +:+ NL)) with true
      by (vm_compute; reflexivity).
    done. }
  unfold parse_lines. by rewrite parse_blocks.
Qed.

(** The keys of the results of a database are those of its records, in the
    same order of first occurrence. *)
Lemma database_first_keys (apps : list app_data) :
  first_occurrences ((fun r : result => r.1.1.1) <$> process_app_database apps)
  = first_occurrences (info_of <$> apps).
Proof.
  induction apps as [|a apps IH] using rev_ind; [done|].
  destruct (analyze_permissions_keys a) as [Hall Hne].
  assert (process_app_database (apps ++ [a])
          = process_app_database apps ++ analyze_permissions a) as ->.
  { unfold process_app_database. rewrite bind_app. simpl. by rewrite app_nil_r. }
  rewrite !fmap_app, (first_occurrences_app_same _ _ (info_of a)) by done.
  rewrite list_fmap_singleton, first_occurrences_snoc, IH.
  destruct (decide (info_of a ∈ info_of <$> apps)) as [Hin|Hout].
  - rewrite decide_True; [done|]. by apply database_keys.
  - rewrite decide_False; [done|]. by rewrite database_keys.
Qed.

Lemma triples_of_record (key : app_info) (a : app_data) :
  triples_of key (analyze_permissions a)
  = if decide (info_of a = key) then record_triples a else [].
Proof.
  case_decide as Hkey.
  - subst key. apply triples_of_own.
  - apply triples_of_absent. intros Hin. apply Hkey.
    destruct (analyze_permissions_keys a) as [Hall _].
    symmetry. by apply (proj1 (Forall_forall _ _) Hall).
Qed.

Lemma triples_of_database (key : app_info) (apps : list app_data) :
  triples_of key (process_app_database apps)
  = filter (fun app => info_of app = key) apps ≫= record_triples.
Proof.
  induction apps as [|a apps IH]; [done|].
  change (process_app_database (a :: apps))
    with (analyze_permissions a ++ process_app_database apps).
  rewrite triples_of_app, IH, triples_of_record, filter_cons.
  case_decide; [by rewrite bind_cons|done].
Qed.

(** [save_results] writes the blocks of the records. *)
Lemma group_results_records (apps : list app_data) :
  group_results (process_app_database apps) = record_blocks apps.
Proof.
  rewrite group_results_blocks, database_first_keys. unfold record_blocks.
  apply list_fmap_ext. intros _ key _. by rewrite triples_of_database.
Qed.

Lemma filter_key_NoDup (apps : list app_data) (a : app_data) :
  NoDup (info_of <$> apps) → a ∈ apps →
  filter (fun app => info_of app = info_of a) apps = [a].
Proof.
  induction apps as [|b apps IH]; intros Hkeys Ha.
  - by apply elem_of_nil in Ha.
  - rewrite fmap_cons in Hkeys. apply NoDup_cons in Hkeys as [Hb Hkeys].
    rewrite filter_cons. apply elem_of_cons in Ha as [->|Ha].
    + rewrite decide_True by done. f_equal.
      destruct (filter _ apps) as [|c l] eqn:E; [done|]. exfalso.
      assert (c ∈ filter (fun app => info_of app = info_of b) apps) as Hc
        by (rewrite E; left).
      apply list_elem_of_filter in Hc as [Hkey Hc]. apply Hb.
      rewrite <- Hkey. apply list_elem_of_fmap. by exists c.
    + rewrite decide_False; [by apply IH|].
      intros Hkey. apply Hb. rewrite Hkey. apply list_elem_of_fmap. by exists a.
Qed.

(** With pairwise distinct keys there is one block for each record. *)
Lemma distinct_record_blocks (apps : list app_data) :
  NoDup (info_of <$> apps) → record_blocks apps = block_of_record <$> apps.
Proof.
  intros Hkeys. unfold record_blocks.
  rewrite first_occurrences_NoDup, <- list_fmap_compose by done.
  apply list_fmap_ext. intros _ a Ha%list_elem_of_lookup_2. simpl.
  rewrite filter_key_NoDup by done.
  unfold block_of_record. by rewrite bind_cons, app_nil_r.
Qed.

(** C7 (as the claim states it, refuted).  The genre of [injecting_app]
    contains a line feed followed by the text of a triple line: the
    application is read back with 28 triples, 27 were generated.  And two
    records with the same name, identifier and genre are written as one
    block: one application is read back, with 54 triples, where two were
    given with 27 triples each. *)
Lemma round_trip_fails_on_line_break_or_equal_keys :
  (length <$> (d_triples <$>
     ConsistencyVisualization.load_triple_data
       (save_results (process_app_database [injecting_app]))) = [28]
   ∧ length <$> (record_triples <$> [injecting_app]) = [27])
  ∧ (length <$> (d_triples <$>
       ConsistencyVisualization.load_triple_data
         (save_results (process_app_database [phone_app; phone_app]))) = [54]
     ∧ length <$> (record_triples <$> [phone_app; phone_app]) = [27; 27]).
Proof. split_and!; vm_compute; reflexivity. Qed.

(** C7 (amended).  For every database whose names, identifiers and genres
    contain no line feed and no carriage return, writing the generated
    triples with [save_results] and reading the file back with either
    [load_triple_data] yields one application for each distinct (name, id,
    genre) key of the records, in the order in which the keys first occur,
    with the list of the triples that were generated for the records of that
    key; when no two records share their key this is, record by record, the
    list of triples generated for the record, hence the same multiset of
    (channel, category, status). *)
Theorem save_load_round_trip (apps : list app_data) :
  Forall single_line_record apps →
  d_triples <$>
    ConsistencyVisualization.load_triple_data
      (save_results (process_app_database apps))
  = generated_groups apps
  ∧ d_triples <$>
      PermissionVisualAnalysis.load_triple_data
        (save_results (process_app_database apps))
    = generated_groups apps
  ∧ (NoDup (info_of <$> apps) →
     d_triples <$>
       ConsistencyVisualization.load_triple_data
         (save_results (process_app_database apps))
     = (fun app => as_triple <$> record_triples app) <$> apps
     ∧ d_triples <$>
         PermissionVisualAnalysis.load_triple_data
           (save_results (process_app_database apps))
       = (fun app => as_triple <$> record_triples app) <$> apps).
Proof.
  intros Happs.
  pose proof (group_results_generated _ (process_app_database_generated apps Happs))
    as Hblocks.
  unfold ConsistencyVisualization.load_triple_data,
    PermissionVisualAnalysis.load_triple_data, generated_groups.
  rewrite parse_saved_results, group_results_records by done.
  split_and!; [done..|]. intros Hkeys.
  rewrite distinct_record_blocks, <- list_fmap_compose by done. done.
Qed.

Lemma save_load_round_trip_witness :
  d_triples <$>
    ConsistencyVisualization.load_triple_data
      (save_results (process_app_database [phone_app]))
  = generated_groups [phone_app]
  ∧ d_triples <$>
      PermissionVisualAnalysis.load_triple_data
        (save_results (process_app_database [phone_app]))
    = generated_groups [phone_app]
  ∧ (NoDup (info_of <$> [phone_app]) →
     d_triples <$>
       ConsistencyVisualization.load_triple_data
         (save_results (process_app_database [phone_app]))
     = (fun app => as_triple <$> record_triples app) <$> [phone_app]
     ∧ d_triples <$>
         PermissionVisualAnalysis.load_triple_data
           (save_results (process_app_database [phone_app]))
       = (fun app => as_triple <$> record_triples app) <$> [phone_app]).
Proof.
  apply (save_load_round_trip [phone_app]).
  apply Forall_cons. split; [|apply Forall_nil; exact I].
  repeat split; vm_compute; reflexivity.
Defined.

End RoundTrip.

(** * Further properties of the code *)

(** ** The vocabulary table and the mapping functions *)

Section Vocabulary.
Import Generator Spec.

Lemma reverse_add_items (permission : string) (items : list string)
    (rm : gmap string (list string)) (item p : string) :
  p ∈ default [] (foldl (reverse_add permission) rm items !! item)
  ↔ p ∈ default [] (rm !! item) ∨ (p = permission ∧ item ∈ items).
Proof.
  revert rm. induction items as [|i items IH]; intros rm; simpl.
  - rewrite elem_of_nil. naive_solver.
  - rewrite IH, elem_of_cons. unfold reverse_add.
    destruct (decide (i = item)) as [->|Hne].
    + rewrite lookup_insert_eq. simpl.
      rewrite elem_of_app, list_elem_of_singleton. naive_solver.
    + rewrite lookup_insert_ne by done. naive_solver.
Qed.

Lemma reverse_add_items_is_Some (permission : string) (items : list string)
    (rm : gmap string (list string)) (item : string) :
  is_Some (foldl (reverse_add permission) rm items !! item)
  ↔ is_Some (rm !! item) ∨ item ∈ items.
Proof.
  revert rm. induction items as [|i items IH]; intros rm; simpl.
  - rewrite elem_of_nil. naive_solver.
  - rewrite IH, elem_of_cons. unfold reverse_add.
    destruct (decide (i = item)) as [->|Hne].
    + rewrite lookup_insert_eq. split; [intros _; right; by left|].
      intros _. left. eauto.
    + rewrite lookup_insert_ne by done. naive_solver.
Qed.

(** The reverse table holds, for each raw item, the categories that list
    it, and has no key for the other strings. *)
Lemma reverse_mapping_of_spec (mapping : list (string * list string))
    (item p : string) :
  (p ∈ default [] (reverse_mapping_of mapping !! item)
   ↔ ∃ items, (p, items) ∈ mapping ∧ item ∈ items)
  ∧ (is_Some (reverse_mapping_of mapping !! item)
     ↔ ∃ q items, (q, items) ∈ mapping ∧ item ∈ items).
Proof.
  unfold reverse_mapping_of.
  induction mapping as [|[q items] mapping IH] using rev_ind.
  - simpl. rewrite lookup_empty. split; split.
    + by intros ?%elem_of_nil.
    + intros (? & ?%elem_of_nil & _). done.
    + by intros [? ?].
    + intros (? & ? & ?%elem_of_nil & _). done.
  - destruct IH as [IHm IHs]. rewrite foldl_snoc. split.
    + rewrite reverse_add_items, IHm. split.
      * intros [(its & Hin & Hitem)|[-> Hitem]].
        -- exists its. split; [|done]. apply elem_of_app. by left.
        -- exists items. split; [|done]. apply elem_of_app. right. left.
      * intros (its & [Hin|Hin%list_elem_of_singleton]%elem_of_app & Hitem).
        -- left. by exists its.
        -- right. by injection Hin as -> ->.
    + rewrite reverse_add_items_is_Some, IHs. split.
      * intros [(q' & its & Hin & Hitem)|Hitem].
        -- exists q', its. split; [|done]. apply elem_of_app. by left.
        -- exists q, items. split; [|done]. apply elem_of_app. right. left.
      * intros (q' & its & [Hin|Hin%list_elem_of_singleton]%elem_of_app & Hitem).
        -- left. by exists q', its.
        -- right. by injection Hin as -> ->.
Qed.

Lemma startswith_app (p q s : string) :
  Py.startswith (p +:+ q) s = true → Py.startswith p s = true.
Proof.
  revert s. induction p as [|a p IH]; intros s; [done|].
  rewrite append_cons. destruct s as [|b s]; simpl; [done|].
  intros [? ?]%andb_true_iff. apply andb_true_iff. split; [done|by apply IH].
Qed.

Lemma contains_app (p q s : string) :
  Py.contains (p +:+ q) s = true → Py.contains p s = true.
Proof.
  induction s as [|b s IH]; simpl.
  - rewrite !orb_false_r. apply startswith_app.
  - intros [?%startswith_app|?%IH]%orb_true_iff; apply orb_true_iff; auto.
Qed.

Lemma REVERSE_MAPPING_unfold :
  REVERSE_MAPPING = reverse_mapping_of PERMISSION_MAPPING.
Proof. unfold REVERSE_MAPPING, reverse_mapping_of. reflexivity. Qed.

(** X1.  [_map_single_item] returns exactly the categories under which
    [PERMISSION_MAPPING] lists the item; an item that is listed nowhere maps
    to Sensors when it contains "sensor" in any letter case, and to nothing
    otherwise.  The branch for 'App info and performance' and the test for
    "sensors" decide nothing. *)
Theorem map_single_item_spec (item cat : string) :
  cat ∈ _map_single_item item
  ↔ listed item cat
    ∨ ((∀ c, ¬ listed item c) ∧ cat = "Sensors"
       ∧ Py.contains "sensor" (Py.lower item) = true).
Proof.
  pose proof (reverse_mapping_of_spec PERMISSION_MAPPING item cat) as [Hm Hs].
  fold (listed item cat) in Hm.
  assert ((∃ q items, (q, items) ∈ PERMISSION_MAPPING ∧ item ∈ items)
          ↔ ∃ c, listed item c) as Hlisted by done.
  rewrite Hlisted in Hs. clear Hlisted.
  unfold _map_single_item. rewrite REVERSE_MAPPING_unfold.
  destruct (reverse_mapping_of PERMISSION_MAPPING !! item) as [perms|] eqn:E.
  - simpl in Hm. rewrite elem_of_list_to_set, Hm. split; [by left|].
    intros [?|[Hnone _]]; [done|]. exfalso.
    destruct (proj1 Hs) as [c Hc]; [eauto|]. by apply (Hnone c).
  - assert (∀ c, ¬ listed item c) as Hnone.
    { intros c Hc. destruct (proj2 Hs) as [? ?]; [by exists c|done]. }
    destruct (String.eqb_spec item "App info and performance") as [->|_].
    { vm_compute in E. discriminate. }
    clear E Hm Hs.
    destruct (Py.contains "sensor" (Py.lower item)) eqn:Hsensor.
    + rewrite orb_true_r, elem_of_singleton. split.
      * intros ->. right. split_and!; [exact Hnone|reflexivity..].
      * intros [Hc|(_ & -> & _)]; [exfalso; exact (Hnone _ Hc)|reflexivity].
    + assert (Py.contains "sensors" (Py.lower item) = false) as ->.
      { destruct (Py.contains "sensors" (Py.lower item)) eqn:Hs'; [|done].
        apply (contains_app "sensor" "s") in Hs'. congruence. }
      simpl. split; [intros Hc; exfalso; exact (not_elem_of_empty _ Hc)|].
      intros [Hc|(_ & _ & Hf)]; [exfalso; exact (Hnone _ Hc)|discriminate Hf].
Qed.

(** X2.  [map_to_permissions] collects the categories of all the items: a
    category is in the result exactly when one of the items maps to it, the
    result of a concatenation is the union of the results, and it only
    holds categories of the fixed list. *)
Theorem map_to_permissions_union (items more : list string) :
  map_to_permissions (items ++ more)
  = map_to_permissions items ∪ map_to_permissions more
  ∧ (∀ cat, cat ∈ map_to_permissions items
            ↔ ∃ item, item ∈ items ∧ cat ∈ _map_single_item item)
  ∧ (∀ cat, cat ∈ map_to_permissions items → cat ∈ PERMISSION_CATEGORIES).
Proof.
  split_and!.
  - apply set_eq. intros cat.
    rewrite elem_of_union, !elem_of_map_to_permissions.
    setoid_rewrite elem_of_app. naive_solver.
  - apply elem_of_map_to_permissions.
  - intros cat (item & _ & Hcat)%elem_of_map_to_permissions.
    by eapply map_single_item_categories.
Qed.

End Vocabulary.

(** ** The triples of an application record *)

Section GeneratedTriples.
Import Generator Spec Inputs.

(** X3.  The status that [analyze_permissions] emits for a channel and a
    category is 1 exactly when a raw item of the channel's field maps to
    the category (whatever the number and the order of such items), and 0
    otherwise; an absent field has no raw item and a scalar field has the
    single raw item [str(value)]. *)
Theorem status_reflects_raw_items (app : app_data) (field ch cat : string) :
  (field, ch) ∈ CHANNELS → cat ∈ PERMISSION_CATEGORIES →
  ∃ s, statuses_for (analyze_permissions app) ch cat = [s]
       ∧ (s = 0%Z ∨ s = 1%Z)
       ∧ (s = 1%Z ↔ ∃ item, item ∈ raw_items app field
                            ∧ cat ∈ _map_single_item item).
Proof.
  intros Hch Hcat. exists (expected_status app field cat). split_and!.
  - apply Permutation_singleton_r.
    rewrite (statuses_for_perm _ _ ch cat (analyze_permissions_expected app)).
    unfold expected_results.
    by rewrite (matrix_entry (info_of app) (expected_status app) field ch cat).
  - unfold expected_status. case_decide; auto.
  - unfold expected_status. rewrite <- elem_of_map_to_permissions.
    case_decide; split; done.
Qed.

Lemma status_reflects_raw_items_witness :
  ∃ s, statuses_for (analyze_permissions phone_app) "渠道一" "Phone" = [s]
       ∧ (s = 0%Z ∨ s = 1%Z)
       ∧ (s = 1%Z ↔ ∃ item, item ∈ raw_items phone_app "data_collected"
                            ∧ "Phone" ∈ _map_single_item item).
Proof.
  apply (status_reflects_raw_items phone_app "data_collected" "渠道一" "Phone").
  - apply (bool_decide_unpack _). vm_compute. reflexivity.
  - apply (bool_decide_unpack _). vm_compute. reflexivity.
Defined.

Lemma list_bind_nil {A B} (f : A → list B) : [] ≫= f = [].
Proof. reflexivity. Qed.

Lemma analyze_permissions_blocks (app : app_data) :
  analyze_permissions app
  = channel_results (info_of app) app ("data_collected", "渠道一")
    ++ channel_results (info_of app) app ("permission", "渠道二")
    ++ channel_results (info_of app) app ("security_practices", "渠道三").
Proof.
  unfold analyze_permissions, CHANNELS.
  by rewrite !bind_cons, list_bind_nil, app_nil_r.
Qed.

Lemma channel_results_channel (app : app_data) (field ch : string) :
  (fun r : result => r.1.1.2) <$> channel_results (info_of app) app (field, ch)
  = replicate 9 ch.
Proof.
  apply eq_sym, replicate_Permutation.
  rewrite (channel_results_expected app field ch), <- list_fmap_compose.
  done.
Qed.

(** A field that is absent or list-valued yields its nine triples in the
    order of the fixed list of categories. *)
Lemma channel_results_ordered (app : app_data) (field ch : string) :
  (∀ str_value, fields app !! field ≠ Some (FScalar str_value)) →
  channel_results (info_of app) app (field, ch)
  = (fun cat => (info_of app, ch, cat, expected_status app field cat))
      <$> PERMISSION_CATEGORIES.
Proof.
  intros Hscalar. unfold channel_results, expected_status, raw_items.
  destruct (fields app !! field) as [[items|str_value]|].
  - apply list_fmap_ext. intros _ cat _. by rewrite final_status_list.
  - by destruct (Hscalar str_value).
  - apply list_fmap_ext. intros _ cat _.
    rewrite decide_False; [done|]. unfold map_to_permissions. set_solver.
Qed.

(** X4.  The 27 triples of a record come channel by channel (渠道一, then
    渠道二, then 渠道三, nine triples each), all carry the name, identifier
    and genre of the record ('unknown' for a missing key), and, when no
    channel field is a scalar, the categories of each channel come in the
    order of [PERMISSION_CATEGORIES]. *)
Theorem analyze_permissions_layout (app : app_data) :
  (fun r : result => r.1.1.2) <$> analyze_permissions app
  = replicate 9 "渠道一" ++ replicate 9 "渠道二" ++ replicate 9 "渠道三"
  ∧ Forall (fun r : result => r.1.1.1 = info_of app) (analyze_permissions app)
  ∧ ((∀ field str_value, fields app !! field ≠ Some (FScalar str_value)) →
     analyze_permissions app = expected_results app).
Proof.
  split_and!.
  - by rewrite analyze_permissions_blocks, !fmap_app, !channel_results_channel.
  - eapply Forall_impl; [apply analyze_permissions_generated|].
    by intros r [? _].
  - intros Hscalar. rewrite analyze_permissions_blocks.
    rewrite !channel_results_ordered by done.
    unfold expected_results, CHANNELS.
    by rewrite !bind_cons, list_bind_nil, app_nil_r.
Qed.

(** X5.  [process_app_database] emits 27 triples for each record of the
    database, absent fields included. *)
Theorem process_app_database_length (apps : list app_data) :
  length (process_app_database apps) = 27 * length apps.
Proof.
  unfold process_app_database. induction apps as [|a apps IH]; [done|].
  rewrite bind_cons, length_app, IH.
  rewrite (Permutation_length (analyze_permissions_expected a)),
    expected_results_length.
  simpl. lia.
Qed.

End GeneratedTriples.

(** ** The grouping of [save_results] *)

Section GroupingByKey.
Import Generator Spec.

(** X6.  [save_results] groups the triples by (name, id, genre): there is
    one block for each distinct key, the blocks come in the order in which
    the keys first occur in the results, and a block holds the triples of
    its key in the order of the results. *)
Theorem group_results_by_key (results : list result) :
  (group_results results).*1
  = first_occurrences ((fun r : result => r.1.1.1) <$> results)
  ∧ NoDup (group_results results).*1
  ∧ Forall (fun block : app_info * list triple =>
              block.2 = triples_of block.1 results)
           (group_results results).
Proof.
  rewrite group_results_blocks.
  assert (((fun key => (key, triples_of key results))
             <$> first_occurrences ((fun r : result => r.1.1.1) <$> results)).*1
          = first_occurrences ((fun r : result => r.1.1.1) <$> results)) as Hkeys.
  { rewrite <- list_fmap_compose. apply list_fmap_id. }
  rewrite Hkeys. split_and!; [done|apply NoDup_first_occurrences|].
  apply Forall_fmap, Forall_forall. by intros key _.
Qed.

End GroupingByKey.

(** ** The counters of [calculate_metrics] *)

Section MetricCounters.
Import TripleReader ConsistencyVisualization Spec Inputs.
Import PermissionVisualAnalysis (group_triples).
Local Open Scope nat_scope.

(** The fields of the result, from the state that the main loop leaves. *)
Lemma calculate_metrics_fields (apps : list app) (st : loop_state) :
  main_loop apps = Some st →
  ∃ m, calculate_metrics apps = Some m
       ∧ overall_occ_trend_of st = Some (overall_occ_trend m)
       ∧ per_genre genre_occ_ratio (genre_occ st) = Some (m_genre_occ m)
       ∧ per_genre ccor_ratio (ccor_data st) = Some (ccor m)
       ∧ per_genre cccr_ratio (cccr_data st) = Some (cccr m)
       ∧ ica_ratio_of (ica_count st) (total_permissions st) = Some (ica_ratio m)
       ∧ m_ica_by_genre m = ica_by_genre st.
Proof.
  intros Hst.
  destruct (overall_occ_trend_total apps st Hst) as [trend Htrend].
  destruct (per_genre_total genre_occ_ratio (genre_occ st) genre_occ_ratio_total)
    as [r1 H1].
  destruct (per_genre_total ccor_ratio (ccor_data st) ccor_ratio_total) as [r2 H2].
  destruct (per_genre_total cccr_ratio (cccr_data st) cccr_ratio_total) as [r3 H3].
  destruct (ica_ratio_total (ica_count st) (total_permissions st)) as [r4 H4].
  eexists. unfold calculate_metrics. rewrite Hst. simpl.
  rewrite Htrend. simpl. rewrite H1. simpl. rewrite H2. simpl.
  rewrite H3. simpl. rewrite H4. simpl. done.
Qed.

(** One iteration of the loop over the triples, with the per-genre
    counter. *)
Lemma scan_triple_by_genre (app_genre : string) (seen : list triple) (t : triple)
    (ica : nat) (by_genre : gmap string nat) (total : nat) :
  scan_triple app_genre (group_triples seen, ica, by_genre, total) t
  = (group_triples (seen ++ [t]),
     ica + (if changes_status seen t then 1 else 0),
     (if changes_status seen t
      then <[app_genre := S (default 0 (by_genre !! app_genre))]> by_genre
      else by_genre),
     S total).
Proof.
  unfold scan_triple, changes_status.
  rewrite lookup_default_empty, group_triples_lookup, group_triples_snoc.
  destruct (entry seen (permission t) (channel t)) as [recorded|].
  - destruct (decide (recorded ≠ status t)) as [Hne|Heq].
    + rewrite bool_decide_true by done. by rewrite Nat.add_1_r.
    + rewrite bool_decide_false by done. by rewrite Nat.add_0_r.
  - by rewrite Nat.add_0_r.
Qed.

Lemma scan_triples_by_genre (app_genre : string) (ts seen : list triple)
    (ica : nat) (by_genre : gmap string nat) (total : nat) :
  ∃ by_genre',
    foldl (scan_triple app_genre) (group_triples seen, ica, by_genre, total) ts
    = (group_triples (seen ++ ts), ica + status_changes_from seen ts,
       by_genre', total + length ts)
    ∧ (∀ g, g ≠ app_genre → by_genre' !! g = by_genre !! g)
    ∧ by_genre' !! app_genre
      = if decide (status_changes_from seen ts = 0) then by_genre !! app_genre
        else Some (default 0 (by_genre !! app_genre)
                   + status_changes_from seen ts).
Proof.
  revert seen ica by_genre total.
  induction ts as [|t ts IH]; intros seen ica by_genre total.
  - exists by_genre. simpl. by rewrite app_nil_r, !Nat.add_0_r.
  - cbn [foldl status_changes_from]. rewrite scan_triple_by_genre.
    destruct (IH (seen ++ [t]) (ica + (if changes_status seen t then 1 else 0))
                 (if changes_status seen t
                  then <[app_genre := S (default 0 (by_genre !! app_genre))]> by_genre
                  else by_genre)
                 (S total)) as (by_genre' & -> & Hother & Hgenre).
    exists by_genre'. split_and!.
    + rewrite <- app_assoc. simpl. by rewrite Nat.add_assoc, Nat.add_succ_r.
    + intros g Hg. rewrite Hother by done.
      destruct (changes_status seen t); [|done]. by rewrite lookup_insert_ne.
    + rewrite Hgenre. destruct (changes_status seen t).
      * rewrite lookup_insert_eq. simpl.
        case_decide; f_equal; lia.
      * simpl. done.
Qed.

Lemma process_app_by_genre (st : loop_state) (a : app) :
  ∃ st', process_app st a = Some st'
         ∧ (∀ g, g ≠ genre a → ica_by_genre st' !! g = ica_by_genre st !! g)
         ∧ ica_by_genre st' !! genre a
           = if decide (status_changes (app_triples a) = 0)
             then ica_by_genre st !! genre a
             else Some (default 0 (ica_by_genre st !! genre a)
                        + status_changes (app_triples a)).
Proof.
  unfold process_app.
  destruct (scan_triples_by_genre (genre a) (app_triples a) [] (ica_count st)
              (ica_by_genre st) (total_permissions st))
    as (by_genre' & Hfold & Hother & Hgenre).
  change (group_triples []) with (∅ : gmap string (gmap string Z)) in Hfold.
  rewrite Hfold. simpl.
  destruct (Nat.ltb_spec 0 (size (group_triples (app_triples a)))) as [Hpos|Hle].
  - rewrite cv_percent_pos by done. simpl. eexists. split; [done|]. simpl. done.
  - eexists. split; [done|]. simpl. done.
Qed.

Lemma genre_total_snoc (f : app → nat) (apps : list app) (a : app) (g : string) :
  genre_total f (apps ++ [a]) g
  = genre_total f apps g + (if decide (genre a = g) then f a else 0).
Proof.
  unfold genre_total.
  rewrite filter_app, sum_list_with_app, filter_cons, filter_nil.
  case_decide; simpl; lia.
Qed.

Lemma main_loop_by_genre (apps : list app) :
  ∃ st, main_loop apps = Some st
        ∧ ∀ g, ica_by_genre st !! g
               = if decide (genre_total (fun a => status_changes (app_triples a)) apps g = 0) then None
                 else Some (genre_total (fun a => status_changes (app_triples a)) apps g).
Proof.
  induction apps as [|a apps IH] using rev_ind.
  - exists loop_init. split; [done|]. intros g. done.
  - destruct IH as (st & Hst & Hby).
    destruct (process_app_by_genre st a) as (st' & Hst' & Hother & Hgenre).
    exists st'. rewrite main_loop_snoc, Hst. simpl. split; [done|].
    intros g. rewrite genre_total_snoc.
    destruct (decide (genre a = g)) as [<-|Hne].
    + rewrite Hgenre, Hby.
      destruct (decide (status_changes (app_triples a) = 0)) as [->|Hpos].
      * rewrite Nat.add_0_r. done.
      * rewrite (decide_False (P := _ + _ = 0)) by lia.
        case_decide as HN; simpl; [by rewrite HN|done].
    + rewrite Hother by done. rewrite Hby, Nat.add_0_r. done.
Qed.

(** X7.  The per-genre breakdown of ICA that [calculate_metrics] returns:
    the entry of a genre is the number of triples of its applications that
    change a status recorded earlier in the same application, and a genre
    without such a triple has no entry. *)
Theorem ica_by_genre_counts (apps : list app) :
  ∃ m, calculate_metrics apps = Some m
       ∧ ∀ g, m_ica_by_genre m !! g
              = if decide (genre_total (fun a => status_changes (app_triples a)) apps g = 0) then None
                else Some (genre_total (fun a => status_changes (app_triples a)) apps g).
Proof.
  destruct (main_loop_by_genre apps) as (st & Hst & Hby).
  destruct (calculate_metrics_fields apps st Hst) as (m & Hm & Hfields).
  exists m. split; [done|].
  destruct Hfields as (_ & _ & _ & _ & _ & ->). done.
Qed.

(** *** Bounds *)

Lemma ratio_bounds (c : Z) (n : nat) :
  (0 ≤ c)%Z → (c ≤ Z.of_nat n)%Z → 0 < n →
  percentage (inject_Z c / Py.of_nat n * 100)%Q.
Proof.
  intros Hc Hn Hpos.
  assert (0 < Py.of_nat n)%Q as Hq.
  { unfold Py.of_nat. rewrite <- (Zlt_Qlt 0). lia. }
  assert (0 <= inject_Z c / Py.of_nat n)%Q as H0.
  { apply Qle_shift_div_l; [done|]. rewrite Qmult_0_l.
    rewrite <- (Zle_Qle 0). done. }
  assert (inject_Z c / Py.of_nat n <= 1)%Q as H1.
  { apply Qle_shift_div_r; [done|]. rewrite Qmult_1_l.
    unfold Py.of_nat. by rewrite <- Zle_Qle. }
  split.
  - apply Qmult_le_0_compat; [done|]. by vm_compute.
  - apply (Qmult_le_compat_r _ _ 100) in H1; [|by vm_compute].
    by rewrite Qmult_1_l in H1.
Qed.

Lemma percent_bounds (x y : nat) (q : Q) :
  x ≤ y → percent x y = Some q → percentage q.
Proof.
  intros Hxy. unfold percent, Py.truediv.
  destruct (Qeq_bool (Py.of_nat y) 0) eqn:E; [done|]. simpl.
  intros [= <-]. apply (ratio_bounds (Z.of_nat x) y); [lia..|].
  destruct y; [done|lia].
Qed.

Lemma guarded_percent_bounds (x y : nat) (q : Q) :
  x ≤ y → (if Nat.ltb 0 y then percent x y else Some 0%Q) = Some q →
  percentage q.
Proof.
  intros Hxy. destruct (Nat.ltb 0 y).
  - by apply percent_bounds.
  - intros [= <-]. by split.
Qed.

Lemma per_genre_lookup {A} (f : A → option Q) (d : gmap string A)
    (r : gmap string Q) (g : string) (q : Q) :
  per_genre f d = Some r → r !! g = Some q →
  ∃ data, d !! g = Some data ∧ f data = Some q.
Proof.
  unfold per_genre. intros Hr Hq.
  destruct (mapM _ (map_to_list d)) as [l|] eqn:Hl; [|done].
  injection Hr as <-. apply mapM_Some_1 in Hl.
  apply elem_of_list_to_map_2 in Hq.
  apply list_elem_of_lookup in Hq as [i Hi].
  destruct (Forall2_lookup_r _ _ _ _ _ Hl Hi) as ([g' data] & Hd & Hf).
  simpl in Hf. destruct (f data) as [q'|] eqn:Hfd; [|done].
  injection Hf as -> ->. exists data. split; [|done].
  apply elem_of_map_to_list. by eapply list_elem_of_lookup_2.
Qed.

(** The counters of one application's categories. *)
Lemma scan_categories_bounds (app_genre : string) (init : category_acc)
    (pc : grouping) :
  (∀ g b, acc_ccor init !! g = Some b →
          ccor_missing b ≤ ccor_total b ∧ 0 < ccor_total b) →
  (∀ g b, acc_cccr init !! g = Some b →
          cccr_conflict b ≤ cccr_total b ∧ 0 < cccr_total b) →
  let acc := map_fold (scan_category app_genre) init pc in
  acc_app_consistent acc ≤ acc_app_consistent init + size pc
  ∧ (∀ g b, acc_ccor acc !! g = Some b →
            ccor_missing b ≤ ccor_total b ∧ 0 < ccor_total b)
  ∧ (∀ g b, acc_cccr acc !! g = Some b →
            cccr_conflict b ≤ cccr_total b ∧ 0 < cccr_total b).
Proof.
  intros Hccor Hcccr. simpl.
  apply (map_fold_weak_ind
    (fun acc (m : grouping) =>
       acc_app_consistent acc ≤ acc_app_consistent init + size m
       ∧ (∀ g b, acc_ccor acc !! g = Some b →
                 ccor_missing b ≤ ccor_total b ∧ 0 < ccor_total b)
       ∧ (∀ g b, acc_cccr acc !! g = Some b →
                 cccr_conflict b ≤ cccr_total b ∧ 0 < cccr_total b))).
  - rewrite map_size_empty. split_and!; [lia|done..].
  - intros p channels m acc Hp (Hc & H2 & H3).
    rewrite map_size_insert_None by done.
    unfold scan_category. destruct (Nat.eqb (size channels) 3); simpl.
    + split_and!.
      * destruct (agree channels); lia.
      * destruct (channels !! CH1), (channels !! CH2); try done.
        intros g b. unfold bump_ccor.
        destruct (decide (app_genre = g)) as [->|Hne].
        -- rewrite lookup_insert_eq. intros [= <-]. simpl.
           assert (ccor_missing (default ccor_zero (acc_ccor acc !! g))
                   ≤ ccor_total (default ccor_zero (acc_ccor acc !! g))).
           { destruct (acc_ccor acc !! g) as [b|] eqn:E; simpl; [|done].
             by eapply (H2 g). }
           case_match; lia.
        -- rewrite lookup_insert_ne by done. apply H2.
      * destruct (channels !! CH1), (channels !! CH3); try done.
        intros g b. unfold bump_cccr.
        destruct (decide (app_genre = g)) as [->|Hne].
        -- rewrite lookup_insert_eq. intros [= <-]. simpl.
           assert (cccr_conflict (default cccr_zero (acc_cccr acc !! g))
                   ≤ cccr_total (default cccr_zero (acc_cccr acc !! g))).
           { destruct (acc_cccr acc !! g) as [b|] eqn:E; simpl; [|done].
             by eapply (H3 g). }
           case_match; lia.
        -- rewrite lookup_insert_ne by done. apply H3.
    + split_and!; [lia|done..].
Qed.

Lemma status_changes_from_le (seen ts : list triple) :
  status_changes_from seen ts ≤ length ts.
Proof.
  revert seen. induction ts as [|t ts IH]; intros seen; simpl; [done|].
  specialize (IH (seen ++ [t])). destruct (changes_status seen t); lia.
Qed.

Lemma process_app_bounded (st : loop_state) (a : app) :
  bounded st → ∃ st', process_app st a = Some st' ∧ bounded st'.
Proof.
  intros (Hocc & Hgenre & Hccor & Hcccr & Hica).
  unfold process_app.
  destruct (scan_triples_fold (genre a) (app_triples a) [] (ica_count st)
              (ica_by_genre st) (total_permissions st)) as [by_genre' Hfold].
  change (group_triples []) with (∅ : gmap string (gmap string Z)) in Hfold.
  rewrite Hfold. simpl.
  pose proof (status_changes_from_le [] (app_triples a)) as Hchanges.
  set (init := {| acc_app_consistent := 0;
                  acc_consistent_count := consistent_count st;
                  acc_ccor := ccor_data st; acc_cccr := cccr_data st;
                  acc_all_permissions_count := all_permissions_count st |}).
  destruct (scan_categories_bounds (genre a) init
              (group_triples (app_triples a)) Hccor Hcccr)
    as (Hconsistent & Hccor' & Hcccr').
  simpl in Hconsistent.
  destruct (Nat.ltb_spec 0 (size (group_triples (app_triples a)))) as [Hpos|Hle].
  - destruct (percent _ _) as [q|] eqn:Hq.
    2:{ by rewrite cv_percent_pos in Hq. }
    simpl. eexists. split; [done|]. split_and!; simpl; try done.
    + apply Forall_app. split; [done|]. apply Forall_singleton.
      apply (percent_bounds _ _ _ Hconsistent Hq).
    + intros g b. destruct (decide (genre a = g)) as [<-|Hne].
      * rewrite lookup_insert_eq. intros [= <-]. simpl.
        assert (occ_consistent (default occ_zero (genre_occ st !! genre a))
                ≤ occ_count (default occ_zero (genre_occ st !! genre a))).
        { destruct (genre_occ st !! genre a) as [b|] eqn:E; simpl; [|done].
          by eapply (Hgenre (genre a)). }
        lia.
      * rewrite lookup_insert_ne by done. apply Hgenre.
    + unfold status_changes_from in *. lia.
  - eexists. split; [done|]. split_and!; simpl; try done.
    unfold status_changes_from in *. lia.
Qed.

Lemma main_loop_bounded (apps : list app) :
  ∃ st, main_loop apps = Some st ∧ bounded st.
Proof.
  induction apps as [|a apps IH] using rev_ind.
  - exists loop_init. split; [done|]. by split_and!.
  - destruct IH as (st & Hst & Hb).
    destruct (process_app_bounded st a Hb) as (st' & Hst' & Hb').
    exists st'. by rewrite main_loop_snoc, Hst.
Qed.

Lemma trunc_bounds (x : Q) (n : nat) :
  (0 <= x)%Q → (x <= Py.of_nat n)%Q →
  (0 ≤ Py.trunc x)%Z ∧ (Py.trunc x ≤ Z.of_nat n)%Z.
Proof.
  intros H0 Hn. unfold Py.trunc.
  rewrite (proj2 (Qle_bool_iff 0 x) H0). split.
  - rewrite <- (Qfloor_Z 0). by apply Qfloor_resp_le.
  - rewrite <- (Qfloor_Z (Z.of_nat n)). by apply Qfloor_resp_le.
Qed.

Lemma trend_step_bounds (pc : grouping) (trend : list Q) (cc : Z) (ct : nat)
    (app_occ : Q) :
  percentage app_occ → Forall percentage trend →
  (0 ≤ cc)%Z → (cc ≤ Z.of_nat ct)%Z →
  ∃ trend' cc' ct',
    trend_step (Some pc) (Some (trend, cc, ct)) app_occ = Some (trend', cc', ct')
    ∧ Forall percentage trend' ∧ (0 ≤ cc')%Z ∧ (cc' ≤ Z.of_nat ct')%Z
    ∧ length trend' = S (length trend).
Proof.
  intros [Hocc0 Hocc1] Htrend Hcc0 Hcc1.
  assert (0 <= app_occ / 100)%Q as Hx0.
  { apply Qle_shift_div_l; [by vm_compute|]. by rewrite Qmult_0_l. }
  assert (app_occ / 100 <= 1)%Q as Hx1.
  { apply Qle_shift_div_r; [by vm_compute|]. by rewrite Qmult_1_l. }
  assert (0 <= Py.of_nat (size pc))%Q as Hn.
  { unfold Py.of_nat. rewrite <- (Zle_Qle 0). lia. }
  destruct (trunc_bounds (app_occ / 100 * Py.of_nat (size pc)) (size pc))
    as [Ht0 Ht1].
  { by apply Qmult_le_0_compat. }
  { apply (Qmult_le_compat_r _ _ (Py.of_nat (size pc))) in Hx1; [|done].
    by rewrite Qmult_1_l in Hx1. }
  unfold trend_step. simpl. unfold Py.truediv at 1. simpl.
  destruct (Nat.ltb_spec 0 (ct + size pc)) as [Hpos|Hle]; simpl.
  - rewrite of_nat_nonzero by done. simpl. eexists _, _, _. split; [done|].
    split_and!; [|lia..|by rewrite length_app, Nat.add_1_r].
    apply Forall_app. split; [done|]. apply Forall_singleton.
    apply ratio_bounds; lia.
  - eexists _, _, _. split; [done|].
    split_and!; [|lia..|by rewrite length_app, Nat.add_1_r].
    apply Forall_app. split; [done|]. apply Forall_singleton. by split.
Qed.

Lemma trend_fold_bounds (pc : grouping) (occs trend : list Q) (cc : Z) (ct : nat) :
  Forall percentage occs → Forall percentage trend →
  (0 ≤ cc)%Z → (cc ≤ Z.of_nat ct)%Z →
  ∃ trend' cc' ct',
    foldl (trend_step (Some pc)) (Some (trend, cc, ct)) occs
    = Some (trend', cc', ct')
    ∧ Forall percentage trend' ∧ length trend' = length trend + length occs.
Proof.
  revert trend cc ct.
  induction occs as [|o occs IH]; intros trend cc ct Hoccs Htrend Hcc0 Hcc1.
  - eexists _, _, _. simpl. split; [done|]. split; [done|lia].
  - apply Forall_cons in Hoccs as [Ho Hoccs]. cbn [foldl].
    destruct (trend_step_bounds pc trend cc ct o Ho Htrend Hcc0 Hcc1)
      as (trend1 & cc1 & ct1 & -> & Htrend1 & H0 & H1 & Hlen).
    destruct (IH trend1 cc1 ct1 Hoccs Htrend1 H0 H1)
      as (trend2 & cc2 & ct2 & -> & Htrend2 & Hlen2).
    eexists _, _, _. split; [done|]. split; [done|]. simpl. lia.
Qed.

Lemma overall_occ_trend_bounds (apps : list app) (st : loop_state)
    (trend : list Q) :
  main_loop apps = Some st → Forall percentage (apps_occ st) →
  overall_occ_trend_of st = Some trend →
  Forall percentage trend ∧ length trend = length (apps_occ st).
Proof.
  intros Hst Hocc. destruct (main_loop_total apps) as (st0 & Hst0 & Hpc).
  rewrite Hst in Hst0. injection Hst0 as <-.
  unfold overall_occ_trend_of.
  destruct Hpc as [Hnil|[pc Hpc]].
  - rewrite (apps_occ_needs_app apps st Hst Hnil). simpl. by intros [= <-].
  - rewrite Hpc.
    destruct (trend_fold_bounds pc (apps_occ st) [] 0%Z 0 Hocc)
      as (trend' & cc' & ct' & -> & Htrend & Hlen); [done..|].
    simpl. by intros [= <-].
Qed.

(** X8.  Every ratio that [calculate_metrics] reports is a percentage: the
    entries of the OCC trend, the OCC, CCOR and CCCR of every genre and the
    ICA ratio all lie between 0 and 100. *)
Theorem metrics_are_percentages (apps : list app) :
  ∃ m, calculate_metrics apps = Some m
       ∧ Forall percentage (overall_occ_trend m)
       ∧ map_Forall (fun _ => percentage) (m_genre_occ m)
       ∧ map_Forall (fun _ => percentage) (ccor m)
       ∧ map_Forall (fun _ => percentage) (cccr m)
       ∧ percentage (ica_ratio m).
Proof.
  destruct (main_loop_bounded apps)
    as (st & Hst & Hocc & Hgenre & Hccor & Hcccr & Hica).
  destruct (calculate_metrics_fields apps st Hst)
    as (m & Hm & Htrend & H1 & H2 & H3 & H4 & _).
  exists m. split; [done|]. split_and!.
  - by destruct (overall_occ_trend_bounds apps st _ Hst Hocc Htrend).
  - intros g q Hq.
    destruct (per_genre_lookup _ _ _ g q H1 Hq) as (b & Hb & Hf).
    apply (guarded_percent_bounds _ _ _ (Hgenre g b Hb) Hf).
  - intros g q Hq.
    destruct (per_genre_lookup _ _ _ g q H2 Hq) as (b & Hb & Hf).
    apply (guarded_percent_bounds _ _ _ (proj1 (Hccor g b Hb)) Hf).
  - intros g q Hq.
    destruct (per_genre_lookup _ _ _ g q H3 Hq) as (b & Hb & Hf).
    apply (guarded_percent_bounds _ _ _ (proj1 (Hcccr g b Hb)) Hf).
  - apply (guarded_percent_bounds _ _ _ Hica H4).
Qed.

(** *** The applications that enter the OCC figures *)


Lemma with_triples_snoc (apps : list app) (a : app) :
  with_triples (apps ++ [a])
  = with_triples apps ++ (if decide (app_triples a = []) then [] else [a]).
Proof.
  unfold with_triples. rewrite filter_app, filter_cons, filter_nil.
  destruct (decide (app_triples a = [])) as [E|E].
  - by rewrite decide_False by (by intros ?).
  - by rewrite decide_True.
Qed.




(** *** The CCOR and CCCR buckets *)

(** The size of a set of selected categories, as a count. *)
Lemma size_selected (P : gmap string Z → Prop) `{!∀ channels, Decision (P channels)}
    (selected : gset string) (m : grouping) :
  (∀ p, p ∈ selected ↔ ∃ channels, m !! p = Some channels ∧ P channels) →
  size selected
  = size (filter (fun entry : string * gmap string Z => P entry.2) m).
Proof.
  intros Hsel. rewrite <- size_dom. f_equal. apply set_eq. intros p.
  rewrite Hsel, elem_of_dom. unfold is_Some.
  by setoid_rewrite map_lookup_filter_Some.
Qed.

(** What one category does to the CCCR buckets. *)
Lemma scan_category_cccr (app_genre permission : string)
    (channels : gmap string Z) (acc : category_acc) :
  acc_cccr (scan_category app_genre permission channels acc)
  = if decide (cccr_counted channels)
    then bump_cccr app_genre (bool_decide (cccr_conflicting channels))
           (acc_cccr acc)
    else acc_cccr acc.
Proof.
  unfold scan_category.
  destruct (decide (cccr_counted channels)) as [(Hsize & [s1 H1] & [s3 H3])|Hno].
  - rewrite Hsize. simpl. rewrite H1, H3. f_equal.
    rewrite <- !bool_decide_and, <- bool_decide_or.
    apply bool_decide_ext. unfold cccr_conflicting. rewrite H1, H3.
    naive_solver.
  - destruct (Nat.eqb_spec (size channels) 3) as [Hsize|Hsize]; simpl; [|done].
    destruct (channels !! CH1) as [s1|] eqn:H1; [|done].
    destruct (channels !! CH3) as [s3|] eqn:H3; [|done].
    exfalso. apply Hno. unfold cccr_counted. rewrite H1, H3. eauto.
Qed.

(** The CCCR bucket of the genre after the loop over the categories of one
    application. *)
Lemma scan_categories_cccr (app_genre : string) (init : category_acc)
    (pc : grouping) :
  let acc := map_fold (scan_category app_genre) init pc in
  default cccr_zero (acc_cccr acc !! app_genre)
  = {| cccr_total :=
         cccr_total (default cccr_zero (acc_cccr init !! app_genre))
         + size (filter (fun entry : string * gmap string Z =>
                           cccr_counted entry.2) pc);
       cccr_conflict :=
         cccr_conflict (default cccr_zero (acc_cccr init !! app_genre))
         + size (filter (fun entry : string * gmap string Z =>
                           cccr_conflicting entry.2) pc) |}
  ∧ ∀ g, g ≠ app_genre → acc_cccr acc !! g = acc_cccr init !! g.
Proof.
  simpl.
  apply (map_fold_weak_ind
    (fun acc (m : grouping) =>
       default cccr_zero (acc_cccr acc !! app_genre)
       = {| cccr_total :=
              cccr_total (default cccr_zero (acc_cccr init !! app_genre))
              + size (filter (fun entry : string * gmap string Z =>
                                cccr_counted entry.2) m);
            cccr_conflict :=
              cccr_conflict (default cccr_zero (acc_cccr init !! app_genre))
              + size (filter (fun entry : string * gmap string Z =>
                                cccr_conflicting entry.2) m) |}
       ∧ ∀ g, g ≠ app_genre → acc_cccr acc !! g = acc_cccr init !! g)).
  - rewrite !map_filter_empty, map_size_empty, !Nat.add_0_r.
    split; [by destruct (default _ _)|done].
  - intros p channels m acc Hp [Hbucket Hother].
    rewrite scan_category_cccr.
    assert (cccr_conflicting channels → cccr_counted channels) as Himp.
    { intros (? & [[H1 H3]|[H1 H3]]); unfold cccr_counted; rewrite H1, H3; eauto. }
    destruct (decide (cccr_counted channels)) as [Hc|Hc].
    + rewrite (map_filter_insert_True (fun entry => cccr_counted entry.2))
        by done.
      rewrite map_size_insert_None
        by (apply map_lookup_filter_None_2; by left).
      unfold bump_cccr. rewrite lookup_insert_eq. simpl. rewrite Hbucket. simpl.
      split; [|intros g Hg; rewrite lookup_insert_ne by done; by apply Hother].
      destruct (decide (cccr_conflicting channels)) as [Hx|Hx].
      * rewrite bool_decide_true by done.
        rewrite (map_filter_insert_True (fun entry => cccr_conflicting entry.2))
          by done.
        rewrite map_size_insert_None
          by (apply map_lookup_filter_None_2; by left).
        f_equal; lia.
      * rewrite bool_decide_false by done.
        rewrite (map_filter_insert_False (fun entry => cccr_conflicting entry.2))
          by done.
        rewrite delete_id by done. f_equal; lia.
    + rewrite (map_filter_insert_False (fun entry => cccr_counted entry.2))
        by done.
      rewrite (map_filter_insert_False (fun entry => cccr_conflicting entry.2))
        by (intros ?; by apply Hc, Himp).
      rewrite delete_id by done. done.
Qed.

(** The CCOR and CCCR buckets of the genre of an application after the
    application has been processed. *)
Lemma process_app_buckets (st : loop_state) (a : app) :
  ∃ st', process_app st a = Some st'
    ∧ default ccor_zero (ccor_data st' !! genre a)
      = {| ccor_total :=
             ccor_total (default ccor_zero (ccor_data st !! genre a))
             + count_categories ccor_counted a;
           ccor_missing :=
             ccor_missing (default ccor_zero (ccor_data st !! genre a))
             + count_categories ccor_omitted a |}
    ∧ default cccr_zero (cccr_data st' !! genre a)
      = {| cccr_total :=
             cccr_total (default cccr_zero (cccr_data st !! genre a))
             + count_categories cccr_counted a;
           cccr_conflict :=
             cccr_conflict (default cccr_zero (cccr_data st !! genre a))
             + count_categories cccr_conflicting a |}
    ∧ ∀ g, g ≠ genre a → ccor_data st' !! g = ccor_data st !! g
                         ∧ cccr_data st' !! g = cccr_data st !! g.
Proof.
  unfold process_app, count_categories.
  destruct (scan_triples_fold (genre a) (app_triples a) [] (ica_count st)
              (ica_by_genre st) (total_permissions st)) as [by_genre' Hfold].
  change (group_triples []) with (∅ : gmap string (gmap string Z)) in Hfold.
  rewrite Hfold. simpl.
  set (init := {| acc_app_consistent := 0;
                  acc_consistent_count := consistent_count st;
                  acc_ccor := ccor_data st; acc_cccr := cccr_data st;
                  acc_all_permissions_count := all_permissions_count st |}).
  destruct (scan_categories_ccor (genre a) init (group_triples (app_triples a)))
    as (counted & omitted & Hcounted & Homitted & Hccor & Hccor_other).
  rewrite (size_selected ccor_counted _ _ Hcounted) in Hccor.
  rewrite (size_selected ccor_omitted _ _ Homitted) in Hccor.
  destruct (scan_categories_cccr (genre a) init (group_triples (app_triples a)))
    as (Hcccr & Hcccr_other).
  simpl in Hccor, Hcccr.
  assert (∀ x y x' y', {| ccor_total := x + y; ccor_missing := x' + y' |}
                       = {| ccor_total := y + x; ccor_missing := y' + x' |})
    as Hcomm by (intros; f_equal; lia).
  rewrite Hcomm in Hccor.
  destruct (Nat.ltb_spec 0 (size (group_triples (app_triples a)))).
  - rewrite cv_percent_pos by done. simpl. eexists. split; [done|]. simpl.
    split_and!; [done..|]. intros g Hg. split; auto.
  - eexists. split; [done|]. simpl.
    split_and!; [done..|]. intros g Hg. split; auto.
Qed.

Lemma main_loop_buckets (apps : list app) :
  ∃ st, main_loop apps = Some st
    ∧ ∀ g,
        default ccor_zero (ccor_data st !! g)
        = {| ccor_total := genre_total (count_categories ccor_counted) apps g;
             ccor_missing := genre_total (count_categories ccor_omitted) apps g |}
        ∧ default cccr_zero (cccr_data st !! g)
          = {| cccr_total := genre_total (count_categories cccr_counted) apps g;
               cccr_conflict :=
                 genre_total (count_categories cccr_conflicting) apps g |}.
Proof.
  induction apps as [|a apps IH] using rev_ind.
  - exists loop_init. split; [done|]. intros g. done.
  - destruct IH as (st & Hst & Hbuckets).
    destruct (process_app_buckets st a) as (st' & Hst' & Hccor & Hcccr & Hother).
    exists st'. rewrite main_loop_snoc, Hst. simpl. split; [done|].
    intros g. rewrite !genre_total_snoc.
    destruct (Hbuckets g) as [H1 H2].
    destruct (decide (genre a = g)) as [<-|Hne].
    + rewrite Hccor, Hcccr, H1, H2. done.
    + destruct (Hother g) as [-> ->]; [done|].
      rewrite H1, H2, !Nat.add_0_r. done.
Qed.

Lemma ccor_ratio_entry (d : gmap string ccor_bucket) (g : string) (b : ccor_bucket) :
  (∀ b', d !! g = Some b' → 0 < ccor_total b') →
  default ccor_zero (d !! g) = b →
  (d !! g) ≫= ccor_ratio = ratio_entry (ccor_missing b) (ccor_total b).
Proof.
  intros Hpos <-. unfold ratio_entry.
  destruct (d !! g) as [b|]; simpl; [|done].
  specialize (Hpos b eq_refl). rewrite decide_False by lia.
  unfold ccor_ratio. destruct (Nat.ltb_spec 0 (ccor_total b)); [|lia].
  by apply cv_percent_pos.
Qed.

Lemma cccr_ratio_entry (d : gmap string cccr_bucket) (g : string) (b : cccr_bucket) :
  (∀ b', d !! g = Some b' → 0 < cccr_total b') →
  default cccr_zero (d !! g) = b →
  (d !! g) ≫= cccr_ratio = ratio_entry (cccr_conflict b) (cccr_total b).
Proof.
  intros Hpos <-. unfold ratio_entry.
  destruct (d !! g) as [b|]; simpl; [|done].
  specialize (Hpos b eq_refl). rewrite decide_False by lia.
  unfold cccr_ratio. destruct (Nat.ltb_spec 0 (cccr_total b)); [|lia].
  by apply cv_percent_pos.
Qed.

Lemma per_genre_bind {A} (f : A → option Q) (d : gmap string A)
    (r : gmap string Q) (g : string) :
  (∀ x, is_Some (f x)) → per_genre f d = Some r → r !! g = (d !! g) ≫= f.
Proof.
  intros Hf.
  rewrite (per_genre_fmap f (fun x => default 0%Q (f x))).
  - intros [= <-]. rewrite lookup_fmap.
    destruct (d !! g) as [x|]; simpl; [|done]. by destruct (Hf x) as [q ->].
  - intros x. by destruct (Hf x) as [q ->].
Qed.

(** X10.  The CCOR and the CCCR of a genre, over the whole database.  Only
    the categories that have exactly three channel entries in an application
    are counted (channels 1 and 2 among them for CCOR, channels 1 and 3 for
    CCCR); the CCOR is the share of these where channel 1 reports 1 and
    channel 2 reports 0, the CCCR the share where channels 1 and 3 report 1
    and 0 in either order; a genre without a counted category has no
    entry. *)
Theorem ccor_cccr_by_genre (apps : list app) :
  ∃ m, calculate_metrics apps = Some m
    ∧ ∀ g,
        ccor m !! g
        = ratio_entry (genre_total (count_categories ccor_omitted) apps g)
                      (genre_total (count_categories ccor_counted) apps g)
        ∧ cccr m !! g
          = ratio_entry (genre_total (count_categories cccr_conflicting) apps g)
                        (genre_total (count_categories cccr_counted) apps g).
Proof.
  destruct (main_loop_buckets apps) as (st & Hst & Hbuckets).
  destruct (main_loop_bounded apps) as (st0 & Hst0 & _ & _ & Hccor & Hcccr & _).
  rewrite Hst in Hst0. injection Hst0 as <-.
  destruct (calculate_metrics_fields apps st Hst)
    as (m & Hm & _ & _ & H2 & H3 & _).
  exists m. split; [done|]. intros g. destruct (Hbuckets g) as [Hb2 Hb3].
  rewrite (per_genre_bind _ _ _ g ccor_ratio_total H2).
  rewrite (per_genre_bind _ _ _ g cccr_ratio_total H3).
  split.
  - apply (ccor_ratio_entry _ _ _ (fun b Hb => proj2 (Hccor g b Hb)) Hb2).
  - apply (cccr_ratio_entry _ _ _ (fun b Hb => proj2 (Hcccr g b Hb)) Hb3).
Qed.

End MetricCounters.

(** ** permission_visual_analysis.py: the analyses *)

Section Analyses.
Import TripleReader PermissionVisualAnalysis Spec Inputs.
Local Open Scope nat_scope.

(** *** Dangerous permissions *)

Lemma dangerous_categories (p : string) :
  default false (ANDROID_DANGEROUS_PERMISSIONS !! p) = true
  ↔ p ∈ Generator.PERMISSION_CATEGORIES.
Proof.
  change Generator.PERMISSION_CATEGORIES
    with [ "Location"; "Contacts"; "Phone"; "SMS"; "Storage"; "Camera";
           "Microphone"; "Calendar"; "Sensors" ].
  unfold ANDROID_DANGEROUS_PERMISSIONS.
  simpl list_to_map. rewrite !elem_of_cons, elem_of_nil.
  repeat (rewrite lookup_insert; case_decide;
          [subst; simpl; split;
             [intros _; repeat ((left; reflexivity) || right)|done]|]).
  rewrite lookup_empty. simpl. naive_solver.
Qed.

Lemma count_dangerous_fold (ts : list triple) (d c : nat) :
  foldl count_dangerous (d, c) ts
  = (d + length (filter (fun t => collected t = true
                                  ∧ permission t ∈ Generator.PERMISSION_CATEGORIES) ts),
     c + length (filter (fun t => collected t = true) ts)).
Proof.
  revert d c. induction ts as [|t ts IH]; intros d c.
  - simpl. by rewrite !Nat.add_0_r.
  - cbn [foldl]. unfold count_dangerous at 2. rewrite !filter_cons.
    destruct (collected t) eqn:Hc.
    + rewrite (decide_True (P := true = true)) by done.
      destruct (decide (permission t ∈ Generator.PERMISSION_CATEGORIES)) as [Hp|Hp].
      * rewrite (proj2 (dangerous_categories _) Hp).
        rewrite decide_True by done. rewrite IH. simpl. f_equal; lia.
      * destruct (default false _) eqn:E.
        { by apply dangerous_categories in E. }
        rewrite decide_False by (by intros [_ ?]). rewrite IH. simpl.
        f_equal; lia.
    + rewrite (decide_False (P := false = true)) by done.
      rewrite decide_False by (by intros [? _]). apply IH.
Qed.

Lemma foldl_bind_triples {B} (f : B → triple → B) (apps : list app) (b : B) :
  foldl (fun acc a => foldl f acc (app_triples a)) b apps
  = foldl f b (apps ≫= app_triples).
Proof.
  revert b. induction apps as [|a apps IH]; intros b; [done|].
  cbn [foldl]. by rewrite bind_cons, foldl_app, IH.
Qed.

Lemma filter_collected_categories (ts : list triple) :
  Forall (fun t => permission t ∈ Generator.PERMISSION_CATEGORIES) ts →
  filter (fun t => collected t = true
                   ∧ permission t ∈ Generator.PERMISSION_CATEGORIES) ts
  = filter (fun t => collected t = true) ts.
Proof.
  induction 1 as [|t ts Ht _ IH]; [done|]. rewrite !filter_cons.
  destruct (decide (collected t = true)) as [Hc|Hc].
  - rewrite decide_True by done. by rewrite IH.
  - rewrite decide_False by (by intros [? _]). done.
Qed.

(** X11.  [analyze_dangerous_permissions] counts as collected the triples of
    channel one with status 1, and as dangerous those of them whose category
    is one of the nine categories of the generator; the ratio is a
    percentage.  As the generator emits no other category, on its triples
    every collected permission is dangerous and the ratio is 100 as soon as
    one permission is collected. *)
Theorem dangerous_permission_counts (apps : list app) :
  ∃ r, analyze_dangerous_permissions apps = Some r
    ∧ total_collected r
      = length (filter (fun t => collected t = true) (apps ≫= app_triples))
    ∧ total_dangerous r
      = length (filter (fun t => collected t = true
                                 ∧ permission t ∈ Generator.PERMISSION_CATEGORIES)
                       (apps ≫= app_triples))
    ∧ percentage (dangerous_ratio r)
    ∧ (Forall (fun t => permission t ∈ Generator.PERMISSION_CATEGORIES)
              (apps ≫= app_triples) →
       total_dangerous r = total_collected r
       ∧ (0 < total_collected r → (dangerous_ratio r == 100)%Q)).
Proof.
  unfold analyze_dangerous_permissions.
  rewrite foldl_bind_triples, count_dangerous_fold. simpl.
  set (ts := apps ≫= app_triples).
  set (d := length (filter (fun t => collected t = true ∧ _) ts)).
  set (c := length (filter (fun t => collected t = true) ts)).
  assert (d ≤ c) as Hdc.
  { subst d c. clearbody ts. induction ts as [|t ts IH]; [done|].
    rewrite !filter_cons.
    destruct (decide (collected t = true)) as [Hc|Hc].
    - case_decide; simpl; lia.
    - rewrite decide_False by (by intros [? _]). done. }
  destruct (dangerous_ratio_total d c) as [q Hq]. rewrite Hq. simpl.
  eexists. split; [done|]. simpl. split_and!; [done..| |].
  - unfold dangerous_ratio_of in Hq.
    destruct (Nat.ltb_spec 0 c) as [Hpos|Hle].
    + rewrite pva_percent_pos in Hq by done. injection Hq as <-.
      apply (ratio_bounds (Z.of_nat d) c); lia.
    + injection Hq as <-. by split.
  - intros Hall.
    assert (d = c) as Heq.
    { subst d c. f_equal. by apply filter_collected_categories. }
    split; [done|]. intros Hpos. simpl in Hpos. unfold dangerous_ratio_of in Hq.
    destruct (Nat.ltb_spec 0 c) as [_|Hle]; [|lia].
    rewrite pva_percent_pos in Hq by done. injection Hq as <-.
    rewrite Heq. unfold Qdiv. rewrite Qmult_inv_r; [done|].
    intros Hz. apply Qeq_bool_iff in Hz. by rewrite of_nat_nonzero in Hz.
Qed.

(** *** Channel consistency *)

Lemma triple_consistent_test (channels : gmap string Z) :
  Nat.eqb (size channels) 3 && agree channels
  = bool_decide (triple_consistent channels).
Proof.
  destruct (decide (triple_consistent channels)) as [[H3 Ha]|Hno].
  - rewrite bool_decide_true by done. by rewrite H3, Ha.
  - rewrite bool_decide_false by done.
    destruct (Nat.eqb_spec (size channels) 3) as [H3|H3]; [|done].
    destruct (agree channels) eqn:Ha; [|done]. by destruct Hno.
Qed.

(** The loop over the categories of one application. *)
Lemma scan_categories_counts (pc : gmap string (gmap string Z))
    (cc total : nat) (by_permission : gmap string consistency_bucket) :
  ∃ by_permission',
    map_fold scan_category (cc, total, by_permission, 0, 0) pc
    = (cc + size (filter (fun entry : string * gmap string Z =>
                            triple_consistent entry.2) pc),
       total + size pc, by_permission',
       size (filter (fun entry : string * gmap string Z =>
                       triple_consistent entry.2) pc),
       size pc)
    ∧ ∀ p, by_permission' !! p
           = match pc !! p with
             | Some channels =>
                 Some {| pc_consistent :=
                           pc_consistent (default bucket_zero (by_permission !! p))
                           + (if decide (triple_consistent channels) then 1 else 0);
                         pc_total :=
                           S (pc_total (default bucket_zero (by_permission !! p))) |}
             | None => by_permission !! p
             end.
Proof.
  apply (map_fold_weak_ind
    (fun acc (m : gmap string (gmap string Z)) =>
       ∃ by_permission',
         acc = (cc + size (filter (fun entry : string * gmap string Z =>
                                     triple_consistent entry.2) m),
                total + size m, by_permission',
                size (filter (fun entry : string * gmap string Z =>
                                triple_consistent entry.2) m),
                size m)
         ∧ ∀ p, by_permission' !! p
                = match m !! p with
                  | Some channels =>
                      Some {| pc_consistent :=
                                pc_consistent (default bucket_zero (by_permission !! p))
                                + (if decide (triple_consistent channels) then 1 else 0);
                              pc_total :=
                                S (pc_total (default bucket_zero (by_permission !! p))) |}
                  | None => by_permission !! p
                  end)).
  - exists by_permission.
    rewrite map_filter_empty, map_size_empty, !Nat.add_0_r. split; [done|].
    intros p. by rewrite lookup_empty.
  - intros i x m acc Hi (by_permission' & -> & Hlookup).
    unfold scan_category. rewrite triple_consistent_test.
    pose proof (Hlookup i) as Hbi. rewrite Hi in Hbi. rewrite Hbi.
    rewrite map_size_insert_None by done.
    destruct (decide (triple_consistent x)) as [Hx|Hx].
    + rewrite bool_decide_true by done.
      rewrite (map_filter_insert_True (fun entry => triple_consistent entry.2))
        by done.
      rewrite map_size_insert_None by (apply map_lookup_filter_None_2; by left).
      eexists. split; [repeat f_equal; lia|].
      intros p. destruct (decide (i = p)) as [->|Hne].
      * rewrite !lookup_insert_eq. rewrite decide_True by done.
        repeat f_equal; lia.
      * rewrite !lookup_insert_ne by done. apply Hlookup.
    + rewrite bool_decide_false by done.
      rewrite (map_filter_insert_False (fun entry => triple_consistent entry.2))
        by done.
      rewrite delete_id by done.
      eexists. split; [repeat f_equal; lia|].
      intros p. destruct (decide (i = p)) as [->|Hne].
      * rewrite !lookup_insert_eq. rewrite decide_False by done.
        repeat f_equal; lia.
      * rewrite !lookup_insert_ne by done. apply Hlookup.
Qed.

Lemma category_count_pos (a : app) :
  0 < category_count a ↔ app_triples a ≠ [].
Proof.
  unfold category_count. rewrite group_triples_size. split.
  - intros Hpos E. rewrite E in Hpos.
    change (categories []) with (∅ : gset string) in Hpos.
    rewrite size_empty in Hpos. lia.
  - apply categories_nonempty.
Qed.

Lemma consistency_step_counts (a : app) (cc total : nat)
    (by_permission : gmap string consistency_bucket) (per_app : list (string * Q)) :
  ∃ by_permission',
    consistency_step (Some (cc, total, by_permission, per_app)) a
    = Some (cc + count_categories triple_consistent a,
            total + category_count a, by_permission',
            per_app ++ (if decide (app_triples a = []) then [] else [app_ratio a]))
    ∧ ∀ p, by_permission' !! p
           = if decide (mentions p a)
             then Some {| pc_consistent :=
                            pc_consistent (default bucket_zero (by_permission !! p))
                            + (if decide (consistent_on p a) then 1 else 0);
                          pc_total :=
                            S (pc_total (default bucket_zero (by_permission !! p))) |}
             else by_permission !! p.
Proof.
  unfold consistency_step. simpl.
  destruct (scan_categories_counts (group_triples (app_triples a)) cc total
              by_permission) as (by_permission' & -> & Hlookup).
  fold (category_count a).
  change (size (filter _ (group_triples (app_triples a))))
    with (count_categories triple_consistent a).
  exists by_permission'. split.
  - destruct (decide (app_triples a = [])) as [E|E].
    + destruct (Nat.ltb_spec 0 (category_count a)) as [Hpos|_].
      { by apply category_count_pos in Hpos. }
      by rewrite app_nil_r.
    + apply category_count_pos in E.
      destruct (Nat.ltb_spec 0 (category_count a)); [|lia].
      by rewrite pva_percent_pos.
  - intros p. rewrite Hlookup.
    destruct (decide (mentions p a)) as [[channels Hm]|Hm].
    + rewrite Hm. repeat f_equal.
      destruct (decide (consistent_on p a)) as [(channels' & Hc & Ht)|Hc].
      * rewrite Hm in Hc. injection Hc as <-. by rewrite decide_True.
      * rewrite decide_False; [done|]. intros Ht. apply Hc. by exists channels.
    + destruct (group_triples (app_triples a) !! p) as [channels|] eqn:E; [|done].
      destruct Hm. unfold mentions. by rewrite E.
Qed.

Lemma consistency_fold_counts (apps : list app) :
  ∃ by_permission,
    foldl consistency_step (Some (0, 0, ∅, [])) apps
    = Some (sum_list_with (count_categories triple_consistent) apps,
            sum_list_with category_count apps, by_permission,
            app_ratio <$> with_triples apps)
    ∧ ∀ p, by_permission !! p
           = if decide (length (filter (mentions p) apps) = 0) then None
             else Some {| pc_consistent := length (filter (consistent_on p) apps);
                          pc_total := length (filter (mentions p) apps) |}.
Proof.
  induction apps as [|a apps IH] using rev_ind.
  - exists ∅. split; [done|]. intros p. by rewrite lookup_empty.
  - destruct IH as (by_permission & Hfold & Hlookup).
    rewrite foldl_snoc, Hfold.
    destruct (consistency_step_counts a
                (sum_list_with (count_categories triple_consistent) apps)
                (sum_list_with category_count apps) by_permission
                (app_ratio <$> with_triples apps))
      as (by_permission' & -> & Hlookup').
    exists by_permission'. split.
    + rewrite !sum_list_with_app, with_triples_snoc, fmap_app. simpl.
      rewrite !Nat.add_0_r. by destruct (decide (app_triples a = [])).
    + intros p. rewrite Hlookup', Hlookup.
      rewrite !filter_app, !length_app, !filter_cons, !filter_nil.
      assert (consistent_on p a → mentions p a) as Himp.
      { intros (channels & Hc & _). unfold mentions. by rewrite Hc. }
      destruct (decide (mentions p a)) as [Hm|Hm].
      * rewrite (decide_False (P := _ + _ = 0)) by (simpl; lia).
        destruct (decide (length (filter (mentions p) apps) = 0)) as [E|E];
          simpl.
        -- assert (length (filter (consistent_on p) apps) = 0) as ->.
           { apply Nat.le_0_r. rewrite <- E. clear.
             induction apps as [|b apps IH]; [done|]. rewrite !filter_cons.
             destruct (decide (consistent_on p b)) as [Hc|Hc].
             - rewrite decide_True; [simpl; lia|].
               destruct Hc as (channels & Hc & _). unfold mentions.
               by rewrite Hc.
             - case_decide; simpl; lia. }
           rewrite E. repeat f_equal.
           destruct (decide (consistent_on p a)); simpl; lia.
        -- repeat f_equal; [|lia].
           destruct (decide (consistent_on p a)); simpl; lia.
      * rewrite (decide_False (P := consistent_on p a)) by auto.
        simpl. rewrite !Nat.add_0_r. done.
Qed.

Lemma bucket_ratio_value (data : consistency_bucket) :
  bucket_ratio data
  = Some (data, ratio_value (pc_consistent data) (pc_total data)).
Proof.
  unfold bucket_ratio, ratio_value.
  destruct (Nat.ltb_spec 0 (pc_total data)).
  - rewrite pva_percent_pos by done. by rewrite decide_False by lia.
  - by rewrite decide_True by lia.
Qed.

Lemma map_values_mapM {A B} (f : A → option B) (f' : A → B) (d : gmap string A) :
  (∀ x, f x = Some (f' x)) →
  list_to_map <$> mapM (fun '(p, data) => pair p <$> f data) (map_to_list d)
  = Some (f' <$> d).
Proof.
  intros Hf.
  assert (∀ l : list (string * A),
    mapM (fun '(g, data) => pair g <$> f data) l
    = Some (prod_map id f' <$> l)) as ->.
  { intros l. apply mapM_Some_2, Forall2_fmap_r, Forall_Forall2_diag, Forall_forall.
    intros [g data] _. simpl. by rewrite Hf. }
  simpl. by rewrite list_to_map_fmap, list_to_map_to_list.
Qed.

Lemma app_consistency_entries (apps : list app) :
  ∃ r, analyze_channel_consistency apps = Some r
       ∧ app_consistency r = app_ratio <$> with_triples apps.
Proof.
  destruct (analyze_channel_consistency_total apps) as [r Hr].
  exists r. split; [done|]. revert Hr. unfold analyze_channel_consistency.
  destruct (consistency_fold_counts apps) as (by_permission & -> & _).
  simpl. destruct (triple_consistency_ratio_of _ _); [|done]. simpl.
  destruct (mapM _ _); [|done]. simpl. by intros [= <-].
Qed.

(** X12.  The result of [analyze_channel_consistency].  A category of an
    application is consistent when it has three channel entries with equal
    statuses other than -1.  The application list has one entry for each
    application with a triple, in order, with the share of its consistent
    categories; the overall ratio is the share of the consistent ones among
    all (application, category) pairs, 0 without any; and the table has an
    entry for each category that some application mentions, with the number
    of applications that mention it, the number of those where it is
    consistent, and their ratio. *)
Theorem channel_consistency_result (apps : list app) :
  ∃ r, analyze_channel_consistency apps = Some r
    ∧ app_consistency r = app_ratio <$> with_triples apps
    ∧ triple_consistency_ratio r
      = ratio_value (sum_list_with (count_categories triple_consistent) apps)
                    (sum_list_with category_count apps)
    ∧ ∀ p, permission_consistency r !! p
           = if decide (length (filter (mentions p) apps) = 0) then None
             else Some ({| pc_consistent := length (filter (consistent_on p) apps);
                           pc_total := length (filter (mentions p) apps) |},
                        ratio_value (length (filter (consistent_on p) apps))
                                    (length (filter (mentions p) apps))).
Proof.
  unfold analyze_channel_consistency.
  destruct (consistency_fold_counts apps) as (by_permission & -> & Hlookup).
  simpl.
  assert (∀ c t, triple_consistency_ratio_of c t = Some (ratio_value c t)) as ->.
  { intros c t. unfold triple_consistency_ratio_of, ratio_value.
    destruct (Nat.ltb_spec 0 t).
    - rewrite pva_percent_pos by done. by rewrite decide_False by lia.
    - by rewrite decide_True by lia. }
  simpl.
  rewrite (map_values_mapM bucket_ratio
             (fun data => (data, ratio_value (pc_consistent data) (pc_total data))))
    by apply bucket_ratio_value.
  simpl. eexists. split; [done|]. simpl. split_and!; [done..|].
  intros p. rewrite lookup_fmap, Hlookup. by case_decide.
Qed.

End Analyses.

(** ** The two scripts on the same data *)

Section TwoScripts.
Import TripleReader Spec Inputs.
Local Open Scope nat_scope.

Lemma scan_categories_app_consistent (app_genre : string)
    (init : ConsistencyVisualization.category_acc)
    (pc : gmap string (gmap string Z)) :
  ConsistencyVisualization.acc_app_consistent
    (map_fold (ConsistencyVisualization.scan_category app_genre) init pc)
  = ConsistencyVisualization.acc_app_consistent init
    + size (filter (fun entry : string * gmap string Z =>
                      triple_consistent entry.2) pc).
Proof.
  apply (map_fold_weak_ind
    (fun acc (m : gmap string (gmap string Z)) =>
       ConsistencyVisualization.acc_app_consistent acc
       = ConsistencyVisualization.acc_app_consistent init
         + size (filter (fun entry : string * gmap string Z =>
                           triple_consistent entry.2) m))).
  - by rewrite map_filter_empty, map_size_empty, Nat.add_0_r.
  - intros i x m acc Hi IH.
    unfold ConsistencyVisualization.scan_category.
    change (ConsistencyVisualization.agree x)
      with (PermissionVisualAnalysis.agree x).
    destruct (decide (triple_consistent x)) as [[H3 Ha]|Hx].
    + rewrite (map_filter_insert_True (fun entry => triple_consistent entry.2))
        by done.
      rewrite map_size_insert_None by (apply map_lookup_filter_None_2; by left).
      rewrite H3, Ha. simpl. lia.
    + rewrite (map_filter_insert_False (fun entry => triple_consistent entry.2))
        by done.
      rewrite delete_id by done.
      destruct (Nat.eqb_spec (size x) 3) as [H3|H3]; simpl; [|done].
      destruct (PermissionVisualAnalysis.agree x) eqn:Ha; [|done].
      by destruct Hx.
Qed.

Lemma process_app_occ (st : ConsistencyVisualization.loop_state) (a : app) :
  ∃ st', ConsistencyVisualization.process_app st a = Some st'
    ∧ ConsistencyVisualization.apps_occ st'
      = ConsistencyVisualization.apps_occ st
        ++ (if decide (app_triples a = []) then [] else [(app_ratio a).2]).
Proof.
  unfold ConsistencyVisualization.process_app.
  destruct (scan_triples_fold (genre a) (app_triples a) []
              (ConsistencyVisualization.ica_count st)
              (ConsistencyVisualization.ica_by_genre st)
              (ConsistencyVisualization.total_permissions st))
    as [by_genre' Hfold].
  change (PermissionVisualAnalysis.group_triples [])
    with (∅ : gmap string (gmap string Z)) in Hfold.
  rewrite Hfold. simpl. rewrite scan_categories_app_consistent. simpl.
  fold (category_count a).
  change (size (filter _ (PermissionVisualAnalysis.group_triples (app_triples a))))
    with (count_categories triple_consistent a).
  destruct (decide (app_triples a = [])) as [E|E].
  - destruct (Nat.ltb_spec 0 (category_count a)) as [Hpos|_].
    { by apply category_count_pos in Hpos. }
    eexists. split; [done|]. simpl. by rewrite app_nil_r.
  - apply category_count_pos in E.
    destruct (Nat.ltb_spec 0 (category_count a)); [|lia].
    rewrite cv_percent_pos by done. simpl. eexists. split; [done|]. done.
Qed.

Lemma main_loop_occ (apps : list app) :
  ∃ st, ConsistencyVisualization.main_loop apps = Some st
    ∧ ConsistencyVisualization.apps_occ st
      = (fun a => (app_ratio a).2) <$> with_triples apps.
Proof.
  induction apps as [|a apps IH] using rev_ind.
  - by exists ConsistencyVisualization.loop_init.
  - destruct IH as (st & Hst & Hocc).
    destruct (process_app_occ st a) as (st' & Hst' & Hocc').
    exists st'. rewrite main_loop_snoc, Hst. simpl. split; [done|].
    rewrite Hocc', Hocc, with_triples_snoc, fmap_app.
    by destruct (decide (app_triples a = [])).
Qed.

(** X13.  The two scripts agree on the application-level figure: the
    consistency ratios that [analyze_channel_consistency] lists for the
    applications are the application-level OCC values that
    [calculate_metrics] accumulates, in the same order. *)
Theorem app_consistency_is_app_occ (apps : list app) :
  ∃ r st,
    PermissionVisualAnalysis.analyze_channel_consistency apps = Some r
    ∧ ConsistencyVisualization.main_loop apps = Some st
    ∧ (PermissionVisualAnalysis.app_consistency r).*2
      = ConsistencyVisualization.apps_occ st.
Proof.
  destruct (app_consistency_entries apps) as (r & Hr & Happs).
  destruct (main_loop_occ apps) as (st & Hst & Hocc).
  exists r, st. split_and!; [done..|].
  by rewrite Happs, Hocc, <- list_fmap_compose.
Qed.

End TwoScripts.

(** ** The comparison of the applications of a genre *)

Section GenreRows.
Import TripleReader PermissionVisualAnalysis Spec Inputs.
Local Open Scope nat_scope.

(** [app_permissions] holds, under each name, the set of the last
    application of that name. *)
Lemma app_permissions_of_lookup (apps : list app) (n : string) :
  app_permissions_of apps !! n
  = collected_permissions <$> last (filter (fun a => app_name a = n) apps).
Proof.
  unfold app_permissions_of.
  induction apps as [|a apps IH] using rev_ind; [done|].
  rewrite foldl_snoc, filter_app, filter_cons, filter_nil.
  destruct (decide (app_name a = n)) as [<-|Hne].
  - by rewrite lookup_insert_eq, last_snoc.
  - rewrite lookup_insert_ne by done. by rewrite app_nil_r.
Qed.

Lemma app_permissions_of_values (apps : list app) (s : gset string) :
  s ∈ (map_to_list (app_permissions_of apps)).*2
  ↔ ∃ a, last_of_its_name apps a ∧ s = collected_permissions a.
Proof.
  rewrite list_elem_of_fmap. split.
  - intros ([n s'] & -> & Hs). apply elem_of_map_to_list in Hs.
    rewrite app_permissions_of_lookup in Hs. simpl.
    destruct (last (filter _ apps)) as [a|] eqn:Hlast; [|done].
    injection Hs as <-. exists a. split; [|done].
    assert (app_name a = n) as <-; [|done].
    apply last_Some in Hlast as [l Hl].
    assert (a ∈ filter (fun a => app_name a = n) apps) as Ha.
    { rewrite Hl. apply elem_of_app. right. left. }
    by apply list_elem_of_filter in Ha as [? _].
  - intros (a & Hlast & ->).
    exists (app_name a, collected_permissions a). split; [done|].
    apply elem_of_map_to_list. rewrite app_permissions_of_lookup.
    unfold last_of_its_name in Hlast. by rewrite Hlast.
Qed.

(** X14.  The row that [prepare_genre_comparison_data] computes for a genre
    with at least five applications.  The per-application sets are stored
    under the application names, so of the applications that share a name
    only the last one counts: a category is common when each of these last
    applications collects it, the total is the number of categories that
    one of them collects, the common count never exceeds the total, and the
    ratio is a percentage (0 when nothing is collected). *)
Theorem compare_genre_row (g : string) (apps : list app) :
  5 ≤ length apps →
  ∃ row (all_permissions : gset string),
    compare_genre g apps = Some (Some row)
    ∧ cmp_genre row = g
    ∧ app_count row = length apps
    ∧ (∀ p, p ∈ common_permissions row
            ↔ ∀ a, last_of_its_name apps a → p ∈ collected_permissions a)
    ∧ (∀ p, p ∈ all_permissions
            ↔ ∃ a, last_of_its_name apps a ∧ p ∈ collected_permissions a)
    ∧ common_count row = size (common_permissions row)
    ∧ total_permissions row = size all_permissions
    ∧ common_count row ≤ total_permissions row
    ∧ percentage (common_ratio row)
    ∧ (total_permissions row = 0 → common_ratio row = 0%Q).
Proof.
  intros Hlen. unfold compare_genre.
  destruct (Nat.ltb_spec (length apps) 5) as [?|_]; [lia|].
  set (m := app_permissions_of apps).
  set (sets := (map_to_list m).*2).
  assert (∀ s, s ∈ sets
               ↔ ∃ a, last_of_its_name apps a ∧ s = collected_permissions a)
    as Hsets by apply app_permissions_of_values.
  assert (length sets = size m) as Hsize.
  { unfold sets. by rewrite length_fmap, length_map_to_list. }
  assert (0 < size m) as Hpos.
  { destruct (decide (size m = 0)) as [E|E]; [|lia]. exfalso.
    apply map_size_empty_iff in E.
    destruct (last apps) as [a|] eqn:Hlast.
    2:{ destruct apps; [simpl in Hlen; lia|by apply last_None in Hlast]. }
    assert (is_Some (m !! app_name a)) as [s Hs].
    { unfold m. rewrite app_permissions_of_lookup.
      apply last_Some in Hlast as [l ->].
      rewrite filter_app, filter_cons, decide_True by done.
      rewrite filter_nil, last_snoc. by eexists. }
    by rewrite E, lookup_empty in Hs. }
  destruct (Nat.ltb_spec 0 (size m)) as [_|?]; [|lia].
  assert (∀ p, p ∈ set_union sets
               ↔ ∃ a, last_of_its_name apps a ∧ p ∈ collected_permissions a)
    as Hall.
  { intros p. unfold set_union. rewrite elem_of_union_list. split.
    - intros (s & (a & Ha & ->)%Hsets & Hp). by exists a.
    - intros (a & Ha & Hp). exists (collected_permissions a). split; [|done].
      apply Hsets. by exists a. }
  assert (∃ common,
    (if Nat.ltb 1 (size m) then set_intersection sets else Some (set_union sets))
    = Some common
    ∧ ∀ p, p ∈ common
           ↔ ∀ a, last_of_its_name apps a → p ∈ collected_permissions a)
    as (common & -> & Hcommon).
  { destruct (Nat.ltb_spec 1 (size m)) as [Hmany|Hone].
    - destruct (set_intersection sets) as [common|] eqn:E.
      2:{ destruct sets; [simpl in Hsize; lia|done]. }
      exists common. split; [done|]. intros p.
      rewrite (elem_of_set_intersection _ _ p E). split.
      + intros Hp a Ha. apply Hp, Hsets. by exists a.
      + intros Hp s (a & Ha & ->)%Hsets. by apply Hp.
    - exists (set_union sets). split; [done|]. intros p. rewrite Hall.
      destruct sets as [|s [|s' sets']] eqn:E; [simpl in Hsize; lia| |
        simpl in Hsize; lia].
      split.
      + intros (a & Ha & Hp) b Hb.
        assert (collected_permissions a ∈ [s]) as Ha'
          by (apply Hsets; by exists a).
        assert (collected_permissions b ∈ [s]) as Hb'
          by (apply Hsets; by exists b).
        apply list_elem_of_singleton in Ha', Hb'. congruence.
      + intros Hp. assert (s ∈ [s]) as (a & Ha & ->)%Hsets by left.
        exists a. split; [done|]. by apply Hp. }
  simpl.
  assert (common ⊆ set_union sets) as Hsub.
  { intros p Hp. apply Hall.
    destruct sets as [|s sets'] eqn:E; [simpl in Hsize; lia|].
    assert (s ∈ s :: sets') as (a & Ha & ->)%Hsets by left.
    exists a. split; [done|]. by apply Hcommon. }
  apply subseteq_size in Hsub.
  destruct (Nat.ltb_spec 0 (size (set_union sets))) as [Hsome|Hnone].
  - rewrite pva_percent_pos by done. simpl.
    eexists _, (set_union sets). split; [done|]. simpl.
    split_and!; [done..| |lia].
    apply (ratio_bounds (Z.of_nat (size common)) (size (set_union sets))); lia.
  - simpl. eexists _, (set_union sets). split; [done|]. simpl.
    split_and!; [done..|by split|done].
Qed.

Lemma compare_genre_row_witness :
  ∃ row (all_permissions : gset string),
    compare_genre "Tools" duplicate_name_apps = Some (Some row)
    ∧ cmp_genre row = "Tools"
    ∧ app_count row = length duplicate_name_apps
    ∧ (∀ p, p ∈ common_permissions row
            ↔ ∀ a, last_of_its_name duplicate_name_apps a →
                   p ∈ collected_permissions a)
    ∧ (∀ p, p ∈ all_permissions
            ↔ ∃ a, last_of_its_name duplicate_name_apps a
                   ∧ p ∈ collected_permissions a)
    ∧ common_count row = size (common_permissions row)
    ∧ total_permissions row = size all_permissions
    ∧ common_count row ≤ total_permissions row
    ∧ percentage (common_ratio row)
    ∧ (total_permissions row = 0 → common_ratio row = 0%Q).
Proof. apply (compare_genre_row "Tools" duplicate_name_apps). simpl. lia. Defined.

End GenreRows.

(** ** What the reader returns for any file *)

Section ReaderInvariant.
Import TripleReader Spec.

(** The invariant of the loop over the lines. *)
Lemma process_line_well_formed (st : reader_state) (raw : string) :
  Forall well_formed_dict (apps_data st) →
  (is_Some (d_app_name (current_app st)) → is_Some (complete (current_app st))) →
  Forall well_formed_dict (apps_data (process_line st raw))
  ∧ (is_Some (d_app_name (current_app (process_line st raw))) →
     is_Some (complete (current_app (process_line st raw)))).
Proof.
  intros Happs Hcur.
  assert (pending st = true → Forall well_formed_dict (saved st)) as Hsaved.
  { intros [Hd Ht]%andb_true_iff. apply Forall_app. split; [done|].
    apply Forall_singleton. unfold well_formed_dict. simpl. split_and!.
    - by destruct (triples st).
    - exact Hd.
    - intros Hname. destruct (Hcur Hname) as [a Ha]. unfold complete in *.
      simpl.
      destruct (d_app_name (current_app st)); [|done].
      destruct (d_app_id (current_app st)); [|done].
      destruct (d_genre (current_app st)); [|done]. by eexists. }
  assert (∀ d, is_Some (complete d)
               ↔ is_Some (d_app_name d) ∧ is_Some (d_app_id d)
                 ∧ is_Some (d_genre d)) as Hcomplete.
  { intros [[n|] [i|] [g|] ts]; unfold complete; simpl; split;
      try (by intros [? ?]); try (by intros ([? ?] & [? ?] & [? ?]));
      by eauto. }
  unfold process_line. cbv zeta.
  generalize (Py.strip raw). intros line.
  destruct (String.eqb line ""); [done|].
  destruct (Py.startswith NAME_PREFIX line).
  { destruct (pending st) eqn:Hp; cbn [apps_data current_app];
      (split; [by auto|]); intros _; by eexists. }
  destruct (Py.startswith ID_PREFIX line).
  { cbn [apps_data current_app]. split; [done|].
    cbn [d_app_name]. intros Hname.
    apply Hcomplete. cbn [d_app_name d_app_id d_genre].
    apply Hcur, Hcomplete in Hname as (? & ? & ?). by eauto. }
  destruct (Py.startswith GENRE_PREFIX line).
  { cbn [apps_data current_app]. split; [done|].
    cbn [d_app_name]. intros Hname.
    apply Hcomplete. cbn [d_app_name d_app_id d_genre].
    apply Hcur, Hcomplete in Hname as (? & ? & ?). by eauto. }
  destruct (Py.startswith TRIPLES_PREFIX line); [done|].
  destruct (Py.startswith "---" line).
  { destruct (pending st) eqn:Hp; [|done]. cbn [apps_data current_app].
    split; [by auto|]. by intros [? ?]. }
  destruct (Py.contains_char "," line); [|done].
  destruct (Py.split "," line) as [|c [|p [|s [|? ?]]]]; try done.
  destruct (Py.int s); done.
Qed.

Lemma parse_lines_well_formed (lines : list string) :
  Forall well_formed_dict (parse_lines lines).
Proof.
  unfold parse_lines.
  assert (∀ st,
    Forall well_formed_dict (apps_data st) →
    (is_Some (d_app_name (current_app st)) → is_Some (complete (current_app st))) →
    Forall well_formed_dict (finish (foldl process_line st lines))) as Hloop.
  { induction lines as [|raw lines IH]; intros st Happs Hcur.
    - simpl. unfold finish. destruct (pending st) eqn:Hp; [|done].
      apply andb_true_iff in Hp as [Hd Ht]. apply Forall_app. split; [done|].
      apply Forall_singleton. unfold well_formed_dict. simpl. split_and!.
      + by destruct (triples st).
      + exact Hd.
      + intros Hname. destruct (Hcur Hname) as [a Ha]. unfold complete in *.
        simpl.
        destruct (d_app_name (current_app st)); [|done].
        destruct (d_app_id (current_app st)); [|done].
        destruct (d_genre (current_app st)); [|done]. by eexists.
    - cbn [foldl].
      destruct (process_line_well_formed st raw Happs Hcur) as [Happs' Hcur'].
      by apply IH. }
  apply Hloop; [done|]. by intros [? ?].
Qed.

(** X15.  Whatever the file holds, each application that either
    [load_triple_data] returns has at least one triple and at least one of
    the keys name, identifier and genre, and an application that has a name
    has all three keys, so that the analyses can subscript them. *)
Theorem loaded_applications_well_formed (content : string) :
  Forall well_formed_dict (ConsistencyVisualization.load_triple_data content)
  ∧ Forall well_formed_dict (PermissionVisualAnalysis.load_triple_data content).
Proof. split; apply parse_lines_well_formed. Qed.

End ReaderInvariant.

(** ** Reading back the names, identifiers and genres *)

Section RecordRoundTrip.
Import TripleReader Generator Spec Inputs.

Lemma startswith_app_self (p y : string) : Py.startswith p (p +:+ y) = true.
Proof.
  induction p as [|c p IH]; [done|]. rewrite append_cons. simpl.
  by rewrite Ascii.eqb_refl.
Qed.

Lemma remove_all_from_skip (p s y : string) :
  Py.remove_all_from (String.length s) p (s +:+ y) = Py.remove_all_from 0 p y.
Proof.
  induction s as [|c s IH]; [by rewrite append_nil_l|].
  rewrite append_cons. simpl. apply IH.
Qed.

Lemma remove_all_prefix (p y : string) :
  p ≠ "" → Py.remove_all p (p +:+ y) = Py.remove_all p y.
Proof.
  intros Hp. unfold Py.remove_all. destruct p as [|c p]; [done|].
  rewrite append_cons. cbn [Py.remove_all_from].
  rewrite <- append_cons, startswith_app_self.
  replace (String.length (String c p) - 1) with (String.length p)
    by (simpl; lia).
  apply remove_all_from_skip.
Qed.

Lemma remove_all_absent (p s : string) :
  Py.contains p s = false → Py.remove_all p s = s.
Proof.
  unfold Py.remove_all. induction s as [|c s IH]; [done|].
  cbn [Py.contains Py.remove_all_from].
  intros [Hstart Hrest]%orb_false_iff. rewrite Hstart. by rewrite IH.
Qed.

Lemma read_field (prefix field : string) :
  prefix ≠ "" → (∀ y, Py.startswith prefix (String " " y) = false) →
  clean_field prefix field →
  Py.strip (Py.remove_all prefix
              (prefix +:+ Py.rstrip (" " +:+ field +:+ NL))) = field.
Proof.
  intros Hp Hspace (_ & Htrim & Habsent).
  destruct (rstrip_field_line field Htrim) as [-> Hstrip].
  rewrite remove_all_prefix by done.
  rewrite remove_all_absent; [done|].
  case_decide; [by destruct prefix|].
  change (" " +:+ field) with (String " " field).
  cbn [Py.contains]. by rewrite Hspace, Habsent.
Qed.

(** How the reader treats the name, identifier and genre lines of a clean
    block. *)
Lemma process_name_line_value (st : reader_state) (field : string) :
  clean_field NAME_PREFIX field →
  process_line st (("应用名称: " +:+ field) +:+ NL)
  = if pending st
    then {| apps_data := saved st;
            current_app := {| d_app_name := Some field; d_app_id := Some "";
                              d_genre := Some ""; d_triples := [] |};
            triples := [] |}
    else {| apps_data := apps_data st;
            current_app := {| d_app_name := Some field; d_app_id := Some "";
                              d_genre := Some ""; d_triples := [] |};
            triples := triples st |}.
Proof.
  intros Hclean. unfold process_line.
  change (("应用名称: " +:+ field) +:+ NL)
    with (NAME_PREFIX +:+ (" " +:+ field +:+ NL)).
  rewrite strip_prefixed by (discriminate || reflexivity). cbv zeta.
  rewrite (read_field NAME_PREFIX field) by (done || (intros y; reflexivity)).
  generalize (Py.rstrip (" " +:+ field +:+ NL)). intros y.
  replace (String.eqb (NAME_PREFIX +:+ y) "") with false
    by (vm_compute; reflexivity).
  replace (Py.startswith NAME_PREFIX (NAME_PREFIX +:+ y)) with true
    by (vm_compute; reflexivity).
  reflexivity.
Qed.

Lemma process_id_line_value (st : reader_state) (field : string) :
  clean_field ID_PREFIX field →
  process_line st (("应用ID: " +:+ field) +:+ NL)
  = {| apps_data := apps_data st;
       current_app := {| d_app_name := d_app_name (current_app st);
                         d_app_id := Some field;
                         d_genre := d_genre (current_app st);
                         d_triples := [] |};
       triples := triples st |}.
Proof.
  intros Hclean. unfold process_line.
  change (("应用ID: " +:+ field) +:+ NL)
    with (ID_PREFIX +:+ (" " +:+ field +:+ NL)).
  rewrite strip_prefixed by (discriminate || reflexivity). cbv zeta.
  rewrite (read_field ID_PREFIX field) by (done || (intros y; reflexivity)).
  generalize (Py.rstrip (" " +:+ field +:+ NL)). intros y.
  replace (String.eqb (ID_PREFIX +:+ y) "") with false
    by (vm_compute; reflexivity).
  replace (Py.startswith NAME_PREFIX (ID_PREFIX +:+ y)) with false
    by (vm_compute; reflexivity).
  replace (Py.startswith ID_PREFIX (ID_PREFIX +:+ y)) with true
    by (vm_compute; reflexivity).
  reflexivity.
Qed.

Lemma process_genre_line_value (st : reader_state) (field : string) :
  clean_field GENRE_PREFIX field →
  process_line st (("应用类别: " +:+ field) +:+ NL)
  = {| apps_data := apps_data st;
       current_app := {| d_app_name := d_app_name (current_app st);
                         d_app_id := d_app_id (current_app st);
                         d_genre := Some field;
                         d_triples := [] |};
       triples := triples st |}.
Proof.
  intros Hclean. unfold process_line.
  change (("应用类别: " +:+ field) +:+ NL)
    with (GENRE_PREFIX +:+ (" " +:+ field +:+ NL)).
  rewrite strip_prefixed by (discriminate || reflexivity). cbv zeta.
  rewrite (read_field GENRE_PREFIX field) by (done || (intros y; reflexivity)).
  generalize (Py.rstrip (" " +:+ field +:+ NL)). intros y.
  replace (String.eqb (GENRE_PREFIX +:+ y) "") with false
    by (vm_compute; reflexivity).
  replace (Py.startswith NAME_PREFIX (GENRE_PREFIX +:+ y)) with false
    by (vm_compute; reflexivity).
  replace (Py.startswith ID_PREFIX (GENRE_PREFIX +:+ y)) with false
    by (vm_compute; reflexivity).
  replace (Py.startswith GENRE_PREFIX (GENRE_PREFIX +:+ y)) with true
    by (vm_compute; reflexivity).
  reflexivity.
Qed.

(** Reading the lines of one clean block, separator apart. *)
Lemma process_clean_block_lines (st : reader_state)
    (block : app_info * list triple) :
  clean_info block.1 → Forall (.∈ all_triples) block.2 →
  TripleReader.triples st = [] →
  foldl process_line st ((fun l => l +:+ NL) <$> block_lines true block)
  = {| apps_data := apps_data st;
       current_app := {| d_app_name := Some (app_name block.1);
                         d_app_id := Some (app_id block.1);
                         d_genre := Some (app_genre block.1);
                         d_triples := [] |};
       triples := as_triple <$> block.2 |}.
Proof.
  destruct block as [key ts]. intros (Hname & Hid & Hgenre) Hts Hnil.
  simpl in Hname, Hid, Hgenre, Hts.
  unfold block_lines. rewrite app_nil_r. simpl fst. simpl snd.
  rewrite fmap_app, foldl_app. rewrite !fmap_cons, fmap_nil. cbn [foldl].
  rewrite process_name_line_value by done.
  rewrite (not_pending st Hnil).
  rewrite process_id_line_value by done. simpl.
  rewrite process_genre_line_value by done. simpl.
  rewrite process_triples_header, process_triple_lines by done. simpl.
  by rewrite Hnil.
Qed.

(** Reading the lines of all the blocks. *)
Lemma parse_clean_blocks (blocks : list (app_info * list triple))
    (st : reader_state) :
  Forall (fun block => clean_info block.1 ∧ generated_block block) blocks →
  TripleReader.triples st = [] →
  finish (foldl process_line st ((fun l => l +:+ NL) <$> all_lines blocks))
  = apps_data st ++ (dict_of_block <$> blocks).
Proof.
  intros Hblocks. revert st.
  induction Hblocks as [|b blocks [Hclean Hb] Hblocks IH]; intros st Hnil.
  - simpl. unfold finish. rewrite (not_pending st Hnil). by rewrite app_nil_r.
  - pose proof Hb as (_ & Hne & Hts).
    pose proof (process_clean_block_lines st b Hclean Hts Hnil) as Hblock.
    assert (∀ apps d, nonempty_dict d = true →
              pending {| apps_data := apps; current_app := d;
                         triples := as_triple <$> b.2 |} = true) as Hpending.
    { intros apps d Hd. by apply pending_collected. }
    destruct blocks as [|b' blocks].
    + change (all_lines [b]) with (block_lines true b).
      rewrite Hblock. unfold finish. rewrite Hpending by done. done.
    + change (all_lines (b :: b' :: blocks))
        with (block_lines false b ++ all_lines (b' :: blocks)).
      rewrite block_lines_separator, !fmap_app, !foldl_app, Hblock.
      simpl foldl at 2. rewrite process_separator.
      rewrite Hpending by done.
      rewrite IH by done. unfold saved. simpl.
      by rewrite <- app_assoc.
Qed.

Lemma clean_single_line_info (info : app_info) :
  clean_info info → single_line_info info.
Proof. intros ([? _] & [? _] & [? _]). by split_and!. Qed.

(** The blocks written for a clean database. *)
Lemma clean_database_blocks (apps : list app_data) :
  Forall clean_record apps →
  Forall (fun block : app_info * list triple =>
            clean_info block.1 ∧ generated_block block)
         (group_results (process_app_database apps)).
Proof.
  intros Happs.
  assert (Forall (fun r : result => clean_info r.1.1.1
                                    ∧ (r.1.1.2, r.1.2, r.2) ∈ all_triples)
                 (process_app_database apps)) as Hresults.
  { unfold process_app_database. apply Forall_forall. intros r Hr.
    apply list_elem_of_bind in Hr as (app & Hr & Happ).
    pose proof (proj1 (Forall_forall _ _) Happs app Happ) as Hclean.
    pose proof (proj1 (Forall_forall _ _) (analyze_permissions_generated app) r Hr)
      as [Hinfo Htriple].
    split; [|done]. by rewrite Hinfo. }
  assert (Forall generated_block (group_results (process_app_database apps)))
    as Hgenerated.
  { apply group_results_generated. eapply Forall_impl; [exact Hresults|].
    intros r [Hclean Ht]. split; [|done]. by apply clean_single_line_info. }
  rewrite group_results_blocks in *.
  apply Forall_fmap, Forall_forall. intros key Hkey. simpl.
  split.
  - apply elem_of_first_occurrences, list_elem_of_fmap in Hkey as (r & -> & Hr).
    by apply (proj1 (Forall_forall _ _) Hresults r Hr).
  - rewrite Forall_fmap in Hgenerated.
    by apply (proj1 (Forall_forall _ _) Hgenerated key Hkey).
Qed.

(** Reading back what [save_results] wrote for a clean database. *)
Lemma parse_saved_records (apps : list app_data) :
  Forall clean_record apps →
  parse_lines (skip_header (Py.readlines
    (save_results (process_app_database apps))))
  = dict_of_block <$> group_results (process_app_database apps).
Proof.
  intros Happs. pose proof (clean_database_blocks apps Happs) as Hblocks.
  rewrite save_results_join, readlines_join.
  2:{ apply Forall_cons. split; [apply header_single_line|].
      apply all_lines_single_line. eapply Forall_impl; [exact Hblocks|].
      by intros b [_ ?]. }
  rewrite fmap_cons.
  assert (∀ lines, skip_header ((HEADER +:+ NL) :: lines) = lines) as ->.
  { intros lines. unfold skip_header.
    replace (Py.contains_char ","%char (HEADER +:+ NL)) with true
      by (vm_compute; reflexivity).
    done. }
  unfold parse_lines. by rewrite parse_clean_blocks.
Qed.

(** X16.  The full round trip.  When the name, the identifier and the genre
    of every record fit on a line, have no surrounding white space and do
    not contain the prefix of their own line, reading back the file that
    [save_results] wrote yields one dictionary for each distinct (name, id,
    genre) key of the records, in the order in which the keys first occur,
    with exactly that name, identifier and genre ('unknown' for a key that
    the record lacked) and the triples generated for the records of the
    key; all the keys that the analyses subscript are present. *)
Theorem save_load_round_trip_records (apps : list app_data) :
  Forall clean_record apps →
  ConsistencyVisualization.load_triple_data
    (save_results (process_app_database apps))
  = dict_of_block <$> record_blocks apps
  ∧ PermissionVisualAnalysis.load_triple_data
      (save_results (process_app_database apps))
    = dict_of_block <$> record_blocks apps
  ∧ mapM complete (dict_of_block <$> record_blocks apps)
    = Some (app_of_block <$> record_blocks apps).
Proof.
  intros Happs.
  unfold ConsistencyVisualization.load_triple_data,
    PermissionVisualAnalysis.load_triple_data.
  rewrite parse_saved_records, group_results_records by done.
  split_and!; [done..|].
  apply mapM_Some_2, Forall2_fmap, Forall_Forall2_diag, Forall_forall.
  by intros block _.
Qed.

Lemma save_load_round_trip_records_witness :
  ConsistencyVisualization.load_triple_data
    (save_results (process_app_database [phone_app]))
  = dict_of_block <$> record_blocks [phone_app]
  ∧ PermissionVisualAnalysis.load_triple_data
      (save_results (process_app_database [phone_app]))
    = dict_of_block <$> record_blocks [phone_app]
  ∧ mapM complete (dict_of_block <$> record_blocks [phone_app])
    = Some (app_of_block <$> record_blocks [phone_app]).
Proof.
  apply (save_load_round_trip_records [phone_app]).
  apply Forall_cons. split; [|apply Forall_nil; exact I].
  repeat split; vm_compute; reflexivity.
Defined.

End RecordRoundTrip.

(** ** From the database to the metrics *)

Section Pipeline.
Import TripleReader Generator Spec Inputs.
Local Open Scope nat_scope.

(** With pairwise distinct keys, each record is written as one block. *)
Lemma distinct_keys_blocks (apps : list app_data) :
  NoDup (info_of <$> apps) →
  group_results (process_app_database apps) = block_of_record <$> apps.
Proof.
  intros Hkeys. rewrite group_results_blocks.
  assert (first_occurrences
            ((fun r : result => r.1.1.1) <$> process_app_database apps)
          = info_of <$> apps) as ->.
  { clear -Hkeys. induction apps as [|a apps IH] using rev_ind; [done|].
    rewrite fmap_app in Hkeys. apply NoDup_app in Hkeys as (Hkeys & Ha & _).
    unfold process_app_database in *. rewrite bind_app, !fmap_app. simpl.
    rewrite app_nil_r.
    destruct (analyze_permissions_keys a) as [Hall Hne].
    rewrite (first_occurrences_app_same _ _ (info_of a)) by done.
    rewrite decide_False.
    - by rewrite IH.
    - intros Hin. apply database_keys in Hin. apply (Ha _ Hin). left. }
  rewrite <- list_fmap_compose. apply list_fmap_ext.
  intros i a Ha%list_elem_of_lookup_2. unfold block_of_record. simpl. f_equal.
  clear i. induction apps as [|b apps IH]; [by apply elem_of_nil in Ha|].
  rewrite fmap_cons in Hkeys. apply NoDup_cons in Hkeys as [Hb Hkeys].
  unfold process_app_database in *. rewrite bind_cons, triples_of_app.
  apply elem_of_cons in Ha as [->|Ha].
  - rewrite triples_of_own, (triples_of_absent _ (apps ≫= _)).
    + by rewrite app_nil_r.
    + intros Hin. by apply database_keys in Hin.
  - rewrite (triples_of_absent _ (analyze_permissions b)).
    + by apply IH.
    + intros (r & Hkey & Hr)%list_elem_of_fmap.
      pose proof (proj1 (Forall_forall _ _) (analyze_permissions_generated b) r Hr)
        as [Hinfo _].
      apply Hb. rewrite <- Hinfo, <- Hkey. apply list_elem_of_fmap. by exists a.
Qed.

(** Triples with pairwise distinct (category, channel) pairs change no
    recorded status. *)
Lemma status_changes_distinct (seen ts : list TripleReader.triple) :
  NoDup ((fun t => (permission t, channel t)) <$> (seen ++ ts)) →
  status_changes_from seen ts = 0.
Proof.
  revert seen. induction ts as [|t ts IH]; intros seen Hdistinct; [done|].
  cbn [status_changes_from].
  rewrite IH by (by rewrite <- app_assoc).
  assert (changes_status seen t = false) as ->; [|done].
  unfold changes_status, entry.
  assert (filter (fun t' => permission t' = permission t ∧ channel t' = channel t)
                 seen = []) as ->; [|done].
  rewrite fmap_app, fmap_cons in Hdistinct.
  apply NoDup_app in Hdistinct as (_ & Hsep & _).
  destruct (filter _ seen) as [|t' l] eqn:E; [done|]. exfalso.
  assert (t' ∈ filter (fun t' => permission t' = permission t
                                 ∧ channel t' = channel t) seen) as Ht'
    by (rewrite E; left).
  apply list_elem_of_filter in Ht' as [[Hp Hc] Ht'].
  apply (Hsep (permission t, channel t)).
  - apply list_elem_of_fmap. exists t'. by rewrite Hp, Hc.
  - left.
Qed.

Lemma record_pairs_distinct (app : app_data) :
  NoDup ((fun t => (permission t, channel t))
           <$> app_triples (app_of_block (block_of_record app))).
Proof.
  unfold app_of_block, block_of_record. simpl.
  rewrite <- !list_fmap_compose.
  rewrite (fmap_Permutation _ _ _ (analyze_permissions_expected app)).
  unfold expected_results, CHANNELS.
  rewrite !bind_cons, list_bind_nil, app_nil_r, !fmap_app,
    <- !list_fmap_compose.
  apply (bool_decide_unpack _). vm_compute. reflexivity.
Qed.

(** X17.  The pipeline on a database with pairwise distinct (name, id,
    genre) keys, whose fields are read back as written: the file written by
    [save_results] is loaded as one application for each record, in order,
    with the 27 triples of the record, and [calculate_metrics] finds no
    internal contradiction in it: the ICA ratio is 0 and no genre has an
    ICA entry.  Only records that share their key, which are merged into
    one block, can make the ICA differ from 0. *)
Theorem distinct_records_have_no_internal_contradiction (apps : list app_data) :
  Forall clean_record apps → NoDup (info_of <$> apps) →
  mapM complete
    (ConsistencyVisualization.load_triple_data
       (save_results (process_app_database apps)))
  = Some (app_of_block <$> (block_of_record <$> apps))
  ∧ Forall (fun a => length (app_triples a) = 27)
           (app_of_block <$> (block_of_record <$> apps))
  ∧ ∃ m, ConsistencyVisualization.calculate_metrics
           (app_of_block <$> (block_of_record <$> apps)) = Some m
         ∧ (ConsistencyVisualization.ica_ratio m == 0)%Q
         ∧ ConsistencyVisualization.m_ica_by_genre m = ∅.
Proof.
  intros Hclean Hkeys.
  set (loaded := app_of_block <$> (block_of_record <$> apps)).
  assert (∀ a, a ∈ loaded → status_changes (app_triples a) = 0) as Hchanges.
  { intros a (b & -> & (app & -> & _)%list_elem_of_fmap)%list_elem_of_fmap.
    apply (status_changes_distinct []), record_pairs_distinct. }
  split_and!.
  - unfold ConsistencyVisualization.load_triple_data.
    rewrite parse_saved_records, distinct_keys_blocks by done.
    apply mapM_Some_2, Forall2_fmap, Forall_Forall2_diag, Forall_forall.
    by intros block _.
  - apply Forall_forall.
    intros a (b & -> & (app & -> & _)%list_elem_of_fmap)%list_elem_of_fmap.
    unfold app_of_block, block_of_record. simpl. rewrite !length_fmap.
    by rewrite (Permutation_length (analyze_permissions_expected app)),
      expected_results_length.
  - destruct (main_loop_by_genre loaded) as (st & Hst & Hby).
    destruct (main_loop_counters loaded) as (st0 & Hst0 & Hica & _).
    rewrite Hst in Hst0. injection Hst0 as <-.
    destruct (calculate_metrics_fields loaded st Hst)
      as (m & Hm & _ & _ & _ & _ & Hratio & Hgenre).
    assert (∀ l : list app, (∀ a, a ∈ l → a ∈ loaded) →
              sum_list_with (fun a => status_changes (app_triples a)) l = 0)
      as Hzero.
    { induction l as [|a l IH]; intros Hl; [done|]. simpl.
      rewrite Hchanges by (apply Hl; left).
      apply IH. intros b Hb. apply Hl. by right. }
    exists m. split_and!; [done| |].
    + rewrite Hzero in Hica by done.
      unfold ConsistencyVisualization.ica_ratio_of in Hratio.
      rewrite Hica in Hratio.
      destruct (Nat.ltb 0 (ConsistencyVisualization.total_permissions st)).
      * unfold ConsistencyVisualization.percent, Py.truediv in Hratio.
        destruct (Qeq_bool _ 0); [done|]. simpl in Hratio.
        injection Hratio as <-. unfold Qdiv. by rewrite !Qmult_0_l.
      * by injection Hratio as <-.
    + rewrite Hgenre. apply map_eq. intros g. rewrite Hby, lookup_empty.
      rewrite decide_True; [done|]. unfold genre_total. apply Hzero.
      intros a Ha. by apply list_elem_of_filter in Ha as [_ ?].
Qed.

Lemma distinct_records_have_no_internal_contradiction_witness :
  mapM complete
    (ConsistencyVisualization.load_triple_data
       (save_results (process_app_database [phone_app])))
  = Some (app_of_block <$> (block_of_record <$> [phone_app]))
  ∧ Forall (fun a => length (app_triples a) = 27)
           (app_of_block <$> (block_of_record <$> [phone_app]))
  ∧ ∃ m, ConsistencyVisualization.calculate_metrics
           (app_of_block <$> (block_of_record <$> [phone_app])) = Some m
         ∧ (ConsistencyVisualization.ica_ratio m == 0)%Q
         ∧ ConsistencyVisualization.m_ica_by_genre m = ∅.
Proof.
  apply (distinct_records_have_no_internal_contradiction [phone_app]).
  - apply Forall_cons. split; [|apply Forall_nil; exact I].
    repeat split; vm_compute; reflexivity.
  - apply NoDup_singleton.
Defined.

(** *** The categories of a generated application *)

Lemma record_shape (app : app_data) :
  (fun t => (permission t, channel t))
    <$> app_triples (app_of_block (block_of_record app))
  ≡ₚ all_pairs.
Proof.
  unfold app_of_block, block_of_record. simpl.
  rewrite <- !list_fmap_compose.
  rewrite (fmap_Permutation _ _ _ (analyze_permissions_expected app)).
  unfold expected_results, CHANNELS.
  rewrite !bind_cons, list_bind_nil, app_nil_r, !fmap_app,
    <- !list_fmap_compose.
  apply perm_of_eq. vm_compute. reflexivity.
Qed.

Lemma categories_shape (ts : list TripleReader.triple) :
  categories ts = list_to_set ((fun t => (permission t, channel t)) <$> ts).*1.
Proof. unfold categories. by rewrite <- list_fmap_compose. Qed.

Lemma channels_of_shape (ts : list TripleReader.triple) (p : string) :
  channels_of ts p
  = list_to_set
      (filter (fun pc : string * string => pc.1 = p)
              ((fun t => (permission t, channel t)) <$> ts)).*2.
Proof.
  unfold channels_of. f_equal.
  induction ts as [|t ts IH]; [done|].
  rewrite fmap_cons, !filter_cons. cbn [fst].
  destruct (decide (permission t = p)); rewrite ?fmap_cons, IH; done.
Qed.

Lemma record_groupings (app : app_data) (p : string)
    (channels : gmap string Z) :
  PermissionVisualAnalysis.group_triples
    (app_triples (app_of_block (block_of_record app))) !! p = Some channels →
  dom channels
  = {[ ConsistencyVisualization.CH1; ConsistencyVisualization.CH2;
       ConsistencyVisualization.CH3 ]}.
Proof.
  intros Hp.
  assert (p ∈ categories (app_triples (app_of_block (block_of_record app))))
    as Hcat.
  { rewrite <- group_triples_dom. apply elem_of_dom. by eexists. }
  destruct (group_triples_channels _ _ _ Hp) as [_ ->].
  rewrite channels_of_shape. rewrite categories_shape in Hcat.
  rewrite (record_shape app) in Hcat. rewrite (record_shape app).
  apply elem_of_list_to_set in Hcat.
  assert (p ∈ PERMISSION_CATEGORIES) as Hp'.
  { apply list_elem_of_fmap in Hcat as ([c ch] & -> & Hin). simpl.
    unfold all_pairs in Hin.
    apply list_elem_of_bind in Hin as (ch' & Hin & _).
    apply list_elem_of_fmap in Hin as (cat & [= -> ->] & ?). done. }
  clear Hcat Hp.
  change PERMISSION_CATEGORIES
    with [ "Location"; "Contacts"; "Phone"; "SMS"; "Storage"; "Camera";
           "Microphone"; "Calendar"; "Sensors" ] in Hp'.
  assert ((filter (fun pc : string * string => pc.1 = p) all_pairs).*2
          = [ ConsistencyVisualization.CH1; ConsistencyVisualization.CH2;
              ConsistencyVisualization.CH3 ]) as ->.
  { repeat (apply elem_of_cons in Hp' as [->|Hp']; [vm_compute; reflexivity|]).
    by apply elem_of_nil in Hp'. }
  simpl. set_solver.
Qed.

(** X18.  The triples that the generator emits for a record, read back as
    an application, have nine categories, each with an entry on each of
    the three channels and on no other.  The test for three channel entries
    in [calculate_metrics] therefore excludes none of them: all nine enter
    the CCOR and the CCCR totals of the genre. *)
Theorem generated_categories_are_all_counted (app : app_data) :
  category_count (app_of_block (block_of_record app)) = 9
  ∧ count_categories ccor_counted (app_of_block (block_of_record app)) = 9
  ∧ count_categories cccr_counted (app_of_block (block_of_record app)) = 9
  ∧ three_channels (app_triples (app_of_block (block_of_record app))).
Proof.
  set (a := app_of_block (block_of_record app)).
  assert (category_count a = 9) as Hcount.
  { unfold category_count. rewrite group_triples_size, categories_shape.
    subst a. rewrite (record_shape app). by vm_compute. }
  assert (∀ p channels,
    PermissionVisualAnalysis.group_triples (app_triples a) !! p = Some channels →
    size channels = 3
    ∧ is_Some (channels !! ConsistencyVisualization.CH1)
    ∧ is_Some (channels !! ConsistencyVisualization.CH2)
    ∧ is_Some (channels !! ConsistencyVisualization.CH3)) as Hall.
  { intros p channels Hp. pose proof (record_groupings app p channels Hp) as Hdom.
    split_and!.
    - rewrite <- size_dom, Hdom. by vm_compute.
    - apply elem_of_dom. rewrite Hdom. set_solver.
    - apply elem_of_dom. rewrite Hdom. set_solver.
    - apply elem_of_dom. rewrite Hdom. set_solver. }
  split_and!; [done| | |].
  - unfold count_categories. rewrite map_filter_id; [done|].
    intros p channels Hp. destruct (Hall p channels Hp) as (? & ? & ? & _).
    by split_and!.
  - unfold count_categories. rewrite map_filter_id; [done|].
    intros p channels Hp. destruct (Hall p channels Hp) as (? & ? & _ & ?).
    by split_and!.
  - intros t Ht.
    assert ((permission t, channel t) ∈ all_pairs) as Hpair.
    { rewrite <- (record_shape app). apply list_elem_of_fmap. by exists t. }
    unfold all_pairs in Hpair.
    apply list_elem_of_bind in Hpair as (ch & Hin & Hch).
    apply list_elem_of_fmap in Hin as (cat & [= _ ->] & _).
    exact Hch.
Qed.

End Pipeline.

(** ** Counters, sorting and the frequency analysis *)

Section Frequency.
Import TripleReader PermissionVisualAnalysis Spec Inputs.
Local Open Scope nat_scope.

Lemma occurrences_snoc {A} `{EqDecision A} (x y : A) (l : list A) :
  occurrences x (l ++ [y]) = occurrences x l + (if decide (y = x) then 1 else 0).
Proof.
  unfold occurrences. rewrite filter_app, length_app, filter_cons, filter_nil.
  by case_decide.
Qed.

Lemma occurrences_absent {A} `{EqDecision A} (x : A) (l : list A) :
  x ∉ l → occurrences x l = 0.
Proof.
  intros Hx. unfold occurrences.
  destruct (filter _ l) as [|y k] eqn:E; [done|]. exfalso.
  assert (y ∈ filter (fun y => y = x) l) as Hy by (rewrite E; left).
  apply list_elem_of_filter in Hy as [-> Hy]. done.
Qed.

Lemma occurrences_pos {A} `{EqDecision A} (x : A) (l : list A) :
  x ∈ l → 0 < occurrences x l.
Proof.
  intros Hx. unfold occurrences.
  assert (x ∈ filter (fun y => y = x) l) as Hin by by apply list_elem_of_filter.
  destruct (filter _ l); [by apply elem_of_nil in Hin|simpl; lia].
Qed.

(** Incrementing the count of a key in a counter with pairwise distinct
    keys. *)
Lemma counter_add_keys {K} `{EqDecision K} (key : K) (keys : list K)
    (f : K → nat) :
  NoDup keys →
  counter_add key ((fun k => (k, f k)) <$> keys)
  = if decide (key ∈ keys)
    then (fun k => (k, if decide (k = key) then S (f k) else f k)) <$> keys
    else ((fun k => (k, f k)) <$> keys) ++ [(key, 1)].
Proof.
  induction 1 as [|k keys Hk Hkeys IH]; [done|].
  rewrite !fmap_cons. cbn [counter_add].
  destruct (decide (k = key)) as [->|Hne].
  - rewrite decide_True by left. f_equal.
    apply list_fmap_ext. intros _ k' Hk'%list_elem_of_lookup_2.
    rewrite decide_False; [done|]. by intros ->.
  - rewrite IH. destruct (decide (key ∈ keys)) as [Hin|Hout].
    + rewrite decide_True by by right. done.
    + rewrite decide_False; [done|].
      intros [->|?]%elem_of_cons; done.
Qed.

(** Counting the elements of a list one by one gives its tally. *)
Lemma counter_tally {K} `{EqDecision K} (l : list K) :
  foldl (fun counter k => counter_add k counter) [] l = tally l.
Proof.
  induction l as [|x l IH] using rev_ind; [done|].
  rewrite foldl_snoc, IH. unfold tally.
  rewrite counter_add_keys by apply NoDup_first_occurrences.
  rewrite first_occurrences_snoc.
  destruct (decide (x ∈ l)) as [Hin|Hout].
  - rewrite decide_True by by apply elem_of_first_occurrences.
    apply list_fmap_ext. intros _ k _. rewrite occurrences_snoc.
    destruct (decide (k = x)) as [->|Hne].
    + rewrite decide_True by done. f_equal. lia.
    + rewrite decide_False by done. f_equal. lia.
  - rewrite decide_False by by rewrite elem_of_first_occurrences.
    rewrite fmap_app. f_equal.
    + apply list_fmap_ext. intros _ k Hk%list_elem_of_lookup_2.
      rewrite elem_of_first_occurrences in Hk. rewrite occurrences_snoc.
      rewrite decide_False; [f_equal; lia|]. by intros ->.
    + simpl. rewrite occurrences_snoc, occurrences_absent by done.
      by rewrite decide_True.
Qed.

Lemma counter_get_tally {K} `{EqDecision K} (key : K) (l : list K) :
  counter_get key (tally l) = occurrences key l.
Proof.
  unfold tally.
  assert (∀ keys, counter_get key ((fun x => (x, occurrences x l)) <$> keys)
                  = if decide (key ∈ keys) then occurrences key l else 0) as ->.
  { induction keys as [|k keys IH]; [done|].
    rewrite fmap_cons. cbn [counter_get]. rewrite IH.
    destruct (decide (k = key)) as [->|Hne].
    - by rewrite decide_True by left.
    - destruct (decide (key ∈ keys)) as [Hin|Hout].
      + by rewrite decide_True by by right.
      + rewrite decide_False; [done|]. intros [->|?]%elem_of_cons; done. }
  destruct (decide (key ∈ first_occurrences l)) as [Hin|Hout]; [done|].
  rewrite occurrences_absent; [done|]. by rewrite <- elem_of_first_occurrences.
Qed.

(** The counter of the collected categories. *)
Lemma count_collected_tally (apps : list app) :
  count_collected apps = tally (collected_categories apps).
Proof.
  unfold count_collected, collected_categories.
  rewrite (foldl_bind_triples
             (fun counter t => if collected t
                               then counter_add (permission t) counter
                               else counter)).
  rewrite <- counter_tally.
  generalize (@nil (string * nat)).
  induction (apps ≫= app_triples) as [|t ts IH]; intros counter; [done|].
  cbn [foldl]. rewrite filter_cons.
  destruct (collected t) eqn:Hc.
  - rewrite decide_True by done. rewrite fmap_cons. cbn [foldl]. apply IH.
  - rewrite decide_False by done. apply IH.
Qed.

(** *** The stable sort *)

Lemma insert_by_perm {A} (key : A → nat) (x : A) (sorted : list A) :
  insert_by key x sorted ≡ₚ x :: sorted.
Proof.
  induction sorted as [|y sorted IH]; [done|]. simpl.
  destruct (Nat.leb (key y) (key x)); [done|].
  rewrite IH. apply Permutation_swap.
Qed.

Lemma sorted_desc_perm {A} (key : A → nat) (items : list A) :
  sorted_desc key items ≡ₚ items.
Proof.
  induction items as [|x items IH]; [done|]. simpl.
  by rewrite insert_by_perm, IH.
Qed.

Lemma insert_by_sorted {A} (key : A → nat) (x : A) (sorted : list A) :
  StronglySorted (fun a b => key b ≤ key a) sorted →
  StronglySorted (fun a b => key b ≤ key a) (insert_by key x sorted).
Proof.
  induction 1 as [|y sorted Hsorted IH Hy]; simpl.
  - apply SSorted_cons; [apply SSorted_nil|done].
  - destruct (Nat.leb_spec (key y) (key x)) as [Hle|Hgt].
    + apply SSorted_cons; [by apply SSorted_cons|].
      apply Forall_cons. split; [done|].
      eapply Forall_impl; [exact Hy|]. simpl. intros z Hz. lia.
    + apply SSorted_cons; [done|].
      rewrite insert_by_perm. apply Forall_cons. split; [lia|done].
Qed.

Lemma sorted_desc_sorted {A} (key : A → nat) (items : list A) :
  StronglySorted (fun a b => key b ≤ key a) (sorted_desc key items).
Proof.
  induction items as [|x items IH]; [apply SSorted_nil|].
  simpl. by apply insert_by_sorted.
Qed.

(** The sort is stable: the items with a given key keep their order. *)
Lemma insert_by_stable {A} (key : A → nat) (c : nat) (x : A) (sorted : list A) :
  StronglySorted (fun a b => key b ≤ key a) sorted →
  filter (fun a => key a = c) (insert_by key x sorted)
  = filter (fun a => key a = c) (x :: sorted).
Proof.
  induction 1 as [|y sorted Hsorted IH Hy]; [done|]. simpl.
  destruct (Nat.leb_spec (key y) (key x)) as [Hle|Hgt]; [done|].
  rewrite !filter_cons in *.
  destruct (decide (key y = c)) as [Hyc|Hyc].
  - rewrite (decide_False (P := key x = c)) by lia.
    rewrite IH. rewrite (decide_False (P := key x = c)) by lia. done.
  - by rewrite IH.
Qed.

Lemma sorted_desc_stable {A} (key : A → nat) (c : nat) (items : list A) :
  filter (fun a => key a = c) (sorted_desc key items)
  = filter (fun a => key a = c) items.
Proof.
  induction items as [|x items IH]; [done|]. simpl.
  rewrite insert_by_stable by apply sorted_desc_sorted.
  by rewrite !filter_cons, IH.
Qed.

Lemma sensitive_categories_spec (p : string) :
  4 ≤ counter_get p PERMISSION_SENSITIVITY ↔ p ∈ sensitive_categories.
Proof.
  unfold PERMISSION_SENSITIVITY, sensitive_categories. cbn [counter_get].
  rewrite !elem_of_cons, elem_of_nil.
  repeat (case_decide;
          [subst; split; [intros _; repeat ((left; reflexivity) || right)|lia]|]).
  repeat (case_decide; [subst; split; [lia|naive_solver]|]).
  split; [lia|naive_solver].
Qed.

Lemma tally_nil {A} `{EqDecision A} (l : list A) : tally l = [] ↔ l = [].
Proof.
  split; [|by intros ->]. unfold tally. intros E.
  apply fmap_nil_inv in E. destruct l as [|x l]; [done|].
  assert (x ∈ first_occurrences (x :: l)) as Hx
    by (apply elem_of_first_occurrences; left).
  rewrite E in Hx. by apply elem_of_nil in Hx.
Qed.

(** X19.  The result of [analyze_permission_frequency].  The counter holds
    the categories collected on channel one (status 1) with their numbers
    of occurrences, in the order of their first occurrence.  The top list
    holds ten items of the counter, or all of them when there are fewer; it
    is the beginning of the counter sorted by decreasing count, items of
    equal count keeping the order of the counter.  The high-risk list holds
    the items of the counter that were counted more than ten times and
    whose category is one of the seven of sensitivity 4 or 5.  The top list
    is empty, and the unpacking that opens [visualize_permission_frequency]
    fails, exactly when no category is collected. *)
Theorem permission_frequency_result (apps : list app) :
  all_permissions_count (analyze_permission_frequency apps)
  = tally (collected_categories apps)
  ∧ (∃ rest,
       top_permissions (analyze_permission_frequency apps) ++ rest
       ≡ₚ tally (collected_categories apps)
       ∧ StronglySorted by_decreasing_count
           (top_permissions (analyze_permission_frequency apps) ++ rest)
       ∧ ∀ c, filter (fun item : string * nat => item.2 = c)
                     (top_permissions (analyze_permission_frequency apps) ++ rest)
              = filter (fun item : string * nat => item.2 = c)
                       (tally (collected_categories apps)))
  ∧ length (top_permissions (analyze_permission_frequency apps))
    = min 10 (length (tally (collected_categories apps)))
  ∧ (∀ item, item ∈ high_risk_permissions (analyze_permission_frequency apps)
             ↔ item ∈ tally (collected_categories apps)
               ∧ item.1 ∈ sensitive_categories ∧ 10 < item.2)
  ∧ (unpack_top_permissions (top_permissions (analyze_permission_frequency apps))
     = None ↔ collected_categories apps = []).
Proof.
  unfold analyze_permission_frequency.
  cbn [all_permissions_count top_permissions high_risk_permissions].
  rewrite count_collected_tally.
  set (counter := tally (collected_categories apps)).
  split_and!.
  - done.
  - exists (drop 10 (sorted_desc snd counter)). unfold most_common.
    rewrite take_drop. split_and!.
    + apply sorted_desc_perm.
    + apply sorted_desc_sorted.
    + intros c. apply sorted_desc_stable.
  - unfold most_common.
    by rewrite length_take, (Permutation_length (sorted_desc_perm snd counter)).
  - intros item. rewrite list_elem_of_filter, sensitive_categories_spec.
    naive_solver.
  - unfold most_common.
    assert (take 10 (sorted_desc snd counter) = [] ↔ counter = []) as Hnil.
    { pose proof (Permutation_length (sorted_desc_perm snd counter)) as Hlen.
      destruct (sorted_desc snd counter) as [|x l], counter as [|y k];
        simpl in *; done. }
    rewrite <- (tally_nil (collected_categories apps)). fold counter.
    rewrite <- Hnil. by destruct (take 10 _).
Qed.

End Frequency.

(** ** The heat map *)

Section Heatmap.
Import TripleReader PermissionVisualAnalysis Spec Inputs.
Local Open Scope nat_scope.

Lemma foldr_max_ge (l : list nat) (n : nat) : n ∈ l → n ≤ foldr Nat.max 0 l.
Proof.
  induction l as [|m l IH]; [by intros ?%elem_of_nil|].
  intros [->|Hn]%elem_of_cons; simpl; [lia|]. specialize (IH Hn). lia.
Qed.

Lemma foldr_max_elem (l : list nat) : l ≠ [] → foldr Nat.max 0 l ∈ l.
Proof.
  induction l as [|m l IH]; [done|]. intros _. simpl.
  destruct l as [|m' l].
  - simpl. rewrite Nat.max_0_r. left.
  - specialize (IH ltac:(done)).
    destruct (Nat.max_spec m (foldr Nat.max 0 (m' :: l))) as [[_ ->]|[_ ->]].
    + by right.
    + left.
Qed.

(** The largest count of the counter of a list. *)
Lemma max_freq_of_tally (l : list string) :
  1 ≤ max_freq_of (tally l)
  ∧ (∀ p, occurrences p l ≤ max_freq_of (tally l))
  ∧ (l ≠ [] → ∃ p, p ∈ l ∧ occurrences p l = max_freq_of (tally l)).
Proof.
  destruct (decide (l = [])) as [->|Hne].
  { split_and!; [done| |done]. intros p.
    rewrite occurrences_absent; [simpl; lia|]. apply not_elem_of_nil. }
  assert (tally l ≠ []) as Hcounter by (by rewrite tally_nil).
  assert (max_freq_of (tally l) = foldr Nat.max 0 (tally l).*2) as ->.
  { unfold max_freq_of. by destruct (tally l). }
  assert (∀ n, n ∈ (tally l).*2 ↔ ∃ p, p ∈ l ∧ n = occurrences p l) as Hvalues.
  { intros n. unfold tally. rewrite <- list_fmap_compose, list_elem_of_fmap.
    simpl. by setoid_rewrite elem_of_first_occurrences; naive_solver. }
  assert ((tally l).*2 ≠ []) as Hvalues_ne.
  { intros E. apply fmap_nil_inv in E. done. }
  pose proof (foldr_max_elem _ Hvalues_ne) as (pmax & Hpmax & Hmax)%Hvalues.
  split_and!.
  - rewrite Hmax. by apply occurrences_pos.
  - intros p. destruct (decide (p ∈ l)) as [Hp|Hp].
    + apply foldr_max_ge, Hvalues. by exists p.
    + rewrite occurrences_absent by done. lia.
  - intros _. by exists pmax.
Qed.

Lemma fraction_bounds (x y : nat) :
  x ≤ y → 0 < y →
  (0 <= Py.of_nat x / Py.of_nat y)%Q ∧ (Py.of_nat x / Py.of_nat y <= 1)%Q.
Proof.
  intros Hxy Hpos.
  assert (0 < Py.of_nat y)%Q as Hq.
  { unfold Py.of_nat. rewrite <- (Zlt_Qlt 0). lia. }
  split.
  - apply Qle_shift_div_l; [done|]. rewrite Qmult_0_l.
    unfold Py.of_nat. rewrite <- (Zle_Qle 0). lia.
  - apply Qle_shift_div_r; [done|]. rewrite Qmult_1_l.
    unfold Py.of_nat. rewrite <- Zle_Qle. lia.
Qed.

(** X20.  [prepare_heatmap_data] never divides by zero and always returns
    nine rows, one for each category of [PERMISSION_SENSITIVITY] in the
    order of that table, with the sensitivity of the category, the number of
    times it is collected on channel one, and that number divided by the
    largest count of the counter.  The largest count is taken over all the
    collected categories, those outside the table included, and is 1 when
    nothing is collected; so every normalized frequency lies between 0
    and 1. *)
Theorem heatmap_rows (apps : list app) :
  prepare_heatmap_data apps
  = Some (heatmap_row_of (collected_categories apps)
                         (max_freq_of (count_collected apps))
            <$> PERMISSION_SENSITIVITY)
  ∧ 1 ≤ max_freq_of (count_collected apps)
  ∧ (∀ p, occurrences p (collected_categories apps)
          ≤ max_freq_of (count_collected apps))
  ∧ (collected_categories apps ≠ [] →
     ∃ p, p ∈ collected_categories apps
          ∧ occurrences p (collected_categories apps)
            = max_freq_of (count_collected apps))
  ∧ Forall (fun row => (0 <= hm_normalized_freq row)%Q
                       ∧ (hm_normalized_freq row <= 1)%Q)
           (heatmap_row_of (collected_categories apps)
                           (max_freq_of (count_collected apps))
              <$> PERMISSION_SENSITIVITY).
Proof.
  rewrite count_collected_tally.
  destruct (max_freq_of_tally (collected_categories apps))
    as (Hpos & Hmax & Hreached).
  split_and!; [|done..|].
  - unfold prepare_heatmap_data. rewrite count_collected_tally.
    apply mapM_Some_2, Forall2_fmap_r, Forall_Forall2_diag, Forall_forall.
    intros entry _. cbv zeta. rewrite counter_get_tally.
    by rewrite truediv_of_nat by lia.
  - apply Forall_fmap, Forall_forall. intros entry _. simpl.
    apply fraction_bounds; [apply Hmax|lia].
Qed.

End Heatmap.

(** ** The radar chart *)

Section Radar.
Import TripleReader PermissionVisualAnalysis Spec Inputs.
Local Open Scope nat_scope.

Lemma apps_of_genre_members (apps : list app) (g : string) :
  apps_of_genre g (ordered_genre_apps apps) = genre_members g apps.
Proof.
  rewrite ordered_genre_apps_members.
  assert (∀ keys, apps_of_genre g ((fun g => (g, genre_members g apps)) <$> keys)
                  = if decide (g ∈ keys) then genre_members g apps else []) as ->.
  { induction keys as [|k keys IH]; [done|].
    rewrite fmap_cons. cbn [apps_of_genre]. rewrite IH.
    destruct (decide (k = g)) as [->|Hne].
    - by rewrite decide_True by left.
    - destruct (decide (g ∈ keys)) as [Hin|Hout].
      + by rewrite decide_True by by right.
      + rewrite decide_False; [done|]. intros [->|?]%elem_of_cons; done. }
  destruct (decide (g ∈ first_occurrences (genre <$> apps))) as [Hin|Hout];
    [done|].
  rewrite genre_members_absent; [done|]. by rewrite <- elem_of_first_occurrences.
Qed.

Lemma genre_members_pos (apps : list app) (g : string) :
  g ∈ genre <$> apps → 0 < length (genre_members g apps).
Proof.
  intros (a & -> & Ha)%list_elem_of_fmap.
  assert (a ∈ genre_members (genre a) apps) as Hin
    by by apply list_elem_of_filter.
  destruct (genre_members _ apps); [by apply elem_of_nil in Hin|simpl; lia].
Qed.

Lemma top_genres_present (n : nat) (apps : list app) (g : string) :
  g ∈ top_genres n apps → g ∈ genre <$> apps.
Proof.
  unfold top_genres. intros Hg. apply subseteq_take in Hg.
  rewrite sorted_desc_perm in Hg. by rewrite elem_of_first_occurrences in Hg.
Qed.

Lemma sorted_desc_ext {A} (key key' : A → nat) (items : list A) :
  (∀ x, key x = key' x) → sorted_desc key items = sorted_desc key' items.
Proof.
  intros Hkey. induction items as [|x items IH]; [done|]. simpl. rewrite IH.
  generalize (sorted_desc key' items). intros sorted.
  induction sorted as [|y sorted IHs]; [done|]. simpl.
  by rewrite !Hkey, IHs.
Qed.

Lemma length_concat_rows {A B} (f : A → list B) (n : nat) (l : list A) :
  (∀ x, length (f x) = n) → length (concat (f <$> l)) = n * length l.
Proof.
  intros Hf. induction l as [|x l IH]; [simpl; lia|].
  rewrite fmap_cons. simpl. rewrite length_app, Hf, IH. lia.
Qed.

(** X21.  [prepare_radar_data] never divides by zero.  It returns nine rows
    (the categories of [PERMISSION_SENSITIVITY], in order) for each of the
    [top_n] genres with the most applications (all the genres when there are
    fewer; genres with equally many applications in the order of their first
    application); the usage ratio of a genre and a category is 100 times the
    number of triples of channel one with status 1 that the applications of
    the genre have for the category, divided by the number of these
    applications, which is never 0. *)
Theorem radar_rows (apps : list app) (top_n : nat) :
  prepare_radar_data apps top_n
  = Some (concat ((fun g => radar_row_of apps g <$> PERMISSION_SENSITIVITY)
                    <$> top_genres top_n apps))
  ∧ length (concat ((fun g => radar_row_of apps g <$> PERMISSION_SENSITIVITY)
                      <$> top_genres top_n apps))
    = 9 * min top_n (length (first_occurrences (genre <$> apps)))
  ∧ ∀ g, g ∈ top_genres top_n apps → 0 < length (genre_members g apps).
Proof.
  assert (∀ g, g ∈ top_genres top_n apps → 0 < length (genre_members g apps))
    as Hpos.
  { intros g Hg. by apply genre_members_pos, (top_genres_present top_n). }
  split_and!; [| |done].
  - unfold prepare_radar_data. cbv zeta.
    assert (take top_n
              (sorted_desc (fun g => length (apps_of_genre g (ordered_genre_apps apps)))
                           (ordered_genre_apps apps).*1)
            = top_genres top_n apps) as ->.
    { unfold top_genres. f_equal.
      rewrite (sorted_desc_ext _ (fun g => length (genre_members g apps)))
        by (intros g; by rewrite apps_of_genre_members).
      f_equal. rewrite ordered_genre_apps_members, <- list_fmap_compose.
      apply list_fmap_id. }
    assert (mapM (fun g =>
              mapM (fun entry : string * nat =>
                      q ← Py.truediv
                            (Py.of_nat (counter_get entry.1
                               (count_collected (apps_of_genre g (ordered_genre_apps apps)))))
                            (Py.of_nat (length (apps_of_genre g (ordered_genre_apps apps))));
                      Some {| rd_genre := g; rd_permission := entry.1;
                              rd_usage_ratio := (q * 100)%Q |})
                   PERMISSION_SENSITIVITY)
              (top_genres top_n apps)
            = Some ((fun g => radar_row_of apps g <$> PERMISSION_SENSITIVITY)
                      <$> top_genres top_n apps)) as ->; [|done].
    apply mapM_Some_2, Forall2_fmap_r, Forall_Forall2_diag, Forall_forall.
    intros g Hg.
    apply mapM_Some_2, Forall2_fmap_r, Forall_Forall2_diag, Forall_forall.
    intros entry _. rewrite apps_of_genre_members, count_collected_tally,
      counter_get_tally.
    by rewrite truediv_of_nat by by apply Hpos.
  - rewrite (length_concat_rows _ 9) by done.
    unfold top_genres. rewrite length_take.
    by rewrite (Permutation_length (sorted_desc_perm _ _)).
Qed.

End Radar.

(** ** The Sankey diagram *)

Section Sankey.
Import TripleReader PermissionVisualAnalysis Spec Inputs.
Local Open Scope nat_scope.





Lemma label_index_prefix (label : string) (labels more : list string) (i : nat) :
  label_index label labels = Some i →
  label_index label (labels ++ more) = Some i.
Proof.
  unfold label_index.
  destruct (list_find _ labels) as [[j x]|] eqn:E; [|done].
  intros [= <-]. by rewrite (list_find_app_l _ _ _ _ _ E).
Qed.






End Sankey.

(** ** The per-genre OCC and the order of the applications *)

Section GenreOcc.
Import TripleReader Spec Inputs.
Local Open Scope nat_scope.

Lemma process_app_genre_occ (st : ConsistencyVisualization.loop_state) (a : app) :
  ∃ st', ConsistencyVisualization.process_app st a = Some st'
    ∧ ConsistencyVisualization.genre_occ st'
      = if decide (category_count a = 0)
        then ConsistencyVisualization.genre_occ st
        else
          let b := default ConsistencyVisualization.occ_zero
                     (ConsistencyVisualization.genre_occ st !! genre a) in
          <[genre a :=
              {| ConsistencyVisualization.occ_count :=
                   ConsistencyVisualization.occ_count b + category_count a;
                 ConsistencyVisualization.occ_consistent :=
                   ConsistencyVisualization.occ_consistent b
                   + count_categories triple_consistent a |}]>
            (ConsistencyVisualization.genre_occ st).
Proof.
  unfold ConsistencyVisualization.process_app.
  destruct (scan_triples_fold (genre a) (app_triples a) []
              (ConsistencyVisualization.ica_count st)
              (ConsistencyVisualization.ica_by_genre st)
              (ConsistencyVisualization.total_permissions st))
    as [by_genre' Hfold].
  change (PermissionVisualAnalysis.group_triples [])
    with (∅ : gmap string (gmap string Z)) in Hfold.
  rewrite Hfold. simpl. rewrite scan_categories_app_consistent. simpl.
  fold (category_count a).
  change (size (filter _ (PermissionVisualAnalysis.group_triples (app_triples a))))
    with (count_categories triple_consistent a).
  destruct (Nat.ltb_spec 0 (category_count a)) as [Hpos|Hzero].
  - rewrite cv_percent_pos by done. simpl. eexists. split; [done|]. simpl.
    by rewrite decide_False by lia.
  - eexists. split; [done|]. simpl. by rewrite decide_True by lia.
Qed.

Lemma main_loop_genre_occ (apps : list app) :
  ∃ st, ConsistencyVisualization.main_loop apps = Some st
    ∧ ∀ g, ConsistencyVisualization.genre_occ st !! g
           = if decide (genre_total category_count apps g = 0) then None
             else Some
                    {| ConsistencyVisualization.occ_count :=
                         genre_total category_count apps g;
                       ConsistencyVisualization.occ_consistent :=
                         genre_total (count_categories triple_consistent) apps g |}.
Proof.
  induction apps as [|a apps IH] using rev_ind.
  - exists ConsistencyVisualization.loop_init. split; [done|]. by intros g.
  - destruct IH as (st & Hst & Hocc).
    destruct (process_app_genre_occ st a) as (st' & Hst' & Hocc').
    exists st'. rewrite main_loop_snoc, Hst. simpl. split; [done|].
    intros g. rewrite Hocc', !genre_total_snoc.
    assert (count_categories triple_consistent a ≤ category_count a) as Hle.
    { unfold count_categories, category_count.
      apply map_subseteq_size, map_filter_subseteq. }
    destruct (decide (category_count a = 0)) as [Hzero|Hpos].
    + rewrite Hocc, Hzero.
      assert (count_categories triple_consistent a = 0) as -> by lia.
      destruct (decide (genre a = g)); by rewrite !Nat.add_0_r.
    + cbv zeta. destruct (decide (genre a = g)) as [<-|Hne].
      * rewrite lookup_insert_eq, Hocc.
        rewrite (decide_False (P := _ + category_count a = 0)) by lia.
        destruct (decide (genre_total category_count apps (genre a) = 0))
          as [E|E]; simpl; [|done].
        rewrite E. repeat f_equal.
        assert (genre_total (count_categories triple_consistent) apps (genre a)
                ≤ genre_total category_count apps (genre a)) as Hsum.
        { unfold genre_total. clear.
          induction (filter _ apps) as [|b l IH]; [done|]. simpl.
          assert (count_categories triple_consistent b ≤ category_count b).
          { unfold count_categories, category_count.
            apply map_subseteq_size, map_filter_subseteq. }
          lia. }
        lia.
      * rewrite lookup_insert_ne by done. by rewrite Hocc, !Nat.add_0_r.
Qed.

(** X23.  The OCC of a genre, over the whole database: 100 times the number
    of consistent categories (three channel entries with equal statuses
    other than -1) of the applications of the genre, divided by the number
    of all the categories of these applications; a genre without any triple
    has no entry. *)
Theorem genre_occ_by_genre (apps : list app) :
  ∃ m, ConsistencyVisualization.calculate_metrics apps = Some m
    ∧ ∀ g, ConsistencyVisualization.m_genre_occ m !! g
           = ratio_entry (genre_total (count_categories triple_consistent) apps g)
                         (genre_total category_count apps g).
Proof.
  destruct (main_loop_genre_occ apps) as (st & Hst & Hocc).
  destruct (calculate_metrics_fields apps st Hst) as (m & Hm & _ & H1 & _).
  exists m. split; [done|]. intros g.
  rewrite (per_genre_bind _ _ _ g genre_occ_ratio_total H1), Hocc.
  unfold ratio_entry. case_decide as Hzero; [done|]. simpl.
  unfold ConsistencyVisualization.genre_occ_ratio. simpl.
  destruct (Nat.ltb_spec 0 (genre_total category_count apps g)); [|lia].
  by apply cv_percent_pos.
Qed.

End GenreOcc.

Section OrderOfApplications.
Import TripleReader Spec Inputs.
Local Open Scope nat_scope.

Lemma genre_total_Permutation (f : app → nat) (apps apps' : list app) (g : string) :
  apps ≡ₚ apps' → genre_total f apps g = genre_total f apps' g.
Proof. intros Hperm. unfold genre_total. by rewrite Hperm. Qed.

(** Every metric but the trend, in terms of sums over the applications. *)
Lemma metrics_by_totals (apps : list app) :
  ∃ m, ConsistencyVisualization.calculate_metrics apps = Some m
    ∧ (∀ g, ConsistencyVisualization.m_genre_occ m !! g
            = ratio_entry (genre_total (count_categories triple_consistent) apps g)
                          (genre_total category_count apps g))
    ∧ (∀ g, ConsistencyVisualization.ccor m !! g
            = ratio_entry (genre_total (count_categories ccor_omitted) apps g)
                          (genre_total (count_categories ccor_counted) apps g))
    ∧ (∀ g, ConsistencyVisualization.cccr m !! g
            = ratio_entry (genre_total (count_categories cccr_conflicting) apps g)
                          (genre_total (count_categories cccr_counted) apps g))
    ∧ ConsistencyVisualization.ica_ratio_of
        (sum_list_with (fun a => status_changes (app_triples a)) apps)
        (length (apps ≫= app_triples))
      = Some (ConsistencyVisualization.ica_ratio m)
    ∧ (∀ g, ConsistencyVisualization.m_ica_by_genre m !! g
            = if decide (genre_total (fun a => status_changes (app_triples a)) apps g = 0)
              then None
              else Some (genre_total (fun a => status_changes (app_triples a)) apps g)).
Proof.
  destruct (main_loop_genre_occ apps) as (st & Hst & Hocc).
  destruct (main_loop_buckets apps) as (st1 & Hst1 & Hbuckets).
  rewrite Hst in Hst1. injection Hst1 as <-.
  destruct (main_loop_bounded apps) as (st1 & Hst1 & _ & _ & Hccor & Hcccr & _).
  rewrite Hst in Hst1. injection Hst1 as <-.
  destruct (main_loop_counters apps) as (st1 & Hst1 & Hica & Htotal).
  rewrite Hst in Hst1. injection Hst1 as <-.
  destruct (main_loop_by_genre apps) as (st1 & Hst1 & Hby).
  rewrite Hst in Hst1. injection Hst1 as <-.
  destruct (calculate_metrics_fields apps st Hst)
    as (m & Hm & _ & H1 & H2 & H3 & H4 & H5).
  exists m. split; [done|]. split_and!.
  - intros g.
    rewrite (per_genre_bind _ _ _ g genre_occ_ratio_total H1), Hocc.
    unfold ratio_entry. case_decide as Hzero; [done|]. simpl.
    unfold ConsistencyVisualization.genre_occ_ratio. simpl.
    destruct (Nat.ltb_spec 0 (genre_total category_count apps g)); [|lia].
    by apply cv_percent_pos.
  - intros g. destruct (Hbuckets g) as [Hb2 _].
    rewrite (per_genre_bind _ _ _ g ccor_ratio_total H2).
    apply (ccor_ratio_entry _ _ _ (fun b Hb => proj2 (Hccor g b Hb)) Hb2).
  - intros g. destruct (Hbuckets g) as [_ Hb3].
    rewrite (per_genre_bind _ _ _ g cccr_ratio_total H3).
    apply (cccr_ratio_entry _ _ _ (fun b Hb => proj2 (Hcccr g b Hb)) Hb3).
  - by rewrite <- Hica, <- Htotal.
  - intros g. by rewrite H5.
Qed.

(** X24.  Reordering the applications changes none of the per-genre OCC,
    CCOR and CCCR, the ICA ratio and the ICA counts per genre.  (The OCC
    trend is a running list and is not part of the statement.) *)
Theorem metrics_independent_of_order (apps apps' : list app) :
  apps ≡ₚ apps' →
  ∃ m m', ConsistencyVisualization.calculate_metrics apps = Some m
    ∧ ConsistencyVisualization.calculate_metrics apps' = Some m'
    ∧ ConsistencyVisualization.m_genre_occ m = ConsistencyVisualization.m_genre_occ m'
    ∧ ConsistencyVisualization.ccor m = ConsistencyVisualization.ccor m'
    ∧ ConsistencyVisualization.cccr m = ConsistencyVisualization.cccr m'
    ∧ ConsistencyVisualization.ica_ratio m = ConsistencyVisualization.ica_ratio m'
    ∧ ConsistencyVisualization.m_ica_by_genre m
      = ConsistencyVisualization.m_ica_by_genre m'.
Proof.
  intros Hperm.
  destruct (metrics_by_totals apps) as (m & Hm & Hocc & Hccor & Hcccr & Hica & Hby).
  destruct (metrics_by_totals apps')
    as (m' & Hm' & Hocc' & Hccor' & Hcccr' & Hica' & Hby').
  exists m, m'. split_and!; [done..| | | | |].
  - apply map_eq. intros g.
    by rewrite Hocc, Hocc', !(genre_total_Permutation _ _ _ g Hperm).
  - apply map_eq. intros g.
    by rewrite Hccor, Hccor', !(genre_total_Permutation _ _ _ g Hperm).
  - apply map_eq. intros g.
    by rewrite Hcccr, Hcccr', !(genre_total_Permutation _ _ _ g Hperm).
  - rewrite Hperm in Hica. rewrite Hica' in Hica. by injection Hica.
  - apply map_eq. intros g.
    by rewrite Hby, Hby', !(genre_total_Permutation _ _ _ g Hperm).
Qed.

Lemma metrics_independent_of_order_witness :
  [camera_app; single_camera_app] ≡ₚ [single_camera_app; camera_app]
  ∧ ∃ m m',
      ConsistencyVisualization.calculate_metrics [camera_app; single_camera_app]
      = Some m
      ∧ ConsistencyVisualization.calculate_metrics [single_camera_app; camera_app]
        = Some m'
      ∧ ConsistencyVisualization.m_genre_occ m = ConsistencyVisualization.m_genre_occ m'
      ∧ ConsistencyVisualization.ccor m = ConsistencyVisualization.ccor m'
      ∧ ConsistencyVisualization.cccr m = ConsistencyVisualization.cccr m'
      ∧ ConsistencyVisualization.ica_ratio m = ConsistencyVisualization.ica_ratio m'
      ∧ ConsistencyVisualization.m_ica_by_genre m
        = ConsistencyVisualization.m_ica_by_genre m'.
Proof.
  split; [apply perm_swap|].
  apply (metrics_independent_of_order [camera_app; single_camera_app]
           [single_camera_app; camera_app]).
  apply perm_swap.
Defined.

End OrderOfApplications.

(** ** Triple lines outside a block *)

Section OrphanTriples.
Import TripleReader Generator Spec Inputs.

Lemma process_clean_block_lines_from (st : reader_state)
    (block : app_info * list triple) :
  clean_info block.1 → Forall (.∈ all_triples) block.2 →
  nonempty_dict (current_app st) = false →
  foldl process_line st ((fun l => l +:+ NL) <$> block_lines true block)
  = {| apps_data := apps_data st;
       current_app := {| d_app_name := Some (app_name block.1);
                         d_app_id := Some (app_id block.1);
                         d_genre := Some (app_genre block.1);
                         d_triples := [] |};
       triples := TripleReader.triples st ++ (as_triple <$> block.2) |}.
Proof.
  destruct block as [key ts]. intros (Hname & Hid & Hgenre) Hts Hempty.
  simpl in Hname, Hid, Hgenre, Hts.
  unfold block_lines. rewrite app_nil_r. simpl fst. simpl snd.
  rewrite fmap_app, foldl_app. rewrite !fmap_cons, fmap_nil. cbn [foldl].
  rewrite process_name_line_value by done.
  replace (pending st) with false by (unfold pending; by rewrite Hempty).
  rewrite process_id_line_value by done. simpl.
  rewrite process_genre_line_value by done. simpl.
  rewrite process_triples_header, process_triple_lines by done. done.
Qed.

(** X25.  Triple lines that come before the first application header are
    not dropped: the reader keeps them and credits them to the application
    whose header follows, in front of its own triples. *)
Theorem triples_before_header_join_next_application
    (orphans : list triple) (block : app_info * list triple) :
  Forall (.∈ all_triples) orphans →
  clean_info block.1 → Forall (.∈ all_triples) block.2 →
  orphans ++ block.2 ≠ [] →
  parse_lines ((fun l => l +:+ NL)
                 <$> ((triple_text <$> orphans) ++ block_lines true block))
  = [ {| d_app_name := Some (app_name block.1);
         d_app_id := Some (app_id block.1);
         d_genre := Some (app_genre block.1);
         d_triples := as_triple <$> (orphans ++ block.2) |} ].
Proof.
  intros Horphans Hclean Hts Hne. unfold parse_lines.
  rewrite fmap_app, foldl_app, process_triple_lines by done.
  rewrite process_clean_block_lines_from by done. simpl.
  rewrite <- fmap_app. unfold finish, pending. simpl.
  destruct (orphans ++ block.2); done.
Qed.

Lemma triples_before_header_join_next_application_witness :
  parse_lines
    ((fun l => l +:+ NL)
       <$> ((triple_text <$> [("渠道一", "Camera", 1%Z)])
            ++ block_lines true
                 (info_of phone_app, [("渠道二", "Camera", 0%Z)])))
  = [ {| d_app_name := Some (app_name (info_of phone_app));
         d_app_id := Some (app_id (info_of phone_app));
         d_genre := Some (app_genre (info_of phone_app));
         d_triples :=
           as_triple
             <$> ([("渠道一", "Camera", 1%Z)] ++ [("渠道二", "Camera", 0%Z)]) |} ].
Proof.
  apply (triples_before_header_join_next_application
           [("渠道一", "Camera", 1%Z)]
           (info_of phone_app, [("渠道二", "Camera", 0%Z)])).
  - apply Forall_cons. split; [|apply Forall_nil; exact I].
    vm_compute. set_solver.
  - repeat split; vm_compute; reflexivity.
  - apply Forall_cons. split; [|apply Forall_nil; exact I].
    vm_compute. set_solver.
  - discriminate.
Defined.

End OrphanTriples.

(** ** The order of the rows of the genre comparison *)

Section GenreComparisonOrder.
Import TripleReader PermissionVisualAnalysis Spec Inputs.
Local Open Scope nat_scope.

(** X26.  [prepare_genre_comparison_data] never fails (no division by zero,
    no intersection of no set): it returns one row for each genre that has
    at least five applications, in the order in which the genres first occur
    in the data, and no row for the other genres; each row is the one that
    the loop body computes from all the applications of its genre, whose
    number it records. *)
Theorem genre_comparison_rows_by_genre (apps : list app) :
  ∃ rows,
    prepare_genre_comparison_data apps = Some rows
    ∧ cmp_genre <$> rows
      = filter (fun g => 5 ≤ length (genre_members g apps))
               (first_occurrences (genre <$> apps))
    ∧ Forall (fun row =>
                compare_genre (cmp_genre row) (genre_members (cmp_genre row) apps)
                = Some (Some row)
                ∧ app_count row = length (genre_members (cmp_genre row) apps)
                ∧ 5 ≤ app_count row) rows.
Proof.
  unfold prepare_genre_comparison_data. rewrite ordered_genre_apps_members.
  destruct (genre_comparison_rows_of apps (first_occurrences (genre <$> apps)))
    as (rows & -> & Hgenres & Hall).
  by exists (omap id rows).
Qed.

End GenreComparisonOrder.
